(** * lrulist: a fixed-capacity LRU list (src/lrulist.go)

    The Go package keeps a hash index [cacheMap] from keys to nodes and a
    circular doubly-linked list of nodes whose head [cache] is the most
    recently used entry.  Nodes are heap objects that alias each other
    through [prev]/[next] pointers, so the embedding below keeps an
    explicit heap of nodes addressed by locations, and every operation is
    written in a small state monad that can also panic (nil dereference)
    or run out of fuel (the [for] loop of [Traverse]).

    The reader/writer lock is not modelled: every public operation holds
    it for its whole duration, so operations are atomic steps.

    The index is a Go map keyed by [interface{}].  Go finds a map entry
    by comparing keys with [==], and [==] is not reflexive: a key that
    holds a floating-point NaN is not equal to itself, so an entry stored
    under it is never found and never deleted, although [len] counts it.
    The index is modelled with that behaviour ([gomap] below). *)

From stdpp Require Import gmap list strings.

(** ** Outcomes of running Go code *)

Inductive outcome (A : Type) : Type :=
  | Done (a : A)      (* normal return *)
  | Panic             (* runtime panic: nil pointer dereference *)
  | OutOfFuel.        (* the loop bound of the model was exhausted *)
Arguments Done {A} a.
Arguments Panic {A}.
Arguments OutOfFuel {A}.

(** A location is the address of a heap-allocated [LRUListNode]; a Go
    pointer is a location or [nil]. *)
Abbreviation loc := nat (only parsing).
Abbreviation ptr := (option nat) (only parsing).

(** ** Keys *)

(** [nan k]: Go's [k == k] is false.  This is so for a float or complex
    NaN and for a struct, array or interface value that holds one.  On
    all other keys [==] is the equality of the type of keys. *)
Class GoKey (K : Type) := nan : K → bool.

Section LRU.

(** Keys are the Go values usable as map keys (comparable, hashable);
    values are opaque; [E] is the type of non-nil Go [error] values and
    [W] the state of the caller's world, which callbacks may read and
    change. *)
Context {K : Type} `{Countable K} `{GoKey K}.
Context {V E W : Type}.

(** [fmt.Errorf]: builds an error value from a message. *)
Variable Errorf : string → E.

(** A callback [func(interface{}) error] of the caller. *)
Definition callback : Type := V → W → option E * W.

(** type LRUListNode struct { key, val interface{}; prev, next *LRUListNode } *)
Record LRUListNode : Type := mkNode {
  key : K;
  val : V;
  prev : ptr;
  next : ptr;
}.

(** ** map[interface{}]*LRUListNode *)

(** The entries stored under keys that equal themselves are a finite map
    [found].  An entry stored under a NaN key can never be reached
    through its key again; such entries are kept in [lost], in the order
    they were stored, newest first. *)
Record gomap : Type := GoMap {
  found : gmap K ptr;
  lost : list (K * ptr);
}.

(** [make(map[interface{}]*LRUListNode)] *)
#[global] Instance gomap_empty : Empty gomap := GoMap ∅ [].

(** [item, hit := m[k]]: a NaN key never hits. *)
#[global] Instance gomap_lookup : Lookup K ptr gomap := λ k m,
  if nan k then None else found m !! k.

(** [m[k] = p]: a NaN key matches no entry, so a new entry is added. *)
#[global] Instance gomap_insert : Insert K ptr gomap := λ k p m,
  if nan k then GoMap (found m) ((k, p) :: lost m)
  else GoMap (<[k := p]> (found m)) (lost m).

(** [delete(m, k)]: a NaN key matches no entry, so nothing is removed. *)
#[global] Instance gomap_delete : Delete K gomap := λ k m,
  if nan k then m else GoMap (delete k (found m)) (lost m).

(** [len(m)] counts every entry. *)
#[global] Instance gomap_size : Size gomap := λ m,
  size (found m) + length (lost m).

(** type LRUList struct { cap; cacheMap; cache; evict; lock } *)
Record LRUList : Type := mkLRUList {
  cap : Z;
  cacheMap : gomap;
  cache : ptr;
  evict : option callback;
}.

(** Ghost record of callback invocations, in the order they happen. *)
Inductive event : Type :=
  | Evicted (v : V)
  | Visited (v : V).

(** The program state: the heap of nodes, the store object, the world of
    the caller, and the log of callback calls. *)
Record state : Type := mkState {
  heap : gmap nat LRUListNode;
  lruc : LRUList;
  world : W;
  log : list event;
}.

(** ** The monad of store operations *)

Definition M (A : Type) : Type := state → outcome (A * state).

Definition ret {A} (a : A) : M A := λ s, Done (a, s).

Definition bind {A B} (m : M A) (k : A → M B) : M B := λ s,
  match m s with
  | Done (a, s') => k a s'
  | Panic => Panic
  | OutOfFuel => OutOfFuel
  end.

Definition out_of_fuel {A} : M A := λ _, OutOfFuel.

Notation "'let*' x ':=' m 'in' k" := (bind m (λ x, k))
  (at level 10, x name, m at level 100, k at level 200,
   format "'[v' 'let*'  x  ':='  m  'in' '/' k ']'").
Notation "m ';;;' k" := (bind m (λ _, k))
  (at level 100, k at level 200, right associativity,
   format "'[v' m  ';;;' '/' k ']'").

(** Field updates of a node. *)
Definition set_key (k : K) (n : LRUListNode) : LRUListNode :=
  mkNode k (val n) (prev n) (next n).
Definition set_val (v : V) (n : LRUListNode) : LRUListNode :=
  mkNode (key n) v (prev n) (next n).
Definition set_prev (p : ptr) (n : LRUListNode) : LRUListNode :=
  mkNode (key n) (val n) p (next n).
Definition set_next (p : ptr) (n : LRUListNode) : LRUListNode :=
  mkNode (key n) (val n) (prev n) p.

(** [*p]: reading through a pointer; nil panics. *)
Definition deref (p : ptr) : M LRUListNode := λ s,
  match p with
  | None => Panic
  | Some l =>
      match heap s !! l with
      | Some n => Done (n, s)
      | None => Panic
      end
  end.

(** [p.field = ...]: writing a field through a pointer; nil panics. *)
Definition assign (p : ptr) (f : LRUListNode → LRUListNode) : M unit := λ s,
  match p with
  | None => Panic
  | Some l =>
      match heap s !! l with
      | Some _ => Done ((), mkState (alter f l (heap s)) (lruc s) (world s) (log s))
      | None => Panic
      end
  end.

(** [&LRUListNode{...}]: allocation at a location not yet in use. *)
Definition alloc (n : LRUListNode) : M ptr := λ s,
  let l := fresh (dom (heap s)) in
  Done (Some l, mkState (<[l := n]> (heap s)) (lruc s) (world s) (log s)).

(** Reading and writing the fields of the store object [lruc]. *)
Definition get_lruc : M LRUList := λ s, Done (lruc s, s).

Definition set_cache (p : ptr) : M unit := λ s,
  let c := lruc s in
  Done ((), mkState (heap s) (mkLRUList (cap c) (cacheMap c) p (evict c))
                    (world s) (log s)).

Definition set_cacheMap (m : gomap) : M unit := λ s,
  let c := lruc s in
  Done ((), mkState (heap s) (mkLRUList (cap c) m (cache c) (evict c))
                    (world s) (log s)).

(** Calling a callback of the caller: it runs on the world, and the call
    is recorded in the log. *)
Definition call (tag : V → event) (f : callback) (v : V) : M (option E) := λ s,
  let '(e, w) := f v (world s) in
  Done (e, mkState (heap s) (lruc s) w (log s ++ [tag v])).

(** ** NewLRUList (lines 26-34) *)

Definition NewLRUList (cap : Z) (evict : option callback) : LRUList :=
  mkLRUList cap ∅ None evict.

(** The state right after construction: no node allocated yet. *)
Definition init (cap : Z) (evict : option callback) (w : W) : state :=
  mkState ∅ (NewLRUList cap evict) w [].

(** ** Moving a node to the head (lines 44-48 and, verbatim, 99-103) *)

(** [item.prev.next, item.next.prev = item.next, item.prev]
    Both sides are evaluated first; then the two assignments are carried
    out left to right. *)
Definition unlink (item : ptr) : M unit :=
  let* it := deref item in
  let p := prev it in
  let n := next it in
  assign p (set_next n) ;;;
  assign n (set_prev p).

(** [item.prev, item.next = lruc.cache.prev, lruc.cache]
    [lruc.cache.prev.next, lruc.cache.prev = item, item]
    (lines 46-47, 63-64 and 101-102) *)
Definition link_before_head (item : ptr) : M unit :=
  let* c := get_lruc in
  let* hd := deref (cache c) in
  assign item (set_prev (prev hd)) ;;;
  assign item (set_next (cache c)) ;;;
  let* c := get_lruc in
  let* hd := deref (cache c) in
  assign (prev hd) (set_next item) ;;;
  assign (cache c) (set_prev item).

Definition move_to_head (item : ptr) : M unit :=
  unlink item ;;;
  link_before_head item ;;;
  set_cache item.

(** ** Set (lines 36-89); [Set] is a sort of Rocq, hence the underscore. *)

Definition Set_ (k : K) (v : V) : M (option E) :=
  let* c := get_lruc in
  match cacheMap c !! k with
  | Some item =>
      (* the key already exists in the cache *)
      (if decide (item = cache c) then ret () else move_to_head item) ;;;
      let* c := get_lruc in
      assign (cache c) (set_val v) ;;;
      ret None
  | None =>
      if decide (Z.of_nat (size (cacheMap c)) < cap c)%Z then
        (* the cache is not full: create a new node *)
        let* item := alloc (mkNode k v None None) in
        set_cacheMap (<[k := item]> (cacheMap c)) ;;;
        (match cache c with
         | None =>
             assign item (set_prev item) ;;;
             assign item (set_next item)
         | Some _ => link_before_head item
         end) ;;;
        set_cache item ;;;
        ret None
      else
        (* the cache is full: replace the least recently used node *)
        let* hd := deref (cache c) in
        set_cache (prev hd) ;;;
        let* c := get_lruc in
        let* err :=
          match evict c with
          | Some f =>
              let* victim := deref (cache c) in
              call Evicted f (val victim)
          | None => ret None
          end in
        match err with
        | Some e => ret (Some e)
        | None =>
            let* victim := deref (cache c) in
            set_cacheMap (<[k := cache c]> (delete (key victim) (cacheMap c))) ;;;
            assign (cache c) (set_key k) ;;;
            assign (cache c) (set_val v) ;;;
            ret None
        end
  end.

(** ** Get (lines 91-109) *)

Definition Get (k : K) : M (option V * option E) :=
  let* c := get_lruc in
  match cacheMap c !! k with
  | Some item =>
      (if decide (item = cache c) then ret () else move_to_head item) ;;;
      let* c := get_lruc in
      let* hd := deref (cache c) in
      ret (Some (val hd), None)
  | None => ret (None, Some (Errorf "key doesn't hit"))
  end.

(** ** Traverse (lines 111-133) *)

(** The [for cur := lruc.cache.next; cur != lruc.cache; cur = cur.next]
    loop; every iteration costs one unit of fuel. *)
Fixpoint traverse_loop (fuel : nat) (visit : callback) (cur : ptr) : M (option E) :=
  let* c := get_lruc in
  if decide (cur = cache c) then ret None
  else
    match fuel with
    | O => out_of_fuel
    | S fuel' =>
        let* n := deref cur in
        let* err := call Visited visit (val n) in
        match err with
        | Some e => ret (Some e)
        | None =>
            let* n := deref cur in
            traverse_loop fuel' visit (next n)
        end
    end.

Definition Traverse (fuel : nat) (visit : callback) : M (option E) :=
  let* c := get_lruc in
  match cache c with
  | None => ret None
  | Some _ =>
      let* hd := deref (cache c) in
      let* err := call Visited visit (val hd) in
      match err with
      | Some e => ret (Some e)
      | None =>
          let* hd := deref (cache c) in
          traverse_loop fuel visit (next hd)
      end
  end.

(** * The invariant and the reference points of the proofs *)

(** ** The heap seen as four field maps *)

Definition nxt (h : gmap nat LRUListNode) (a : loc) : option ptr := next <$> h !! a.
Definition prv (h : gmap nat LRUListNode) (a : loc) : option ptr := prev <$> h !! a.
Definition keyf (h : gmap nat LRUListNode) (a : loc) : option K := key <$> h !! a.
Definition valf (h : gmap nat LRUListNode) (a : loc) : option V := val <$> h !! a.

(** ** The cycle of slots *)

(** [a.next == b] and [b.prev == a]. *)
Definition linked (h : gmap nat LRUListNode) (a b : loc) : Prop :=
  nxt h a = Some (Some b) ∧ prv h b = Some (Some a).

(** A doubly-linked segment: the slots of [l] in [next] order, the last
    one linked to [f]. *)
Fixpoint seg (h : gmap nat LRUListNode) (l : list loc) (f : loc) : Prop :=
  match l with
  | [] => True
  | a :: r => linked h a (default f (head r)) ∧ seg h r f
  end.

(** The slots of [l] form one cycle, closed from the last slot back to
    the first. *)
Definition ring (h : gmap nat LRUListNode) (l : list loc) : Prop :=
  NoDup l ∧ seg h l (default 0 (head l)).

(** Following [next] from [cur] for [n] steps. *)
Fixpoint walk (h : gmap nat LRUListNode) (cur : ptr) (n : nat) : option (list loc) :=
  match n with
  | O => Some []
  | S n' =>
      match cur with
      | None => None
      | Some l =>
          match h !! l with
          | None => None
          | Some nd => cons l <$> walk h (next nd) n'
          end
      end
  end.

(** The slots from the head, [len(cacheMap)] of them: the recency order,
    most recently used first. *)
Definition order (s : state) : option (list loc) :=
  walk (heap s) (cache (lruc s)) (size (cacheMap (lruc s))).

(** ** The structural invariant *)

(** Every slot of the cycle is indexed under the key it holds. *)
Definition slot_indexed (s : state) (l : loc) : Prop :=
  match keyf (heap s) l with
  | Some k => cacheMap (lruc s) !! k = Some (Some l)
  | None => False
  end.

(** Every indexed key maps to a slot of the cycle that holds that key. *)
Definition key_slotted (s : state) (ls : list loc) (k : K) (p : ptr) : Prop :=
  match p with
  | Some l => l ∈ ls ∧ keyf (heap s) l = Some k
  | None => False
  end.

(** The structural invariant, for the recency order [ls]. *)
Record WF_at (s : state) (ls : list loc) : Prop := mkWF {
  wf_len : length ls = size (cacheMap (lruc s));
  wf_head : cache (lruc s) = head ls;
  wf_ring : ring (heap s) ls;
  wf_slots : Forall (slot_indexed s) ls;
  wf_index : map_Forall (key_slotted s ls) (cacheMap (lruc s));
}.

(** A store is well formed when the invariant holds for some order
    (which is then [order s]). *)
Definition WF (s : state) : Prop := ∃ ls, WF_at s ls.

(** ** The invariant with keys of any kind *)

(** A slot of the cycle holds a key, and is indexed under it when the
    key equals itself. *)
Definition slot_keyed (s : state) (l : loc) : Prop :=
  match keyf (heap s) l with
  | Some k => nan k = false → cacheMap (lruc s) !! k = Some (Some l)
  | None => False
  end.

(** What holds of the store whatever keys it was given: the slots [ls]
    form one cycle from the head, the index has at least as many entries
    as there are slots (and none while there is no slot), every key that
    is found maps to a slot holding it, and every slot that holds a key
    equal to itself is found under it. *)
Record Coherent_at (s : state) (ls : list loc) : Prop := mkCoherent {
  co_len : length ls ≤ size (cacheMap (lruc s));
  co_nil : ls = [] → size (cacheMap (lruc s)) = 0;
  co_head : cache (lruc s) = head ls;
  co_ring : ring (heap s) ls;
  co_slots : Forall (slot_keyed s) ls;
  co_index : map_Forall (key_slotted s ls) (cacheMap (lruc s));
}.

Definition Coherent (s : state) : Prop := ∃ ls, Coherent_at s ls.

(** [len(cacheMap) <= cap] *)
Definition cap_bound (s : state) : Prop :=
  (Z.of_nat (size (cacheMap (lruc s))) ≤ cap (lruc s))%Z.

(** ** The states the operations lead to *)

(** The heap after [unlink] of a slot whose neighbours are [p] and [n]. *)
Definition unlink_heap (h : gmap nat LRUListNode) (p n : loc) : gmap nat LRUListNode :=
  alter (set_prev (Some p)) n (alter (set_next (Some n)) p h).

(** The heap after [link_before_head] of [x], with head [x0] and tail [t]. *)
Definition link_heap (h : gmap nat LRUListNode) (x t x0 : loc) : gmap nat LRUListNode :=
  alter (set_prev (Some x)) x0
    (alter (set_next (Some x)) t
       (alter (set_next (Some x0)) x
          (alter (set_prev (Some t)) x h))).

(** A state with one component replaced. *)
Definition with_heap (s : state) (h : gmap nat LRUListNode) : state :=
  mkState h (lruc s) (world s) (log s).

Definition with_cache (s : state) (p : ptr) : state :=
  mkState (heap s)
    (mkLRUList (cap (lruc s)) (cacheMap (lruc s)) p (evict (lruc s)))
    (world s) (log s).

Definition with_cacheMap (s : state) (m : gomap) : state :=
  mkState (heap s)
    (mkLRUList (cap (lruc s)) m (cache (lruc s)) (evict (lruc s)))
    (world s) (log s).

(** Moving [x] to the front of a recency order. *)
Definition promote {A} `{EqDecision A} (x : A) (l : list A) : list A :=
  x :: filter (λ y, y ≠ x) l.

(** What a promotion leaves alone: capacity, index, callback, world, log,
    and the key and value held by every slot. *)
Record same_entries (s s' : state) : Prop := mkSame {
  same_cap : cap (lruc s') = cap (lruc s);
  same_cacheMap : cacheMap (lruc s') = cacheMap (lruc s);
  same_evict : evict (lruc s') = evict (lruc s);
  same_world : world s' = world s;
  same_log : log s' = log s;
  same_keyf : ∀ b, keyf (heap s') b = keyf (heap s) b;
  same_valf : ∀ b, valf (heap s') b = valf (heap s) b;
}.

(** The eviction callback on the victim's value: its verdict, the new
    world, and the calls made. *)
Definition run_evict (c : LRUList) (vt : V) (w : W) : option E * W * list event :=
  match evict c with
  | Some f => let '(e, w') := f vt w in (e, w', [Evicted vt])
  | None => (None, w, [])
  end.

(** The state in which a failed eviction returns: only the head moved
    (and the callback ran). *)
Definition evict_failed (s : state) (t : loc) (w' : W) (evs : list event) : state :=
  mkState (heap s)
    (mkLRUList (cap (lruc s)) (cacheMap (lruc s)) (Some t) (evict (lruc s)))
    w' (log s ++ evs).

(** The state after a successful replacement of the victim [t], which
    held the key [kt]. *)
Definition replaced (s : state) (t : loc) (kt k : K) (v : V)
    (w' : W) (evs : list event) : state :=
  mkState (alter (set_val v) t (alter (set_key k) t (heap s)))
    (mkLRUList (cap (lruc s)) (<[k := Some t]> (delete kt (cacheMap (lruc s))))
               (Some t) (evict (lruc s)))
    w' (log s ++ evs).

(** ** Traversal *)

(** Visiting a list of values in order, stopping at the first failure:
    the verdict, the new world, and the calls made. *)
Fixpoint visit_all (visit : callback) (vs : list V) (w : W)
    : option E * W * list event :=
  match vs with
  | [] => (None, w, [])
  | v :: vs' =>
      match visit v w with
      | (Some err, w') => (Some err, w', [Visited v])
      | (None, w') =>
          let '(e, w'', evs) := visit_all visit vs' w' in
          (e, w'', Visited v :: evs)
      end
  end.

(** The values held by the slots of the recency order, head first. *)
Definition values (s : state) : option (list V) :=
  match order s with
  | Some ls => mapM (valf (heap s)) ls
  | None => None
  end.

(** A state after callbacks ran: a new world and more calls logged. *)
Definition with_world (s : state) (w : W) (evs : list event) : state :=
  mkState (heap s) (lruc s) w (log s ++ evs).

(** ** The least recently used slot *)

(** [lruc.cache.prev]: the eviction candidate. *)
Definition lru_slot (s : state) : option loc :=
  hd ← cache (lruc s); nd ← heap s !! hd; prev nd.

(** ** Sequences of public operations *)

Inductive op : Type :=
  | OpSet (k : K) (v : V)
  | OpGet (k : K)
  | OpTraverse (fuel : nat) (visit : callback).

Definition run_op (o : op) : M unit :=
  match o with
  | OpSet k v => Set_ k v ;;; ret ()
  | OpGet k => Get k ;;; ret ()
  | OpTraverse fuel visit => Traverse fuel visit ;;; ret ()
  end.

Fixpoint run (ops : list op) : M unit :=
  match ops with
  | [] => ret ()
  | o :: ops' => run_op o ;;; run ops'
  end.

(** No [Set_] of the sequence is given a NaN key. *)
Definition no_nan (o : op) : Prop :=
  match o with
  | OpSet k _ => nan k = false
  | _ => True
  end.

(** The loop of a traversal gets at least [c] iterations. *)
Definition fuel_ok (c : Z) (o : op) : Prop :=
  match o with
  | OpTraverse fuel _ => (c ≤ Z.of_nat fuel)%Z
  | _ => True
  end.

(** The ordering structure is a single cycle through exactly
    [len(cacheMap)] slots: walking [next] from the head for that many
    steps visits distinct slots [ls], the last of which links back to
    the first, with [prev] mirroring [next]. *)
Definition single_cycle (s : state) : Prop :=
  ∃ ls, order s = Some ls ∧ length ls = size (cacheMap (lruc s)) ∧
        NoDup ls ∧ seg (heap s) ls (default 0 (head ls)).

(** The index never outgrows a positive capacity, and stays empty under
    a capacity that is not positive. *)
Definition bounded (s : state) : Prop :=
  cap_bound s ∨ size (cacheMap (lruc s)) = 0.

(** ** Recency in the words of the specification *)

(** The state a sequence of operations leads to. *)
Definition after (ops : list op) (s : state) : state :=
  match run ops s with
  | Done (_, s') => s'
  | _ => s
  end.

(** The key an operation touches: a [Set_] that returns no error touches
    its key, and so does a [Get] that finds its key. *)
Definition touched (o : op) (s : state) : list K :=
  match o with
  | OpSet k v =>
      match Set_ k v s with
      | Done (None, _) => [k]
      | _ => []
      end
  | OpGet k =>
      match Get k s with
      | Done ((Some _, None), _) => [k]
      | _ => []
      end
  | OpTraverse _ _ => []
  end.

(** The keys touched by a sequence of operations, oldest first. *)
Fixpoint history (ops : list op) (s : state) : list K :=
  match ops with
  | [] => []
  | o :: ops' =>
      touched o s ++
      match run_op o s with
      | Done (_, s') => history ops' s'
      | _ => []
      end
  end.

(** Keys in order of their last touch, most recent first. *)
Definition touch (k : K) (r : list K) : list K :=
  k :: filter (λ k', k' ≠ k) r.

Definition recency (hist : list K) : list K :=
  foldl (λ r k, touch k r) [] hist.

(** The keys of [r] that are stored in the index. *)
Definition stored_keys (m : gomap) (r : list K) : list K :=
  filter (λ k, is_Some (m !! k)) r.

(** The least recently touched key among the keys stored in the index. *)
Definition least_recently_touched (hist : list K) (m : gomap) : option K :=
  last (stored_keys m (recency hist)).

(** The keys held by the slots of the recency order, head first. *)
Definition key_order (s : state) : option (list K) :=
  match order s with
  | Some ls => mapM (keyf (heap s)) ls
  | None => None
  end.

(** The order of keys in the store is the order of last touch [r],
    restricted to the stored keys. *)
Definition tracks (s : state) (r : list K) : Prop :=
  NoDup r ∧ key_order s = Some (stored_keys (cacheMap (lruc s)) r).

(** The value the index and the heap hold for a key: what [Get] reads,
    without the promotion. *)
Definition peek (s : state) (k : K) : option V :=
  item ← cacheMap (lruc s) !! k; l ← item; valf (heap s) l.

(** ** The store as a list of entries *)

(** The key and the value held by a slot. *)
Definition entryf (h : gmap nat LRUListNode) (l : loc) : option (K * V) :=
  (λ nd, (key nd, val nd)) <$> h !! l.

(** The entries of the store in recency order, head first. *)
Definition entries (s : state) : option (list (K * V)) :=
  match order s with
  | Some ls => mapM (entryf (heap s)) ls
  | None => None
  end.

(** The operations on a plain list of entries, most recently used
    first: what the store is meant to implement.  Keys are compared as
    Go compares them: a NaN key is equal to no key of the list. *)
Definition lookup_key (k : K) (es : list (K * V)) : option V :=
  if nan k then None else snd <$> head (filter (λ e, e.1 = k) es).

Definition remove_key (k : K) (es : list (K * V)) : list (K * V) :=
  filter (λ e, e.1 ≠ k) es.

Definition list_Get (k : K) (es : list (K * V)) : option V * list (K * V) :=
  match lookup_key k es with
  | Some v => (Some v, (k, v) :: remove_key k es)
  | None => (None, es)
  end.

Definition list_Set (c : Z) (k : K) (v : V) (es : list (K * V)) : list (K * V) :=
  match lookup_key k es with
  | Some _ => (k, v) :: remove_key k es
  | None =>
      if decide (Z.of_nat (length es) < c)%Z then (k, v) :: es
      else (k, v) :: removelast es
  end.

(** The last entry moved to the front: what a failed eviction leaves. *)
Definition list_rotate (es : list (K * V)) : list (K * V) :=
  match last es with
  | Some e => e :: removelast es
  | None => es
  end.

(** The eviction callback, when there is one, on the value [vt]. *)
Definition list_evict (ev : option callback) (vt : V) (w : W) : option E * W :=
  match ev with
  | Some f => f vt w
  | None => (None, w)
  end.

(** One public operation on the list of entries and the world; [None]
    when there is no last entry to evict. *)
Definition list_step (c : Z) (ev : option callback) (o : op)
    (es : list (K * V)) (w : W) : option (list (K * V) * W) :=
  match o with
  | OpSet k v =>
      match lookup_key k es with
      | Some _ => Some (list_Set c k v es, w)
      | None =>
          if decide (Z.of_nat (length es) < c)%Z then Some (list_Set c k v es, w)
          else
            match last es with
            | None => None
            | Some (_, vt) =>
                match list_evict ev vt w with
                | (Some _, w') => Some (list_rotate es, w')
                | (None, w') => Some (list_Set c k v es, w')
                end
            end
      end
  | OpGet k => Some ((list_Get k es).2, w)
  | OpTraverse _ visit => Some (es, (visit_all visit es.*2 w).1.2)
  end.

Fixpoint list_run (c : Z) (ev : option callback) (ops : list op)
    (es : list (K * V)) (w : W) : option (list (K * V) * W) :=
  match ops with
  | [] => Some (es, w)
  | o :: ops' =>
      match list_step c ev o es w with
      | Some (es', w') => list_run c ev ops' es' w'
      | None => None
      end
  end.

(** A computation that allocates no node and frees none. *)
Definition keeps_dom {A} (m : M A) : Prop :=
  ∀ s a s', m s = Done (a, s') → dom (heap s') = dom (heap s).

(** [Set_] of each pair of a list, in order. *)
Definition sets (kvs : list (K * V)) : list op :=
  (λ kv, OpSet kv.1 kv.2) <$> kvs.

(** The eviction callback, if there is one, reports no failure. *)
Definition evict_never_fails (c : LRUList) : Prop :=
  match evict c with
  | Some f => ∀ v w, (f v w).1 = None
  | None => True
  end.

(** * Verification *)

(** ** Field maps under a write *)

Lemma lookup_alter_node f l (h : gmap nat LRUListNode) b :
  alter f l h !! b = if decide (l = b) then f <$> h !! l else h !! b.
Proof. apply lookup_alter. Qed.

Ltac field_alter :=
  intros; unfold nxt, prv, keyf, valf; rewrite lookup_alter_node;
  case_decide; simplify_eq; try done;
  match goal with |- context [?h !! ?l] => by destruct (h !! l) end.

Lemma nxt_set_next h l q b :
  nxt (alter (set_next q) l h) b = if decide (l = b) then (λ _, q) <$> h !! l else nxt h b.
Proof. field_alter. Qed.
Lemma prv_set_prev h l q b :
  prv (alter (set_prev q) l h) b = if decide (l = b) then (λ _, q) <$> h !! l else prv h b.
Proof. field_alter. Qed.
Lemma nxt_keep f h l b : (∀ n, next (f n) = next n) → nxt (alter f l h) b = nxt h b.
Proof.
  intros Hf. unfold nxt. rewrite lookup_alter_node. case_decide; simplify_eq; [|done].
  destruct (h !! b); simpl; by rewrite ?Hf.
Qed.
Lemma prv_keep f h l b : (∀ n, prev (f n) = prev n) → prv (alter f l h) b = prv h b.
Proof.
  intros Hf. unfold prv. rewrite lookup_alter_node. case_decide; simplify_eq; [|done].
  destruct (h !! b); simpl; by rewrite ?Hf.
Qed.
Lemma keyf_keep f h l b : (∀ n, key (f n) = key n) → keyf (alter f l h) b = keyf h b.
Proof.
  intros Hf. unfold keyf. rewrite lookup_alter_node. case_decide; simplify_eq; [|done].
  destruct (h !! b); simpl; by rewrite ?Hf.
Qed.
Lemma valf_keep f h l b : (∀ n, val (f n) = val n) → valf (alter f l h) b = valf h b.
Proof.
  intros Hf. unfold valf. rewrite lookup_alter_node. case_decide; simplify_eq; [|done].
  destruct (h !! b); simpl; by rewrite ?Hf.
Qed.

Lemma nxt_is_Some h a : is_Some (nxt h a) ↔ is_Some (h !! a).
Proof. unfold nxt. by rewrite fmap_is_Some. Qed.
Lemma prv_is_Some h a : is_Some (prv h a) ↔ is_Some (h !! a).
Proof. unfold prv. by rewrite fmap_is_Some. Qed.

Lemma alter_is_Some f l (h : gmap nat LRUListNode) b :
  is_Some (alter f l h !! b) ↔ is_Some (h !! b).
Proof.
  rewrite lookup_alter_node. case_decide; simplify_eq; [|done].
  by rewrite fmap_is_Some.
Qed.

(** ** Segments *)

Lemma linked_alloc_l h a b : linked h a b → is_Some (h !! a).
Proof. intros [Hn _]. apply nxt_is_Some. by rewrite Hn. Qed.
Lemma linked_alloc_r h a b : linked h a b → is_Some (h !! b).
Proof. intros [_ Hp]. apply prv_is_Some. by rewrite Hp. Qed.

Lemma seg_app h l1 l2 f :
  seg h (l1 ++ l2) f ↔ seg h l1 (default f (head l2)) ∧ seg h l2 f.
Proof.
  induction l1 as [|a l1 IH]; simpl; [tauto|].
  rewrite IH. destruct l1 as [|b l1]; simpl; tauto.
Qed.

Lemma seg_alloc h l f a : seg h l f → a ∈ l → is_Some (h !! a).
Proof.
  induction l as [|b l IH]; simpl; [by intros _ ?%elem_of_nil|].
  intros [Hl Hs] [->|Hin]%elem_of_cons; eauto using linked_alloc_l.
Qed.

(** A segment only depends on the [next] of its slots and on the [prev]
    of the slots that follow them. *)
Lemma seg_frame h h' l f :
  seg h l f →
  (∀ a, a ∈ l → nxt h' a = nxt h a) →
  (∀ b, b ∈ tail (l ++ [f]) → prv h' b = prv h b) →
  seg h' l f.
Proof.
  induction l as [|a l IH]; simpl; [done|].
  intros [[Hn Hp] Hs] Hnx Hpv. split.
  - split.
    + rewrite Hnx; [done|]. apply elem_of_cons; by left.
    + rewrite Hpv; [done|]. destruct l; simpl; apply elem_of_cons; by left.
  - apply IH; [done| |].
    + intros b Hb. apply Hnx, elem_of_cons. by right.
    + intros b Hb. apply Hpv. destruct l as [|c l]; simpl in *.
      * by apply elem_of_nil in Hb.
      * apply elem_of_cons. by right.
Qed.

Lemma seg_walk h l f :
  seg h l f →
  walk h (head (l ++ [f])) (length l) = Some l.
Proof.
  induction l as [|a l IH]; simpl; [done|].
  intros [[Hn _] Hs]. unfold nxt in Hn.
  destruct (h !! a) as [nd|]; simplify_eq/=.
  replace (next nd) with (head (l ++ [f])); [by rewrite IH|].
  by destruct l.
Qed.

Lemma nxt_set_next_eq h l q : is_Some (h !! l) → nxt (alter (set_next q) l h) l = Some q.
Proof. intros [nd Hnd]. rewrite nxt_set_next, decide_True, Hnd; done. Qed.
Lemma nxt_set_next_ne h l q b : l ≠ b → nxt (alter (set_next q) l h) b = nxt h b.
Proof. intros. by rewrite nxt_set_next, decide_False. Qed.
Lemma prv_set_prev_eq h l q : is_Some (h !! l) → prv (alter (set_prev q) l h) l = Some q.
Proof. intros [nd Hnd]. rewrite prv_set_prev, decide_True, Hnd; done. Qed.
Lemma prv_set_prev_ne h l q b : l ≠ b → prv (alter (set_prev q) l h) b = prv h b.
Proof. intros. by rewrite prv_set_prev, decide_False. Qed.

(** ** The three rearrangements of the cycle, on the heap *)

Lemma seg_unlink h L1 x L2 p x0 :
  NoDup (L1 ++ x :: L2) →
  head L1 = Some x0 →
  last L1 = Some p →
  seg h (L1 ++ x :: L2) x0 →
  seg (unlink_heap h p (default x0 (head L2))) (L1 ++ L2) x0.
Proof.
  intros Hnd Hhd [L1' ->]%last_Some Hseg.
  rewrite <-app_assoc in Hnd, Hseg. rewrite <-app_assoc. simpl in *.
  apply seg_app in Hseg as (Hs1 & Hpx & Hxn & Hs2); simpl in *.
  set (n := default x0 (head L2)) in *.
  apply NoDup_app in Hnd as (Hnd1 & Hdisj & Hnd2).
  apply NoDup_cons in Hnd2 as [Hp Hnd2]. apply NoDup_cons in Hnd2 as [Hx Hnd2].
  assert (Hap : is_Some (h !! p)) by eauto using linked_alloc_l.
  assert (Han : is_Some (h !! n)) by eauto using linked_alloc_r.
  assert (Hx0n : ∀ b, b ∈ L2 → x0 ≠ b).
  { intros b Hb ->. destruct L1' as [|c L1']; simplify_eq/=.
    - apply Hp. apply elem_of_cons. by right.
    - apply (Hdisj b); [by left|]. apply elem_of_cons; right. apply elem_of_cons; by right. }
  assert (HnL1 : n ∉ tail (L1' ++ [p])).
  { intros Hin. subst n. destruct L2 as [|c L2]; simpl in *.
    - destruct L1' as [|d L1']; simplify_eq/=; [by apply elem_of_nil in Hin|].
      apply NoDup_cons in Hnd1 as [Hd _].
      apply elem_of_app in Hin as [?|Hin]; [done|].
      apply list_elem_of_singleton in Hin as ->.
      apply (Hdisj p); [by left|by left].
    - assert (Hin' : c ∈ L1' ++ [p]).
      { destruct L1'; simpl in *; [by apply elem_of_nil in Hin|].
        apply elem_of_cons; by right. }
      apply elem_of_app in Hin' as [Hin'|Hin'].
      + apply (Hdisj c Hin'). do 2 (apply elem_of_cons; right). by left.
      + apply list_elem_of_singleton in Hin' as ->. apply Hp.
        apply elem_of_cons; right; by left. }
  apply seg_app; simpl. split; [|split].
  - eapply seg_frame; [exact Hs1| |].
    + intros a Ha. unfold unlink_heap.
      rewrite nxt_keep by done. apply nxt_set_next_ne.
      intros ->. apply (Hdisj a Ha). by left.
    + intros b Hb. unfold unlink_heap.
      rewrite prv_set_prev_ne by (by intros ->). by apply prv_keep.
  - fold n. split; unfold unlink_heap.
    + rewrite nxt_keep by done. by apply nxt_set_next_eq.
    + apply prv_set_prev_eq. by apply alter_is_Some.
  - eapply seg_frame; [exact Hs2| |].
    + intros a Ha. unfold unlink_heap.
      rewrite nxt_keep by done. apply nxt_set_next_ne.
      intros ->. apply Hp. apply elem_of_cons; by right.
    + intros b Hb. unfold unlink_heap.
      rewrite prv_set_prev_ne; [by apply prv_keep|].
      intros <-. subst n. destruct L2 as [|c L2]; simpl in *; [by apply elem_of_nil in Hb|].
      apply NoDup_cons in Hnd2 as [Hc _].
      apply elem_of_app in Hb as [?|Hb]; [done|].
      apply list_elem_of_singleton in Hb as ->.
      by apply (Hx0n x0); [left|].
Qed.

Lemma nxt_link_heap_ne h x t x0 b :
  b ≠ x → b ≠ t → nxt (link_heap h x t x0) b = nxt h b.
Proof.
  intros. unfold link_heap.
  rewrite nxt_keep by done. rewrite nxt_set_next_ne by done.
  rewrite nxt_set_next_ne by done. by apply nxt_keep.
Qed.

Lemma prv_link_heap_ne h x t x0 b :
  b ≠ x → b ≠ x0 → prv (link_heap h x t x0) b = prv h b.
Proof.
  intros. unfold link_heap.
  rewrite prv_set_prev_ne by done. rewrite prv_keep by done.
  rewrite prv_keep by done. by apply prv_set_prev_ne.
Qed.

Lemma seg_link h R x t x0 :
  NoDup (R ++ [t]) →
  head (R ++ [t]) = Some x0 →
  x ∉ R ++ [t] →
  is_Some (h !! x) →
  seg h (R ++ [t]) x0 →
  seg (link_heap h x t x0) (x :: R ++ [t]) x.
Proof.
  intros Hnd Hhd Hx Hax Hseg.
  apply seg_app in Hseg as (Hs & Htx0 & _); simpl in *.
  assert (Hat : is_Some (h !! t)) by eauto using linked_alloc_l.
  assert (Hax0 : is_Some (h !! x0)) by eauto using linked_alloc_r.
  assert (Hxt : x ≠ t).
  { intros ->. apply Hx, elem_of_app. right. by left. }
  assert (Hxx0 : x0 ≠ x).
  { intros ->. apply Hx. by apply head_Some_elem_of. }
  apply NoDup_app in Hnd as (Hnd & Hdisj & _).
  rewrite Hhd; simpl. split; [|apply seg_app; simpl; split; [|split; [|done]]].
  - split; unfold link_heap.
    + rewrite nxt_keep, nxt_set_next_ne by done.
      apply nxt_set_next_eq. by apply alter_is_Some.
    + apply prv_set_prev_eq. by do 3 apply alter_is_Some.
  - eapply seg_frame; [exact Hs| |].
    + intros a Ha. apply nxt_link_heap_ne.
      * intros ->. apply Hx, elem_of_app. by left.
      * intros ->. apply (Hdisj t Ha). by left.
    + intros b Hb. apply prv_link_heap_ne.
      * intros ->. apply Hx. destruct R; simpl in *; [by apply elem_of_nil in Hb|].
        apply elem_of_cons. by right.
      * intros ->. destruct R as [|c R]; simplify_eq/=; [by apply elem_of_nil in Hb|].
        apply NoDup_cons in Hnd as [Hc _].
        apply elem_of_app in Hb as [?|Hb]; [done|].
        apply list_elem_of_singleton in Hb as ->.
        apply (Hdisj t); by left.
  - split; unfold link_heap.
    + rewrite nxt_keep by done. apply nxt_set_next_eq. by do 2 apply alter_is_Some.
    + rewrite prv_set_prev_ne by done. rewrite prv_keep by done.
      rewrite prv_keep by done. by apply prv_set_prev_eq.
Qed.

Lemma ring_rotate h R t : ring h (R ++ [t]) → ring h (t :: R).
Proof.
  intros [Hnd Hseg]. split.
  - apply NoDup_app in Hnd as (Hnd & Hdisj & _).
    apply NoDup_cons. split; [|done].
    intros Ht. apply (Hdisj t Ht). by left.
  - destruct R as [|a R]; simpl in *; [done|].
    destruct Hseg as [Ha Hseg]. apply seg_app in Hseg as (Hs & Ht & _); simpl in *.
    split; [done|]. split; [|done].
    destruct R; simpl in *; done.
Qed.

(** ** Running the primitives *)

Lemma assign_run s l f :
  is_Some (heap s !! l) →
  assign (Some l) f s = Done ((), with_heap s (alter f l (heap s))).
Proof. intros [nd Hnd]. unfold assign. by rewrite Hnd. Qed.

Lemma deref_run s l nd : heap s !! l = Some nd → deref (Some l) s = Done (nd, s).
Proof. intros Hnd. unfold deref. by rewrite Hnd. Qed.

Lemma bind_run {A B} (m : M A) (k : A → M B) s a s' :
  m s = Done (a, s') → bind m k s = k a s'.
Proof. intros Hm. unfold bind. by rewrite Hm. Qed.

Lemma bind_assign {B} s l f (k : unit → M B) :
  is_Some (heap s !! l) →
  bind (assign (Some l) f) k s = k () (with_heap s (alter f l (heap s))).
Proof. intros Hl. apply bind_run. by apply assign_run. Qed.

Lemma bind_deref {B} s l nd (k : LRUListNode → M B) :
  heap s !! l = Some nd → bind (deref (Some l)) k s = k nd s.
Proof. intros Hl. apply bind_run. by apply deref_run. Qed.

Lemma bind_get_lruc {B} s (k : LRUList → M B) : bind get_lruc k s = k (lruc s) s.
Proof. done. Qed.

Lemma bind_set_cache {B} s p (k : unit → M B) :
  bind (set_cache p) k s = k () (with_cache s p).
Proof. done. Qed.

Lemma bind_set_cacheMap {B} s m (k : unit → M B) :
  bind (set_cacheMap m) k s = k () (with_cacheMap s m).
Proof. done. Qed.

Lemma bind_call {B} tag f v (k : option E → M B) s :
  bind (call tag f v) k s
  = k (f v (world s)).1
      (mkState (heap s) (lruc s) (f v (world s)).2 (log s ++ [tag v])).
Proof. unfold bind, call. by destruct (f v (world s)). Qed.

Lemma bind_ret {A B} (a : A) (k : A → M B) s : bind (ret a) k s = k a s.
Proof. done. Qed.

Lemma bind_bind {A B C} (m : M A) (k : A → M B) (k' : B → M C) s :
  bind (bind m k) k' s = bind m (λ a, bind (k a) k') s.
Proof. unfold bind. destruct (m s) as [[a s']| |]; done. Qed.

Lemma unlink_run s x p n :
  prv (heap s) x = Some (Some p) →
  nxt (heap s) x = Some (Some n) →
  is_Some (heap s !! p) →
  is_Some (heap s !! n) →
  unlink (Some x) s = Done ((), with_heap s (unlink_heap (heap s) p n)).
Proof.
  intros Hp Hn Hap Han. unfold unlink, prv, nxt in *.
  destruct (heap s !! x) as [nd|] eqn:Hx; [|done].
  injection Hp as Hp. injection Hn as Hn.
  rewrite (bind_deref _ _ _ _ Hx), Hp, Hn.
  rewrite bind_assign by done.
  rewrite assign_run by (by apply alter_is_Some). done.
Qed.

Lemma link_before_head_run s x t x0 :
  cache (lruc s) = Some x0 →
  prv (heap s) x0 = Some (Some t) →
  is_Some (heap s !! x) →
  is_Some (heap s !! t) →
  x ≠ x0 →
  link_before_head (Some x) s
  = Done ((), with_heap s (link_heap (heap s) x t x0)).
Proof.
  intros Hc Hpv Hax Hat Hne. unfold link_before_head, prv in *.
  destruct (heap s !! x0) as [hd|] eqn:Hx0; [|done].
  injection Hpv as Hpv.
  rewrite bind_get_lruc, Hc.
  rewrite (bind_deref _ _ _ _ Hx0), Hpv.
  rewrite bind_assign by done.
  rewrite bind_assign by (by apply alter_is_Some).
  rewrite bind_get_lruc; simpl. rewrite Hc.
  rewrite (bind_deref _ _ hd); last first.
  { simpl. by rewrite !lookup_alter_ne. }
  rewrite Hpv.
  rewrite bind_assign by (by do 2 apply alter_is_Some).
  rewrite assign_run; [done|]. simpl. do 3 apply alter_is_Some. by rewrite Hx0.
Qed.

(** ** The index *)

Lemma gomap_lookup_unfold (m : gomap) k :
  m !! k = if nan k then None else found m !! k.
Proof. done. Qed.

Lemma gomap_insert_unfold (m : gomap) k p :
  <[k := p]> m = if nan k then GoMap (found m) ((k, p) :: lost m)
                 else GoMap (<[k := p]> (found m)) (lost m).
Proof. done. Qed.

Lemma gomap_delete_unfold (m : gomap) k :
  delete k m = if nan k then m else GoMap (delete k (found m)) (lost m).
Proof. done. Qed.

Lemma gomap_size_unfold (m : gomap) : size m = size (found m) + length (lost m).
Proof. done. Qed.

(** A NaN key is never found; a key that is found equals itself. *)
Lemma gomap_lookup_nan (m : gomap) k : nan k = true → m !! k = None.
Proof. intros Hk. by rewrite gomap_lookup_unfold, Hk. Qed.

Lemma gomap_lookup_Some (m : gomap) k p : m !! k = Some p → nan k = false.
Proof. rewrite gomap_lookup_unfold. by destruct (nan k). Qed.

Lemma gomap_lookup_empty k : (∅ : gomap) !! k = None.
Proof. rewrite gomap_lookup_unfold. by destruct (nan k). Qed.

Lemma gomap_size_empty : size (∅ : gomap) = 0.
Proof. done. Qed.

Lemma gomap_lookup_insert_eq (m : gomap) k p :
  nan k = false → <[k := p]> m !! k = Some p.
Proof.
  intros Hk. rewrite gomap_lookup_unfold, gomap_insert_unfold, Hk. simpl.
  apply lookup_insert_eq.
Qed.

Lemma gomap_lookup_insert_ne (m : gomap) k k' p :
  k ≠ k' → <[k := p]> m !! k' = m !! k'.
Proof.
  intros Hne. rewrite !gomap_lookup_unfold, gomap_insert_unfold.
  destruct (nan k'); [done|]. destruct (nan k); simpl; [done|].
  by apply lookup_insert_ne.
Qed.

(** Storing under a NaN key changes what no key finds. *)
Lemma gomap_lookup_insert_nan (m : gomap) k k' p :
  nan k = true → <[k := p]> m !! k' = m !! k'.
Proof.
  intros Hk. rewrite !gomap_lookup_unfold, gomap_insert_unfold, Hk.
  by destruct (nan k').
Qed.

Lemma gomap_lookup_insert_Some (m : gomap) k p k' q :
  <[k := p]> m !! k' = Some q ↔
  (k = k' ∧ nan k = false ∧ p = q) ∨ (k ≠ k' ∧ m !! k' = Some q).
Proof.
  destruct (decide (k = k')) as [<-|Hne].
  - destruct (nan k) eqn:Hk.
    + rewrite gomap_lookup_nan by done.
      split; [done|]. by intros [(_ & ? & _)|[? _]].
    + rewrite gomap_lookup_insert_eq by done. split.
      * intros [= ->]. by left.
      * by intros [(_ & _ & ->)|[? _]].
  - rewrite gomap_lookup_insert_ne by done. split.
    + intros. by right.
    + by intros [[? _]|[_ ?]].
Qed.

Lemma gomap_lookup_delete_eq (m : gomap) k : delete k m !! k = None.
Proof.
  rewrite gomap_lookup_unfold, gomap_delete_unfold.
  destruct (nan k); [done|]. simpl. apply lookup_delete_eq.
Qed.

Lemma gomap_lookup_delete_ne (m : gomap) k k' :
  k ≠ k' → delete k m !! k' = m !! k'.
Proof.
  intros Hne. rewrite !gomap_lookup_unfold, gomap_delete_unfold.
  destruct (nan k'); [done|]. destruct (nan k); simpl; [done|].
  by apply lookup_delete_ne.
Qed.

Lemma gomap_lookup_delete_Some (m : gomap) k k' p :
  delete k m !! k' = Some p ↔ k ≠ k' ∧ m !! k' = Some p.
Proof.
  destruct (decide (k = k')) as [<-|Hne].
  - rewrite gomap_lookup_delete_eq. split; [done|]. by intros [? _].
  - rewrite gomap_lookup_delete_ne by done. split; [done|]. by intros [_ ?].
Qed.

(** Deleting a NaN key removes nothing. *)
Lemma gomap_delete_nan (m : gomap) k : nan k = true → delete k m = m.
Proof. intros Hk. by rewrite gomap_delete_unfold, Hk. Qed.

Lemma gomap_size_insert (m : gomap) k p :
  m !! k = None → size (<[k := p]> m) = S (size m).
Proof.
  rewrite gomap_lookup_unfold, gomap_insert_unfold, !gomap_size_unfold.
  destruct (nan k); simpl; intros Hk; [lia|].
  rewrite map_size_insert_None by done. lia.
Qed.

Lemma gomap_size_delete_Some (m : gomap) k p :
  m !! k = Some p → S (size (delete k m)) = size m.
Proof.
  rewrite gomap_lookup_unfold, gomap_delete_unfold, !gomap_size_unfold.
  destruct (nan k); simpl; intros Hk; [done|].
  rewrite map_size_delete_Some by (by rewrite Hk).
  assert (size (found m) ≠ 0); [|lia].
  intros Hz. apply map_size_empty_inv in Hz. by rewrite Hz in Hk.
Qed.

Lemma gomap_size_delete (m : gomap) k :
  size m ≤ S (size (delete k m)) ∧ size (delete k m) ≤ size m.
Proof.
  rewrite gomap_delete_unfold. destruct (nan k); [lia|].
  rewrite !gomap_size_unfold. simpl.
  destruct (found m !! k) as [p|] eqn:Hk.
  - rewrite map_size_delete_Some by (by rewrite Hk). lia.
  - rewrite map_size_delete_None by done. lia.
Qed.

(** ** The invariant with keys of any kind *)

Lemma keyf_unlink_heap h p n b : keyf (unlink_heap h p n) b = keyf h b.
Proof. unfold unlink_heap. by rewrite !keyf_keep. Qed.
Lemma valf_unlink_heap h p n b : valf (unlink_heap h p n) b = valf h b.
Proof. unfold unlink_heap. by rewrite !valf_keep. Qed.
Lemma keyf_link_heap h x t x0 b : keyf (link_heap h x t x0) b = keyf h b.
Proof. unfold link_heap. by rewrite !keyf_keep. Qed.
Lemma valf_link_heap h x t x0 b : valf (link_heap h x t x0) b = valf h b.
Proof. unfold link_heap. by rewrite !valf_keep. Qed.

Lemma co_lookup s ls k item :
  Coherent_at s ls →
  cacheMap (lruc s) !! k = Some item →
  ∃ l, item = Some l ∧ l ∈ ls ∧ keyf (heap s) l = Some k.
Proof.
  intros Hco Hk. apply (co_index _ _ Hco) in Hk.
  destruct item as [l|]; [|done]. by exists l.
Qed.

Lemma co_slot s ls l :
  Coherent_at s ls → l ∈ ls →
  ∃ k, keyf (heap s) l = Some k ∧
       (nan k = false → cacheMap (lruc s) !! k = Some (Some l)).
Proof.
  intros Hco Hl. pose proof (co_slots _ _ Hco) as Hs.
  rewrite Forall_forall in Hs. specialize (Hs l Hl). unfold slot_keyed in Hs.
  destruct (keyf (heap s) l) as [k|]; [|done]. by exists k.
Qed.

Lemma co_alloc s ls l : Coherent_at s ls → l ∈ ls → is_Some (heap s !! l).
Proof. intros Hco Hl. destruct (co_ring _ _ Hco). eauto using seg_alloc. Qed.

Lemma co_slot_fields s ls l :
  Coherent_at s ls → l ∈ ls →
  ∃ k v, keyf (heap s) l = Some k ∧ valf (heap s) l = Some v ∧
         (nan k = false → cacheMap (lruc s) !! k = Some (Some l)).
Proof.
  intros Hco Hl. destruct (co_slot _ _ _ Hco Hl) as (k & Hk & Hm).
  destruct (co_alloc _ _ _ Hco Hl) as [nd Hnd].
  exists k, (val nd). split_and!; [done| |done]. unfold valf. by rewrite Hnd.
Qed.

Lemma slots_transfer s s' ls ls' :
  (∀ b, keyf (heap s') b = keyf (heap s) b) →
  cacheMap (lruc s') = cacheMap (lruc s) →
  (∀ b, b ∈ ls' → b ∈ ls) →
  Forall (slot_keyed s) ls → Forall (slot_keyed s') ls'.
Proof.
  intros Hk Hm Hin. rewrite !Forall_forall. intros Hs b Hb.
  unfold slot_keyed. rewrite Hk, Hm. by apply Hs, Hin.
Qed.

Lemma index_transfer s s' ls ls' :
  (∀ b, keyf (heap s') b = keyf (heap s) b) →
  cacheMap (lruc s') = cacheMap (lruc s) →
  (∀ b, b ∈ ls → b ∈ ls') →
  map_Forall (key_slotted s ls) (cacheMap (lruc s)) →
  map_Forall (key_slotted s' ls') (cacheMap (lruc s')).
Proof.
  intros Hk Hm Hin Hs k p Hp. rewrite Hm in Hp. specialize (Hs k p Hp).
  destruct p as [l|]; [|done]. simpl in *. rewrite Hk. destruct Hs. eauto.
Qed.

Lemma seg_neighbours h L1 x L2 x0 p :
  last L1 = Some p →
  seg h (L1 ++ x :: L2) x0 →
  linked h p x ∧ linked h x (default x0 (head L2)).
Proof.
  intros [L ->]%last_Some. rewrite <-app_assoc. simpl.
  intros (_ & Hp & Hx & _)%seg_app. done.
Qed.

(** Moving a slot that is not the head to the head: the order
    [L1 ++ l :: L2] becomes [l :: L1 ++ L2]; keys and values stay. *)
Lemma move_to_head_spec s L1 l L2 :
  Coherent_at s (L1 ++ l :: L2) →
  L1 ≠ [] →
  ∃ h',
    move_to_head (Some l) s = Done ((), with_cache (with_heap s h') (Some l)) ∧
    Coherent_at (with_cache (with_heap s h') (Some l)) (l :: L1 ++ L2) ∧
    (∀ b, keyf h' b = keyf (heap s) b) ∧
    (∀ b, valf h' b = valf (heap s) b).
Proof.
  intros [Hlen Hnil Hhd [Hnd Hseg] Hslots Hidx] HL1.
  destruct (head L1) as [x0|] eqn:Hx0; [|by apply head_None in Hx0].
  destruct (last L1) as [p|] eqn:Hp; [|by apply last_None in Hp].
  rewrite head_app, Hx0 in Hhd, Hseg. simpl in Hseg.
  set (n := default x0 (head L2)).
  destruct (seg_neighbours _ _ _ _ _ _ Hp Hseg) as [Hpl Hln]. fold n in Hln.
  pose proof (seg_unlink _ _ _ _ _ _ Hnd Hx0 Hp Hseg) as Hseg1. fold n in Hseg1.
  set (h1 := unlink_heap (heap s) p n) in *.
  assert (Hlast : is_Some (last (L1 ++ L2))).
  { apply last_is_Some. by destruct L1. }
  destruct Hlast as [t [R HR]%last_Some].
  assert (Hnd' : NoDup (l :: L1 ++ L2)).
  { apply NoDup_app in Hnd as (Hnd1 & Hdisj & [Hl Hnd2]%NoDup_cons).
    apply NoDup_cons. split.
    - intros [Hin|Hin]%elem_of_app; [|done]. apply (Hdisj l Hin). by left.
    - apply NoDup_app. split_and!; [done| |done].
      intros b Hb1 Hb2. apply (Hdisj b Hb1). by right. }
  apply NoDup_cons in Hnd' as [Hl Hnd'].
  assert (Hhd1 : head (L1 ++ L2) = Some x0) by (by rewrite head_app, Hx0).
  assert (Hal : is_Some (h1 !! l)).
  { do 2 apply alter_is_Some. eauto using linked_alloc_r. }
  rewrite HR in Hl, Hnd', Hhd1, Hseg1.
  pose proof (seg_link _ _ _ _ _ Hnd' Hhd1 Hl Hal Hseg1) as Hseg2.
  assert (Htx0 : linked h1 t x0).
  { by apply seg_app in Hseg1 as (_ & ? & _). }
  assert (Hlx0 : l ≠ x0).
  { intros ->. apply Hl. by apply head_Some_elem_of. }
  exists (link_heap h1 l t x0). split_and!.
  - unfold move_to_head.
    rewrite (bind_run _ _ _ _ _ (unlink_run s l p n (proj2 Hpl) (proj1 Hln)
      (linked_alloc_l _ _ _ Hpl) (linked_alloc_r _ _ _ Hln))).
    rewrite (bind_run _ _ _ () (with_heap s (link_heap h1 l t x0))); [done|].
    apply (link_before_head_run (with_heap s h1)); simpl;
      [done|by destruct Htx0|done|eauto using linked_alloc_l|done].
  - split.
    + simpl in *. rewrite length_app in *. simpl in *. lia.
    + done.
    + done.
    + simpl. split; [|by rewrite HR]. apply NoDup_cons. by rewrite HR.
    + apply (slots_transfer s _ (L1 ++ l :: L2)); simpl; [|done| |done].
      * intros b. unfold h1. by rewrite keyf_link_heap, keyf_unlink_heap.
      * intros b. rewrite !elem_of_cons, !elem_of_app, elem_of_cons. tauto.
    + apply (index_transfer s _ (L1 ++ l :: L2)); simpl; [|done| |done].
      * intros b. unfold h1. by rewrite keyf_link_heap, keyf_unlink_heap.
      * intros b. rewrite !elem_of_cons, !elem_of_app, elem_of_cons. tauto.
  - intros b. unfold h1. by rewrite keyf_link_heap, keyf_unlink_heap.
  - intros b. unfold h1. by rewrite valf_link_heap, valf_unlink_heap.
Qed.

Lemma filter_ne_fresh {A} `{EqDecision A} (l : A) (ls : list A) :
  l ∉ ls → filter (λ b, b ≠ l) ls = ls.
Proof.
  induction ls as [|a ls IH]; [done|].
  intros [Ha Hl]%not_elem_of_cons.
  rewrite filter_cons_True by done. by rewrite IH.
Qed.

Lemma promote_split {A} `{EqDecision A} (l : A) (L1 L2 : list A) :
  NoDup (L1 ++ l :: L2) → promote l (L1 ++ l :: L2) = l :: L1 ++ L2.
Proof.
  intros (_ & Hdisj & [Hl _]%NoDup_cons)%NoDup_app. unfold promote. f_equal.
  rewrite filter_app, filter_cons_False by (by intros ?).
  rewrite !filter_ne_fresh; [done..|].
  intros Hin. apply (Hdisj l Hin). by left.
Qed.

Lemma promote_elem {A} `{EqDecision A} (x y : A) l :
  x ∈ l → (y ∈ promote x l ↔ y ∈ l).
Proof.
  intros Hx. unfold promote. rewrite elem_of_cons, list_elem_of_filter.
  split.
  - intros [->|[_ ?]]; done.
  - intros Hy. destruct (decide (y = x)) as [->|Hne]; [by left|by right].
Qed.

Lemma promote_length {A} `{EqDecision A} (x : A) l :
  NoDup l → x ∈ l → length (promote x l) = length l.
Proof.
  intros Hnd (L1 & L2 & ->)%list_elem_of_split.
  rewrite promote_split by done. simpl. rewrite !length_app. simpl. lia.
Qed.

(** The guarded promotion shared by [Set_] (lines 42-49) and [Get]
    (lines 97-104). *)
Lemma promotion_spec s ls l :
  Coherent_at s ls →
  l ∈ ls →
  ∃ s',
    (if decide (Some l = cache (lruc s)) then ret () else move_to_head (Some l)) s
      = Done ((), s') ∧
    Coherent_at s' (promote l ls) ∧
    cache (lruc s') = Some l ∧
    same_entries s s' ∧
    (cache (lruc s) = Some l → s' = s).
Proof.
  intros Hco Hl. case_decide as Hc.
  - exists s. split_and!; [done| |done|done|done].
    destruct ls as [|a ls]; [by apply elem_of_nil in Hl|].
    rewrite (co_head _ _ Hco) in Hc. simplify_eq/=.
    unfold promote. rewrite filter_cons_False by (by intros ?).
    rewrite filter_ne_fresh; [done|].
    by destruct (co_ring _ _ Hco) as [[? _]%NoDup_cons _].
  - apply list_elem_of_split in Hl as (L1 & L2 & ->).
    assert (HL1 : L1 ≠ []).
    { intros ->. apply Hc. by rewrite (co_head _ _ Hco). }
    destruct (move_to_head_spec s L1 l L2 Hco HL1) as (h' & Hrun & Hco' & Hk & Hv).
    eexists. split_and!; [exact Hrun| |done|by split|congruence].
    rewrite promote_split; [done|]. by destruct (co_ring _ _ Hco).
Qed.

(** Writes that leave [prev], [next] and [key] of every slot alone keep
    the invariant. *)
Lemma co_heap_frame s h' ls :
  Coherent_at s ls →
  (∀ b, nxt h' b = nxt (heap s) b) →
  (∀ b, prv h' b = prv (heap s) b) →
  (∀ b, keyf h' b = keyf (heap s) b) →
  Coherent_at (with_heap s h') ls.
Proof.
  intros [Hlen Hnil Hhd [Hnd Hseg] Hslots Hidx] Hn Hp Hk. split.
  - done.
  - done.
  - done.
  - split; [done|]. simpl. eapply seg_frame; eauto.
  - by apply (slots_transfer s _ ls).
  - by apply (index_transfer s _ ls).
Qed.

Lemma co_ext s s' ls :
  heap s' = heap s → lruc s' = lruc s → Coherent_at s ls → Coherent_at s' ls.
Proof.
  destruct s, s'; simpl; intros -> -> [Hlen Hnil Hhd Hring Hslots Hidx].
  split; done.
Qed.

(** ** Get *)

Lemma Get_miss s k :
  cacheMap (lruc s) !! k = None →
  Get k s = Done ((None, Some (Errorf "key doesn't hit")), s).
Proof. intros Hk. unfold Get. by rewrite bind_get_lruc, Hk. Qed.

Lemma co_Get_hit s ls k l :
  Coherent_at s ls →
  cacheMap (lruc s) !! k = Some (Some l) →
  ∃ v s',
    Get k s = Done ((Some v, None), s') ∧
    valf (heap s) l = Some v ∧
    Coherent_at s' (promote l ls) ∧
    cache (lruc s') = Some l ∧
    same_entries s s' ∧
    (cache (lruc s) = Some l → s' = s).
Proof.
  intros Hco Hk.
  destruct (co_lookup _ _ _ _ Hco Hk) as (l' & [= <-] & Hl & Hkey).
  destruct (promotion_spec s ls l Hco Hl) as (s' & Hrun & Hco' & Hc & Hsame & Hid).
  destruct (co_alloc s' (promote l ls) l Hco') as [nd Hnd]; [by left|].
  exists (val nd), s'. split_and!; try done.
  - unfold Get. rewrite bind_get_lruc, Hk.
    rewrite (bind_run _ _ _ _ _ Hrun), bind_get_lruc, Hc.
    by rewrite (bind_deref _ _ _ _ Hnd).
  - rewrite <-(same_valf _ _ Hsame). unfold valf. by rewrite Hnd.
Qed.

(** ** Set on a key that is present (lines 40-51) *)

Lemma co_Set_present s ls k v l :
  Coherent_at s ls →
  cacheMap (lruc s) !! k = Some (Some l) →
  ∃ s',
    Set_ k v s = Done (None, s') ∧
    Coherent_at s' (promote l ls) ∧
    cache (lruc s') = Some l ∧
    lruc s' = mkLRUList (cap (lruc s)) (cacheMap (lruc s)) (Some l) (evict (lruc s)) ∧
    world s' = world s ∧
    log s' = log s ∧
    (∀ b, keyf (heap s') b = keyf (heap s) b) ∧
    valf (heap s') l = Some v ∧
    (∀ b, b ≠ l → valf (heap s') b = valf (heap s) b).
Proof.
  intros Hco Hk.
  destruct (co_lookup _ _ _ _ Hco Hk) as (l' & [= <-] & Hl & Hkey).
  destruct (promotion_spec s ls l Hco Hl) as (s' & Hrun & Hco' & Hc & Hsame & Hid).
  assert (Hal : is_Some (heap s' !! l)).
  { apply (co_alloc s' (promote l ls) l Hco'). by left. }
  exists (with_heap s' (alter (set_val v) l (heap s'))). split_and!; simpl.
  - unfold Set_. rewrite bind_get_lruc, Hk.
    rewrite (bind_run _ _ _ _ _ Hrun), bind_get_lruc, Hc.
    by rewrite bind_assign.
  - apply co_heap_frame; [done|intros b..].
    + by apply nxt_keep.
    + by apply prv_keep.
    + by apply keyf_keep.
  - done.
  - destruct Hsame as [Hcap Hm Hev _ _ _ _]. destruct (lruc s'); simpl in *.
    by subst.
  - apply Hsame.
  - apply Hsame.
  - intros b. rewrite keyf_keep by done. apply Hsame.
  - unfold valf. rewrite lookup_alter_eq. destruct Hal as [nd ->]. done.
  - intros b Hb. unfold valf. rewrite lookup_alter_ne by done. apply Hsame.
Qed.

(** ** Set on an absent key, below capacity (lines 53-67) *)

Lemma nxt_insert_ne (h : gmap nat LRUListNode) x nd b :
  b ≠ x → nxt (<[x := nd]> h) b = nxt h b.
Proof. intros. unfold nxt. by rewrite lookup_insert_ne. Qed.
Lemma prv_insert_ne (h : gmap nat LRUListNode) x nd b :
  b ≠ x → prv (<[x := nd]> h) b = prv h b.
Proof. intros. unfold prv. by rewrite lookup_insert_ne. Qed.
Lemma keyf_insert_ne (h : gmap nat LRUListNode) x nd b :
  b ≠ x → keyf (<[x := nd]> h) b = keyf h b.
Proof. intros. unfold keyf. by rewrite lookup_insert_ne. Qed.
Lemma valf_insert_ne (h : gmap nat LRUListNode) x nd b :
  b ≠ x → valf (<[x := nd]> h) b = valf h b.
Proof. intros. unfold valf. by rewrite lookup_insert_ne. Qed.

Lemma fresh_unalloc (h : gmap nat LRUListNode) : h !! fresh (dom h) = None.
Proof. apply not_elem_of_dom, is_fresh. Qed.

Lemma co_fresh_not_slot s ls : Coherent_at s ls → fresh (dom (heap s)) ∉ ls.
Proof.
  intros Hco Hin. apply (co_alloc _ _ _ Hco) in Hin as [nd Hnd].
  by rewrite fresh_unalloc in Hnd.
Qed.

(** The index part of the invariant after a new slot [x] holding [k] is
    put in front. *)
Lemma co_index_insert s s' ls x k :
  Coherent_at s ls →
  x ∉ ls →
  cacheMap (lruc s) !! k = None →
  cacheMap (lruc s') = <[k := Some x]> (cacheMap (lruc s)) →
  keyf (heap s') x = Some k →
  (∀ b, b ≠ x → keyf (heap s') b = keyf (heap s) b) →
  length (x :: ls) ≤ size (cacheMap (lruc s')) ∧
  Forall (slot_keyed s') (x :: ls) ∧
  map_Forall (key_slotted s' (x :: ls)) (cacheMap (lruc s')).
Proof.
  intros Hco Hx Hk Hm Hkx Hkeep. split_and!.
  - rewrite Hm, gomap_size_insert by done. simpl.
    pose proof (co_len _ _ Hco). lia.
  - apply Forall_cons. split.
    + unfold slot_keyed. rewrite Hkx, Hm. apply gomap_lookup_insert_eq.
    + apply Forall_forall. intros b Hb.
      destruct (co_slot _ _ _ Hco Hb) as (kb & Hkb & Hmb).
      assert (b ≠ x) by (by intros ->).
      unfold slot_keyed. rewrite Hkeep, Hkb, Hm by done. intros Hnan.
      rewrite gomap_lookup_insert_ne; [by apply Hmb|].
      intros ->. rewrite Hmb in Hk; done.
  - rewrite Hm. intros k' p [(<- & _ & <-)|[Hne Hp]]%gomap_lookup_insert_Some.
    + simpl. split; [by left|done].
    + destruct (co_lookup _ _ _ _ Hco Hp) as (l & -> & Hl & Hkl). simpl.
      split; [by right|]. rewrite Hkeep; [done|]. by intros ->.
Qed.

Lemma co_Set_insert s ls k v :
  Coherent_at s ls →
  cacheMap (lruc s) !! k = None →
  (Z.of_nat (size (cacheMap (lruc s))) < cap (lruc s))%Z →
  let x := fresh (dom (heap s)) in
  ∃ s',
    Set_ k v s = Done (None, s') ∧
    Coherent_at s' (x :: ls) ∧
    lruc s' = mkLRUList (cap (lruc s)) (<[k := Some x]> (cacheMap (lruc s)))
                        (Some x) (evict (lruc s)) ∧
    world s' = world s ∧
    log s' = log s ∧
    keyf (heap s') x = Some k ∧
    valf (heap s') x = Some v ∧
    (∀ b, b ≠ x → keyf (heap s') b = keyf (heap s) b) ∧
    (∀ b, b ≠ x → valf (heap s') b = valf (heap s) b).
Proof.
  intros Hco Hk Hcap x.
  pose proof (co_fresh_not_slot _ _ Hco) as Hx. fold x in Hx.
  set (h1 := <[x := mkNode k v None None]> (heap s)).
  set (m' := <[k := Some x]> (cacheMap (lruc s))).
  assert (Hax : is_Some (h1 !! x)) by (unfold h1; by rewrite lookup_insert_eq).
  assert (Hstart :
    Set_ k v s =
    ((match cache (lruc s) with
      | None => assign (Some x) (set_prev (Some x)) ;;;
                assign (Some x) (set_next (Some x))
      | Some _ => link_before_head (Some x)
      end) ;;; set_cache (Some x) ;;; ret None)
      (with_cacheMap (with_heap s h1) m')).
  { unfold Set_. rewrite bind_get_lruc, Hk.
    rewrite decide_True by done. done. }
  destruct ls as [|x0 R0] eqn:Hls.
  - (* the list is empty *)
    pose proof (co_head _ _ Hco) as Hc. simpl in Hc.
    set (h3 := alter (set_next (Some x)) x (alter (set_prev (Some x)) x h1)).
    exists (with_cache (with_cacheMap (with_heap s h3) m') (Some x)).
    assert (Hkx : keyf h3 x = Some k).
    { unfold h3. rewrite !keyf_keep by done. unfold keyf, h1.
      by rewrite lookup_insert_eq. }
    assert (Hkeep : ∀ b, b ≠ x → keyf h3 b = keyf (heap s) b).
    { intros b Hb. unfold h3. rewrite !keyf_keep by done. by apply keyf_insert_ne. }
    destruct (co_index_insert s (with_cache (with_cacheMap (with_heap s h3) m') (Some x))
                [] x k Hco Hx Hk eq_refl Hkx Hkeep) as (Hlen & Hslots & Hidx).
    split_and!; try done.
    + rewrite Hstart, Hc, bind_bind.
      rewrite bind_assign by done. rewrite bind_assign by (by apply alter_is_Some).
      done.
    + split; try done. split; [apply NoDup_singleton|]. simpl. split; [|done].
      split; unfold h3.
      * apply nxt_set_next_eq. by apply alter_is_Some.
      * rewrite prv_keep by done. by apply prv_set_prev_eq.
    + simpl. unfold h3. rewrite !valf_keep by done. unfold valf, h1.
      by rewrite lookup_insert_eq.
    + intros b Hb. simpl. unfold h3. rewrite !valf_keep by done.
      by apply valf_insert_ne.
  - (* the list has a head [x0] and a tail [t] *)
    rewrite <-Hls in *.
    pose proof (co_head _ _ Hco) as Hc. rewrite Hls in Hc. simpl in Hc.
    destruct (co_ring _ _ Hco) as [Hnd Hseg].
    assert (Hlast : is_Some (last ls)) by (apply last_is_Some; by rewrite Hls).
    destruct Hlast as [t [R HR]%last_Some].
    assert (Hhd : head ls = Some x0) by (by rewrite Hls).
    rewrite Hhd in Hseg. simpl in Hseg.
    assert (Htx0 : linked (heap s) t x0).
    { rewrite HR in Hseg. by apply seg_app in Hseg as (_ & ? & _). }
    assert (Hxx0 : x ≠ x0).
    { intros Heq. apply Hx. rewrite Heq, Hls. by left. }
    assert (Hxt : x ≠ t).
    { intros Heq. apply Hx. rewrite Heq, HR. apply elem_of_app. right. by left. }
    assert (Hseg1 : seg h1 ls x0).
    { eapply seg_frame; [exact Hseg| |].
      - intros a Ha. apply nxt_insert_ne. by intros ->.
      - intros b Hb. apply prv_insert_ne. intros ->.
        rewrite Hls in Hb. simpl in Hb.
        apply elem_of_app in Hb as [Hb|Hb%list_elem_of_singleton]; [|done].
        apply Hx. rewrite Hls. by right. }
    set (h3 := link_heap h1 x t x0).
    exists (with_cache (with_cacheMap (with_heap s h3) m') (Some x)).
    assert (Hkx : keyf h3 x = Some k).
    { unfold h3. rewrite keyf_link_heap. unfold keyf, h1.
      by rewrite lookup_insert_eq. }
    assert (Hkeep : ∀ b, b ≠ x → keyf h3 b = keyf (heap s) b).
    { intros b Hb. unfold h3. rewrite keyf_link_heap. by apply keyf_insert_ne. }
    destruct (co_index_insert s (with_cache (with_cacheMap (with_heap s h3) m') (Some x))
                ls x k Hco Hx Hk eq_refl Hkx Hkeep) as (Hlen & Hslots & Hidx).
    split_and!; try done.
    + rewrite Hstart, Hc.
      rewrite (bind_run _ _ _ () (with_cacheMap (with_heap s h3) m')); [done|].
      apply (link_before_head_run (with_cacheMap (with_heap s h1) m') x t x0);
        simpl; [done| |done| |done].
      * unfold h1. rewrite prv_insert_ne by done. by destruct Htx0.
      * unfold h1. rewrite lookup_insert_ne by done. eauto using linked_alloc_l.
    + split; try done. simpl. split; [by apply NoDup_cons|].
      rewrite HR. apply seg_link; rewrite <-?HR; done.
    + simpl. unfold h3. rewrite valf_link_heap. unfold valf, h1.
      by rewrite lookup_insert_eq.
    + intros b Hb. simpl. unfold h3. rewrite valf_link_heap.
      by apply valf_insert_ne.
Qed.

(** ** Set on an absent key, at capacity (lines 68-85) *)

(** [lruc.cache = lruc.cache.prev]: the tail becomes the head. *)
Lemma co_rotate s R t :
  Coherent_at s (R ++ [t]) → Coherent_at (with_cache s (Some t)) (t :: R).
Proof.
  intros [Hlen Hnil Hhd Hring Hslots Hidx]. split.
  - simpl in *. rewrite length_app in Hlen. simpl in *. lia.
  - done.
  - done.
  - by apply ring_rotate.
  - apply (slots_transfer s _ (R ++ [t])); simpl; [done..| |done].
    intros b. rewrite elem_of_cons, elem_of_app, list_elem_of_singleton. tauto.
  - apply (index_transfer s _ (R ++ [t])); simpl; [done..| |done].
    intros b. rewrite elem_of_cons, elem_of_app, list_elem_of_singleton. tauto.
Qed.

Lemma co_tail_prev s R t :
  Coherent_at s (R ++ [t]) →
  ∃ x0, cache (lruc s) = Some x0 ∧ prv (heap s) x0 = Some (Some t).
Proof.
  intros [_ _ Hhd [_ Hseg] _ _].
  destruct (head (R ++ [t])) as [x0|] eqn:Hx0.
  - exists x0. split; [done|]. simpl in Hseg.
    by apply seg_app in Hseg as (_ & [[_ ?] _]).
  - apply head_None in Hx0. by destruct R.
Qed.

Lemma keyf_set_key_eq h l k : is_Some (h !! l) → keyf (alter (set_key k) l h) l = Some k.
Proof. intros [nd Hnd]. unfold keyf. by rewrite lookup_alter_eq, Hnd. Qed.
Lemma keyf_alter_ne f h l b : l ≠ b → keyf (alter f l h) b = keyf h b.
Proof. intros. unfold keyf. by rewrite lookup_alter_ne. Qed.

Lemma co_replaced s R t kt k v w' evs :
  Coherent_at s (R ++ [t]) →
  cacheMap (lruc s) !! k = None →
  keyf (heap s) t = Some kt →
  Coherent_at (replaced s t kt k v w' evs) (t :: R).
Proof.
  intros Hco Hk Hkt.
  pose proof (co_rotate _ _ _ Hco) as Hco1.
  assert (HtRt : t ∈ R ++ [t]) by (apply elem_of_app; right; by left).
  assert (Hat : is_Some (heap s !! t)) by (by apply (co_alloc _ _ _ Hco)).
  destruct (co_slot s _ t Hco HtRt) as (kt' & Hkt' & Hmt).
  assert (kt' = kt) as -> by congruence.
  assert (Hdk : delete kt (cacheMap (lruc s)) !! k = None).
  { destruct (decide (kt = k)) as [->|Hne].
    - apply gomap_lookup_delete_eq.
    - by rewrite gomap_lookup_delete_ne. }
  destruct (co_ring _ _ Hco1) as [Hnd Hseg].
  apply NoDup_cons in Hnd as [HtR HndR].
  split.
  - simpl. rewrite gomap_size_insert by done.
    pose proof (co_len _ _ Hco) as Hlen. rewrite length_app in Hlen. simpl in Hlen.
    pose proof (gomap_size_delete (cacheMap (lruc s)) kt). lia.
  - done.
  - done.
  - split; [by apply NoDup_cons|].
    apply (seg_frame (heap s) _ (t :: R) t); [exact Hseg|intros b _; simpl..].
    + by rewrite !nxt_keep.
    + by rewrite !prv_keep.
  - apply Forall_cons. split.
    + unfold slot_keyed. simpl. rewrite keyf_keep by done.
      rewrite keyf_set_key_eq by done. apply gomap_lookup_insert_eq.
    + apply Forall_forall. intros b Hb.
      assert (Htb : t ≠ b) by (by intros ->).
      destruct (co_slot s _ b Hco) as (kb & Hkb & Hmb).
      { apply elem_of_app. by left. }
      unfold slot_keyed. simpl. rewrite !keyf_alter_ne, Hkb by done. intros Hnan.
      specialize (Hmb Hnan).
      rewrite gomap_lookup_insert_ne by congruence.
      rewrite gomap_lookup_delete_ne; [done|].
      intros ->. rewrite Hmt in Hmb by done. congruence.
  - simpl. intros k' p [(<- & _ & <-)|[Hne Hp]]%gomap_lookup_insert_Some.
    + simpl. split; [by left|]. rewrite keyf_keep by done.
      by apply keyf_set_key_eq.
    + apply gomap_lookup_delete_Some in Hp as [Hne' Hp].
      destruct (co_lookup _ _ _ _ Hco Hp) as (l & -> & Hl & Hkl). simpl.
      assert (Htl : t ≠ l) by (intros <-; congruence).
      rewrite !keyf_alter_ne by done. split; [|done].
      apply elem_of_app in Hl as [Hl|Hl%list_elem_of_singleton]; [by right|done].
Qed.

Lemma co_Set_full s R t k v kt vt :
  Coherent_at s (R ++ [t]) →
  cacheMap (lruc s) !! k = None →
  ¬ (Z.of_nat (size (cacheMap (lruc s))) < cap (lruc s))%Z →
  keyf (heap s) t = Some kt →
  valf (heap s) t = Some vt →
  ∀ e w' evs, run_evict (lruc s) vt (world s) = (e, w', evs) →
  match e with
  | Some err =>
      Set_ k v s = Done (Some err, evict_failed s t w' evs) ∧
      Coherent_at (evict_failed s t w' evs) (t :: R)
  | None =>
      Set_ k v s = Done (None, replaced s t kt k v w' evs) ∧
      Coherent_at (replaced s t kt k v w' evs) (t :: R)
  end.
Proof.
  intros Hco Hk Hcap Hkt Hvt e w' evs Hev.
  destruct (co_tail_prev _ _ _ Hco) as (x0 & Hc & Hpv).
  unfold prv in Hpv. destruct (heap s !! x0) as [hd|] eqn:Hx0; [|done].
  injection Hpv as Hpv.
  unfold keyf in Hkt. unfold valf in Hvt.
  destruct (heap s !! t) as [nt|] eqn:Ht; [|done].
  injection Hkt as Hkt. injection Hvt as Hvt.
  assert (Hrun : Set_ k v s =
    (let* err :=
       match evict (lruc s) with
       | Some f => call Evicted f vt
       | None => ret None
       end in
     match err with
     | Some e => ret (Some e)
     | None =>
         set_cacheMap (<[k := Some t]> (delete kt (cacheMap (lruc s)))) ;;;
         assign (Some t) (set_key k) ;;;
         assign (Some t) (set_val v) ;;;
         ret None
     end) (with_cache s (Some t))).
  { unfold Set_. rewrite bind_get_lruc, Hk. rewrite decide_False by done.
    rewrite Hc, (bind_deref _ _ _ _ Hx0), Hpv, bind_set_cache, bind_get_lruc.
    simpl. destruct (evict (lruc s)) as [f|].
    - rewrite bind_bind, (bind_deref _ _ nt) by done. rewrite Hvt.
      rewrite !bind_call. simpl.
      destruct (f vt (world s)) as [[err|] w1]; simpl; [done|].
      rewrite (bind_deref _ _ nt) by done. by rewrite Hkt.
    - rewrite !bind_ret. rewrite (bind_deref _ _ nt) by done. by rewrite Hkt. }
  assert (Hcall :
    (match evict (lruc s) with
     | Some f => call Evicted f vt
     | None => ret None
     end) (with_cache s (Some t)) = Done (e, evict_failed s t w' evs)).
  { unfold run_evict in Hev. destruct (evict (lruc s)) as [f|] eqn:Hf.
    - unfold call. simpl. destruct (f vt (world s)) as [e1 w1].
      injection Hev as <- <- <-. unfold evict_failed. by rewrite Hf.
    - injection Hev as <- <- <-. unfold ret, evict_failed, with_cache.
      by rewrite Hf, app_nil_r. }
  rewrite Hrun, (bind_run _ _ _ _ _ Hcall). destruct e as [err|].
  - split; [done|]. apply (co_ext (with_cache s (Some t))); [done..|].
    by apply co_rotate.
  - split; [|apply co_replaced; [done..|]; unfold keyf; by rewrite Ht, <-Hkt].
    rewrite bind_set_cacheMap.
    rewrite bind_assign by (simpl; by rewrite Ht).
    rewrite bind_assign by (simpl; apply alter_is_Some; by rewrite Ht).
    done.
Qed.

(** ** The eviction candidate is the last slot of the cycle *)

Lemma co_lru_slot s R t : Coherent_at s (R ++ [t]) → lru_slot s = Some t.
Proof.
  intros (x0 & Hc & Hpv)%co_tail_prev. unfold lru_slot, prv in *.
  rewrite Hc. simpl. destruct (heap s !! x0); simplify_eq/=. done.
Qed.

Lemma co_lru_slot_inv s ls t :
  Coherent_at s ls → lru_slot s = Some t → ∃ R, ls = R ++ [t].
Proof.
  intros Hco Ht. destruct (last ls) as [t'|] eqn:Hlast.
  - apply last_Some in Hlast as [R ->]. exists R.
    rewrite (co_lru_slot _ _ _ Hco) in Ht. congruence.
  - apply last_None in Hlast as ->. pose proof (co_head _ _ Hco) as Hc.
    unfold lru_slot in Ht. by rewrite Hc in Ht.
Qed.

(** ** The four ways [Set_] can go *)

Lemma co_Set_cases s ls k v :
  Coherent_at s ls →
  (∃ l s',
     cacheMap (lruc s) !! k = Some (Some l) ∧
     Set_ k v s = Done (None, s') ∧
     Coherent_at s' (promote l ls) ∧
     lruc s' = mkLRUList (cap (lruc s)) (cacheMap (lruc s)) (Some l) (evict (lruc s)) ∧
     world s' = world s ∧ log s' = log s ∧
     (∀ b, keyf (heap s') b = keyf (heap s) b) ∧
     valf (heap s') l = Some v ∧
     (∀ b, b ≠ l → valf (heap s') b = valf (heap s) b)) ∨
  (∃ s',
     cacheMap (lruc s) !! k = None ∧
     (Z.of_nat (size (cacheMap (lruc s))) < cap (lruc s))%Z ∧
     Set_ k v s = Done (None, s') ∧
     Coherent_at s' (fresh (dom (heap s)) :: ls) ∧
     lruc s' = mkLRUList (cap (lruc s))
                 (<[k := Some (fresh (dom (heap s)))]> (cacheMap (lruc s)))
                 (Some (fresh (dom (heap s)))) (evict (lruc s)) ∧
     world s' = world s ∧ log s' = log s ∧
     keyf (heap s') (fresh (dom (heap s))) = Some k ∧
     valf (heap s') (fresh (dom (heap s))) = Some v ∧
     (∀ b, b ≠ fresh (dom (heap s)) → keyf (heap s') b = keyf (heap s) b) ∧
     (∀ b, b ≠ fresh (dom (heap s)) → valf (heap s') b = valf (heap s) b)) ∨
  (cacheMap (lruc s) !! k = None ∧
   ¬ (Z.of_nat (size (cacheMap (lruc s))) < cap (lruc s))%Z ∧
   ls = [] ∧
   Set_ k v s = Panic) ∨
  (∃ R t kt vt e w' evs,
     cacheMap (lruc s) !! k = None ∧
     ¬ (Z.of_nat (size (cacheMap (lruc s))) < cap (lruc s))%Z ∧
     ls = R ++ [t] ∧
     keyf (heap s) t = Some kt ∧
     valf (heap s) t = Some vt ∧
     (nan kt = false → cacheMap (lruc s) !! kt = Some (Some t)) ∧
     run_evict (lruc s) vt (world s) = (e, w', evs) ∧
     match e with
     | Some err =>
         Set_ k v s = Done (Some err, evict_failed s t w' evs) ∧
         Coherent_at (evict_failed s t w' evs) (t :: R)
     | None =>
         Set_ k v s = Done (None, replaced s t kt k v w' evs) ∧
         Coherent_at (replaced s t kt k v w' evs) (t :: R)
     end).
Proof.
  intros Hco. destruct (cacheMap (lruc s) !! k) as [item|] eqn:Hk.
  - left. destruct (co_lookup _ _ _ _ Hco Hk) as (l & -> & _).
    destruct (co_Set_present s ls k v l Hco Hk)
      as (s' & Hrun & Hco' & _ & Hl & Hw & Hlog & Hkeys & Hv & Hvs).
    exists l, s'. split_and!; done.
  - right.
    destruct (decide (Z.of_nat (size (cacheMap (lruc s))) < cap (lruc s))%Z)
      as [Hlt|Hge].
    + left. destruct (co_Set_insert s ls k v Hco Hk Hlt)
        as (s' & Hrun & Hco' & Hl & Hw & Hlog & Hkx & Hvx & Hkeys & Hvals).
      exists s'. split_and!; done.
    + right. destruct (last ls) as [t|] eqn:Hlast.
      * right. apply last_Some in Hlast as [R ->].
        destruct (co_slot_fields s _ t Hco) as (kt & vt & Hkt & Hvt & Hmt).
        { apply elem_of_app. right. by left. }
        destruct (run_evict (lruc s) vt (world s)) as [[e w'] evs] eqn:Hev.
        exists R, t, kt, vt, e, w', evs. split_and!; try done.
        apply (co_Set_full s R t k v kt vt Hco Hk Hge Hkt Hvt e w' evs Hev).
      * left. apply last_None in Hlast as ->.
        pose proof (co_head _ _ Hco) as Hc. simpl in Hc.
        split_and!; try done.
        unfold Set_. rewrite bind_get_lruc, Hk, decide_False by done.
        by rewrite Hc.
Qed.

(** ** Traverse *)

Lemma with_world_nil s : with_world s (world s) [] = s.
Proof. destruct s. unfold with_world. simpl. by rewrite app_nil_r. Qed.

Lemma traverse_loop_run visit h x0 rest :
  seg h rest x0 →
  x0 ∉ rest →
  ∀ vs fuel s,
    Forall2 (λ l v, valf h l = Some v) rest vs →
    heap s = h →
    cache (lruc s) = Some x0 →
    length rest ≤ fuel →
    traverse_loop fuel visit (head (rest ++ [x0])) s
    = Done ((visit_all visit vs (world s)).1.1,
            with_world s (visit_all visit vs (world s)).1.2
                         (visit_all visit vs (world s)).2).
Proof.
  induction rest as [|a rest IH]; intros Hseg Hx0 vs fuel s Hvs Hh Hc Hfuel.
  - apply Forall2_nil_inv_l in Hvs as ->. simpl.
    rewrite with_world_nil.
    destruct fuel; simpl; rewrite bind_get_lruc, Hc, decide_True; done.
  - apply Forall2_cons_inv_l in Hvs as (v & vs' & Hv & Hvs & ->).
    apply not_elem_of_cons in Hx0 as [Hx0a Hx0].
    destruct Hseg as [[Hn _] Hseg].
    destruct fuel as [|fuel]; simpl in Hfuel; [lia|].
    unfold nxt in Hn. unfold valf in Hv.
    destruct (h !! a) as [nd|] eqn:Ha; [|done].
    injection Hn as Hn. injection Hv as Hv.
    simpl. rewrite bind_get_lruc, Hc, decide_False by congruence.
    rewrite (bind_deref _ _ nd) by (by rewrite Hh).
    rewrite bind_call, Hv.
    destruct (visit v (world s)) as [[err|] w1]; simpl; [done|].
    rewrite (bind_deref _ _ nd) by (simpl; by rewrite Hh).
    rewrite Hn.
    replace (Some (default x0 (head rest))) with (head (rest ++ [x0]))
      by (by destruct rest).
    rewrite (IH Hseg Hx0 vs'); [|done|done|done|simpl; lia]. simpl.
    destruct (visit_all visit vs' w1) as [[e w2] evs]. simpl.
    unfold with_world. simpl. by rewrite <-app_assoc.
Qed.

Lemma co_values s ls :
  Coherent_at s ls →
  ∃ vs, Forall2 (λ l v, valf (heap s) l = Some v) ls vs.
Proof.
  intros Hco.
  assert (Hall : Forall (λ l, is_Some (valf (heap s) l)) ls).
  { apply Forall_forall. intros l Hl. unfold valf. apply fmap_is_Some.
    eauto using co_alloc. }
  clear Hco. induction ls as [|a ls IH].
  - exists []. constructor.
  - apply Forall_cons in Hall as [[v Hv] Hall].
    destruct (IH Hall) as (vs & Hvs).
    exists (v :: vs). by constructor.
Qed.

Lemma co_Traverse_run s ls vs fuel visit :
  Coherent_at s ls →
  Forall2 (λ l v, valf (heap s) l = Some v) ls vs →
  length ls ≤ S fuel →
  Traverse fuel visit s
  = Done ((visit_all visit vs (world s)).1.1,
          with_world s (visit_all visit vs (world s)).1.2
                       (visit_all visit vs (world s)).2).
Proof.
  intros Hco Hvs Hfuel.
  pose proof (co_head _ _ Hco) as Hc.
  destruct (co_ring _ _ Hco) as [Hnd Hseg].
  unfold Traverse. rewrite bind_get_lruc.
  destruct ls as [|x0 rest]; simpl in Hc; rewrite Hc.
  - apply Forall2_nil_inv_l in Hvs as ->. simpl. by rewrite with_world_nil.
  - apply Forall2_cons_inv_l in Hvs as (v & vs' & Hv & Hvs & ->).
    apply NoDup_cons in Hnd as [Hx0 Hnd].
    simpl in Hseg. destruct Hseg as [[Hn _] Hseg].
    unfold nxt in Hn. unfold valf in Hv.
    destruct (heap s !! x0) as [nd|] eqn:Ha; [|done].
    injection Hn as Hn. injection Hv as Hv.
    rewrite (bind_deref _ _ nd) by done.
    rewrite bind_call, Hv. simpl.
    destruct (visit v (world s)) as [[err|] w1]; simpl; [done|].
    rewrite (bind_deref _ _ nd) by done.
    rewrite Hn.
    replace (Some (default x0 (head rest))) with (head (rest ++ [x0]))
      by (by destruct rest).
    rewrite (traverse_loop_run visit (heap s) x0 rest Hseg Hx0 vs');
      [|done|done|done|simpl in Hfuel; lia]. simpl.
    destruct (visit_all visit vs' w1) as [[e w2] evs]. simpl.
    unfold with_world. simpl. by rewrite <-app_assoc.
Qed.

(** ** Well-formed stores: every key equals itself *)

Lemma WF_Coherent s ls : WF_at s ls → Coherent_at s ls.
Proof.
  intros [Hlen Hhd Hring Hslots Hidx]. split; try done.
  - lia.
  - intros ->. by rewrite <-Hlen.
  - eapply Forall_impl; [exact Hslots|]. intros l. unfold slot_indexed, slot_keyed.
    by destruct (keyf (heap s) l).
Qed.

Lemma WF_order s ls : WF_at s ls → order s = Some ls.
Proof.
  intros [Hlen Hhd [_ Hseg] _ _]. unfold order. rewrite <-Hlen, Hhd.
  destruct ls as [|a ls]; [done|]. by apply (seg_walk _ _ a) in Hseg.
Qed.

Lemma WF_lookup s ls k item :
  WF_at s ls →
  cacheMap (lruc s) !! k = Some item →
  ∃ l, item = Some l ∧ l ∈ ls ∧ keyf (heap s) l = Some k.
Proof. intros Hwf. apply co_lookup. by apply WF_Coherent. Qed.

Lemma WF_slot s ls l :
  WF_at s ls → l ∈ ls →
  ∃ k, keyf (heap s) l = Some k ∧ cacheMap (lruc s) !! k = Some (Some l).
Proof.
  intros Hwf Hl. pose proof (wf_slots _ _ Hwf) as Hs.
  rewrite Forall_forall in Hs. specialize (Hs l Hl). unfold slot_indexed in Hs.
  destruct (keyf (heap s) l) as [k|]; [|done]. by exists k.
Qed.

(** A well-formed store holds no NaN key. *)
Lemma WF_no_nan s ls l k :
  WF_at s ls → l ∈ ls → keyf (heap s) l = Some k → nan k = false.
Proof.
  intros Hwf Hl Hk. destruct (WF_slot _ _ _ Hwf Hl) as (k' & Hk' & Hm).
  assert (k' = k) as -> by congruence. by apply gomap_lookup_Some in Hm.
Qed.

Lemma WF_alloc s ls l : WF_at s ls → l ∈ ls → is_Some (heap s !! l).
Proof. intros Hwf. apply co_alloc. by apply WF_Coherent. Qed.

(** The invariant with keys of any kind, an index of exactly as many
    entries as there are slots, and no NaN key in a slot: the store is
    well formed. *)
Lemma Coherent_WF s ls :
  Coherent_at s ls →
  length ls = size (cacheMap (lruc s)) →
  (∀ l k, l ∈ ls → keyf (heap s) l = Some k → nan k = false) →
  WF_at s ls.
Proof.
  intros [_ _ Hhd Hring Hslots Hidx] Hlen Hplain. split; try done.
  apply Forall_forall. intros l Hl. rewrite Forall_forall in Hslots.
  specialize (Hslots l Hl). unfold slot_keyed in Hslots. unfold slot_indexed.
  destruct (keyf (heap s) l) as [k|] eqn:Hk; [|done]. eauto.
Qed.

(** Steps that keep the slots, their keys and the size of the index keep
    a store well formed. *)
Lemma WF_at_transfer s s' ls ls' :
  WF_at s ls →
  Coherent_at s' ls' →
  length ls' = length ls →
  size (cacheMap (lruc s')) = size (cacheMap (lruc s)) →
  (∀ b, b ∈ ls' → b ∈ ls) →
  (∀ b, keyf (heap s') b = keyf (heap s) b) →
  WF_at s' ls'.
Proof.
  intros Hwf Hco Hlen Hsize Hin Hkeys. apply Coherent_WF; [done| |].
  - by rewrite Hlen, Hsize, (wf_len _ _ Hwf).
  - intros l k Hl Hk. rewrite Hkeys in Hk. eauto using WF_no_nan.
Qed.

Lemma WF_at_ext s s' ls :
  heap s' = heap s → lruc s' = lruc s → WF_at s ls → WF_at s' ls.
Proof.
  destruct s, s'; simpl; intros -> -> [Hlen Hhd Hring Hslots Hidx].
  split; done.
Qed.

Lemma fresh_not_slot s ls : WF_at s ls → fresh (dom (heap s)) ∉ ls.
Proof. intros Hwf. apply co_fresh_not_slot. by apply WF_Coherent. Qed.

Lemma WF_tail_prev s R t :
  WF_at s (R ++ [t]) →
  ∃ x0, cache (lruc s) = Some x0 ∧ prv (heap s) x0 = Some (Some t).
Proof. intros Hwf. apply (co_tail_prev s R). by apply WF_Coherent. Qed.

Lemma Get_hit s ls k l :
  WF_at s ls →
  cacheMap (lruc s) !! k = Some (Some l) →
  ∃ v s',
    Get k s = Done ((Some v, None), s') ∧
    valf (heap s) l = Some v ∧
    WF_at s' (promote l ls) ∧
    cache (lruc s') = Some l ∧
    same_entries s s' ∧
    (cache (lruc s) = Some l → s' = s).
Proof.
  intros Hwf Hk.
  destruct (WF_lookup _ _ _ _ Hwf Hk) as (l' & [= <-] & Hl & _).
  destruct (co_Get_hit s ls k l (WF_Coherent _ _ Hwf) Hk)
    as (v & s' & Hrun & Hv & Hco' & Hc & Hsame & Hid).
  exists v, s'. split_and!; try done.
  destruct (wf_ring _ _ Hwf) as [Hnd _].
  apply (WF_at_transfer s s' ls); [done|done|by apply promote_length| | |].
  - by rewrite (same_cacheMap _ _ Hsame).
  - intros b. by apply promote_elem.
  - apply Hsame.
Qed.

Lemma Set_present s ls k v l :
  WF_at s ls →
  cacheMap (lruc s) !! k = Some (Some l) →
  ∃ s',
    Set_ k v s = Done (None, s') ∧
    WF_at s' (promote l ls) ∧
    cache (lruc s') = Some l ∧
    lruc s' = mkLRUList (cap (lruc s)) (cacheMap (lruc s)) (Some l) (evict (lruc s)) ∧
    world s' = world s ∧
    log s' = log s ∧
    (∀ b, keyf (heap s') b = keyf (heap s) b) ∧
    valf (heap s') l = Some v ∧
    (∀ b, b ≠ l → valf (heap s') b = valf (heap s) b).
Proof.
  intros Hwf Hk.
  destruct (WF_lookup _ _ _ _ Hwf Hk) as (l' & [= <-] & Hl & _).
  destruct (co_Set_present s ls k v l (WF_Coherent _ _ Hwf) Hk)
    as (s' & Hrun & Hco' & Hc & Hlruc & Hw & Hlog & Hkeys & Hv & Hvs).
  exists s'. split_and!; try done.
  destruct (wf_ring _ _ Hwf) as [Hnd _].
  apply (WF_at_transfer s s' ls); [done|done|by apply promote_length| | |done].
  - by rewrite Hlruc.
  - intros b. by apply promote_elem.
Qed.

Lemma Set_insert s ls k v :
  WF_at s ls →
  nan k = false →
  cacheMap (lruc s) !! k = None →
  (Z.of_nat (size (cacheMap (lruc s))) < cap (lruc s))%Z →
  let x := fresh (dom (heap s)) in
  ∃ s',
    Set_ k v s = Done (None, s') ∧
    WF_at s' (x :: ls) ∧
    lruc s' = mkLRUList (cap (lruc s)) (<[k := Some x]> (cacheMap (lruc s)))
                        (Some x) (evict (lruc s)) ∧
    world s' = world s ∧
    log s' = log s ∧
    keyf (heap s') x = Some k ∧
    valf (heap s') x = Some v ∧
    (∀ b, b ≠ x → keyf (heap s') b = keyf (heap s) b) ∧
    (∀ b, b ≠ x → valf (heap s') b = valf (heap s) b).
Proof.
  intros Hwf Hnan Hk Hcap x.
  destruct (co_Set_insert s ls k v (WF_Coherent _ _ Hwf) Hk Hcap)
    as (s' & Hrun & Hco' & Hlruc & Hw & Hlog & Hkx & Hvx & Hkeys & Hvs).
  fold x in Hco', Hlruc, Hkx, Hvx, Hkeys, Hvs.
  exists s'. split_and!; try done.
  apply Coherent_WF; [done| |].
  - rewrite Hlruc. simpl. rewrite gomap_size_insert by done.
    by rewrite (wf_len _ _ Hwf).
  - intros l kl [->|Hl]%elem_of_cons Hkl; [congruence|].
    rewrite Hkeys in Hkl; [by eauto using WF_no_nan|].
    intros ->. by apply (fresh_not_slot _ _ Hwf).
Qed.

Lemma WF_at_rotate s R t :
  WF_at s (R ++ [t]) → WF_at (with_cache s (Some t)) (t :: R).
Proof.
  intros Hwf. apply (WF_at_transfer s (with_cache s (Some t)) (R ++ [t]));
    [done|by apply co_rotate, WF_Coherent| |done| |done].
  - rewrite length_app. simpl. lia.
  - intros b. rewrite elem_of_cons, elem_of_app, list_elem_of_singleton. tauto.
Qed.

Lemma WF_at_replaced s R t kt k v w' evs :
  WF_at s (R ++ [t]) →
  nan k = false →
  cacheMap (lruc s) !! k = None →
  keyf (heap s) t = Some kt →
  WF_at (replaced s t kt k v w' evs) (t :: R).
Proof.
  intros Hwf Hnan Hk Hkt.
  assert (HtRt : t ∈ R ++ [t]) by (apply elem_of_app; right; by left).
  destruct (WF_slot s _ t Hwf HtRt) as (kt' & Hkt' & Hmt).
  assert (kt' = kt) as -> by congruence.
  destruct (WF_alloc _ _ _ Hwf HtRt) as [nt Hnt].
  destruct (wf_ring _ _ Hwf) as [Hnd _].
  apply NoDup_app in Hnd as (_ & Hdisj & _).
  apply Coherent_WF; [apply co_replaced; [by apply WF_Coherent|done..]| |].
  - simpl. rewrite gomap_size_insert.
    + rewrite (gomap_size_delete_Some _ _ _ Hmt), <-(wf_len _ _ Hwf), length_app.
      simpl. lia.
    + destruct (decide (kt = k)) as [->|Hne]; [apply gomap_lookup_delete_eq|].
      by rewrite gomap_lookup_delete_ne.
  - intros l kl [->|Hl]%elem_of_cons; simpl.
    + rewrite keyf_keep by done. rewrite keyf_set_key_eq by (by rewrite Hnt).
      congruence.
    + assert (t ≠ l) by (intros <-; apply (Hdisj t Hl); by left).
      rewrite !keyf_alter_ne by done. intros Hkl.
      apply (WF_no_nan s (R ++ [t]) l); [done| |done].
      apply elem_of_app. by left.
Qed.

Lemma Set_full s R t k v kt vt :
  WF_at s (R ++ [t]) →
  cacheMap (lruc s) !! k = None →
  ¬ (Z.of_nat (size (cacheMap (lruc s))) < cap (lruc s))%Z →
  keyf (heap s) t = Some kt →
  valf (heap s) t = Some vt →
  ∀ e w' evs, run_evict (lruc s) vt (world s) = (e, w', evs) →
  match e with
  | Some err =>
      Set_ k v s = Done (Some err, evict_failed s t w' evs) ∧
      WF_at (evict_failed s t w' evs) (t :: R)
  | None =>
      Set_ k v s = Done (None, replaced s t kt k v w' evs) ∧
      (nan k = false → WF_at (replaced s t kt k v w' evs) (t :: R))
  end.
Proof.
  intros Hwf Hk Hcap Hkt Hvt e w' evs Hev.
  pose proof (co_Set_full s R t k v kt vt (WF_Coherent _ _ Hwf)
                Hk Hcap Hkt Hvt e w' evs Hev) as Hfull.
  destruct e as [err|]; destruct Hfull as [Hrun _]; (split; [done|]).
  - apply (WF_at_ext (with_cache s (Some t))); [done..|].
    by apply WF_at_rotate.
  - intros Hnan. by apply WF_at_replaced.
Qed.

(** ** Traverse on a well-formed store *)

Lemma WF_values s ls :
  WF_at s ls →
  ∃ vs, values s = Some vs ∧ Forall2 (λ l v, valf (heap s) l = Some v) ls vs.
Proof.
  intros Hwf. destruct (co_values s ls (WF_Coherent _ _ Hwf)) as [vs Hvs].
  exists vs. split; [|done]. unfold values. rewrite (WF_order _ _ Hwf).
  by apply mapM_Some.
Qed.

Lemma Traverse_run s ls vs fuel visit :
  WF_at s ls →
  values s = Some vs →
  length ls ≤ S fuel →
  Traverse fuel visit s
  = Done ((visit_all visit vs (world s)).1.1,
          with_world s (visit_all visit vs (world s)).1.2
                       (visit_all visit vs (world s)).2).
Proof.
  intros Hwf Hvals Hfuel.
  destruct (WF_values _ _ Hwf) as (vs' & Hvals' & Hvs).
  assert (vs' = vs) as -> by congruence.
  apply (co_Traverse_run s ls); [by apply WF_Coherent|done..].
Qed.

(** ** The invariants are decidable *)

#[global] Instance gomap_Forall_dec (P : K → ptr → Prop)
    `{∀ k p, Decision (P k p)} (m : gomap) : Decision (map_Forall P m).
Proof.
  destruct (decide (map_Forall (λ k p, nan k = false → P k p) (found m)))
    as [Hyes|Hno]; [left|right].
  - intros k p Hp. rewrite gomap_lookup_unfold in Hp.
    destruct (nan k) eqn:Hk; [done|]. by apply (Hyes k p).
  - intros Hall. apply Hno. intros k p Hp Hk. apply Hall.
    by rewrite gomap_lookup_unfold, Hk.
Defined.

#[global] Instance linked_dec h a b : Decision (linked h a b).
Proof. unfold linked. apply _. Defined.

#[global] Instance seg_dec h l f : Decision (seg h l f).
Proof. revert f. induction l as [|a l IH]; intros f; simpl; apply _. Defined.

#[global] Instance ring_dec h l : Decision (ring h l).
Proof. unfold ring. apply _. Defined.

#[global] Instance slot_indexed_dec s l : Decision (slot_indexed s l).
Proof. unfold slot_indexed. destruct (keyf (heap s) l); apply _. Defined.

#[global] Instance slot_keyed_dec s l : Decision (slot_keyed s l).
Proof. unfold slot_keyed. destruct (keyf (heap s) l); apply _. Defined.

#[global] Instance key_slotted_dec s ls k p : Decision (key_slotted s ls k p).
Proof. unfold key_slotted. destruct p; apply _. Defined.

#[global] Instance WF_at_dec s ls : Decision (WF_at s ls).
Proof.
  destruct (decide (length ls = size (cacheMap (lruc s)) ∧
                    cache (lruc s) = head ls ∧
                    ring (heap s) ls ∧
                    Forall (slot_indexed s) ls ∧
                    map_Forall (key_slotted s ls) (cacheMap (lruc s))))
    as [Hyes|Hno]; [left|right].
  - destruct Hyes as (?&?&?&?&?). by split.
  - intros [? ? ? ? ?]. tauto.
Defined.

#[global] Instance WF_dec s : Decision (WF s).
Proof.
  destruct (order s) as [ls|] eqn:Ho.
  - destruct (decide (WF_at s ls)) as [Hyes|Hno]; [left|right].
    + by exists ls.
    + intros [ls' Hwf]. pose proof (WF_order _ _ Hwf). congruence.
  - right. intros [ls' Hwf]. pose proof (WF_order _ _ Hwf). congruence.
Defined.

#[global] Instance Coherent_at_dec s ls : Decision (Coherent_at s ls).
Proof.
  destruct (decide (length ls ≤ size (cacheMap (lruc s)) ∧
                    (ls = [] → size (cacheMap (lruc s)) = 0) ∧
                    cache (lruc s) = head ls ∧
                    ring (heap s) ls ∧
                    Forall (slot_keyed s) ls ∧
                    map_Forall (key_slotted s ls) (cacheMap (lruc s))))
    as [Hyes|Hno]; [left|right].
  - destruct Hyes as (?&?&?&?&?&?). by split.
  - intros [? ? ? ? ? ?]. tauto.
Defined.

(** ** The eviction candidate of a well-formed store *)

Lemma WF_lru_slot s R t : WF_at s (R ++ [t]) → lru_slot s = Some t.
Proof.
  intros (x0 & Hc & Hpv)%WF_tail_prev. unfold lru_slot, prv in *.
  rewrite Hc. simpl. destruct (heap s !! x0); simplify_eq/=. done.
Qed.

Lemma WF_lru_slot_inv s ls t :
  WF_at s ls → lru_slot s = Some t → ∃ R, ls = R ++ [t].
Proof.
  intros Hwf Ht. destruct (last ls) as [t'|] eqn:Hlast.
  - apply last_Some in Hlast as [R ->]. exists R.
    rewrite (WF_lru_slot _ _ _ Hwf) in Ht. congruence.
  - apply last_None in Hlast as ->. pose proof (wf_head _ _ Hwf) as Hc.
    unfold lru_slot in Ht. by rewrite Hc in Ht.
Qed.

Lemma WF_slot_fields s ls l :
  WF_at s ls → l ∈ ls →
  ∃ k v, keyf (heap s) l = Some k ∧ valf (heap s) l = Some v ∧
         cacheMap (lruc s) !! k = Some (Some l).
Proof.
  intros Hwf Hl. destruct (WF_slot _ _ _ Hwf Hl) as (k & Hk & Hm).
  destruct (WF_alloc _ _ _ Hwf Hl) as [nd Hnd].
  exists k, (val nd). split_and!; [done| |done]. unfold valf. by rewrite Hnd.
Qed.

(** ** The new store *)

Lemma WF_single_cycle s : WF s → single_cycle s.
Proof.
  intros [ls Hwf]. exists ls. destruct (wf_ring _ _ Hwf).
  split_and!; [by apply WF_order|by apply (wf_len _ _ Hwf)|done..].
Qed.

Lemma init_WF c ev w : WF_at (init c ev w) [].
Proof.
  split; try done.
  - split; [constructor|done].
  - intros k p Hp. by rewrite gomap_lookup_empty in Hp.
Qed.

Lemma init_size c ev w : size (cacheMap (lruc (init c ev w))) = 0.
Proof. done. Qed.

(** ** Auxiliary facts for the claims *)


Lemma failed_eviction_run s ls k v f t vt err w' :
  WF_at s ls →
  cacheMap (lruc s) !! k = None →
  ¬ (Z.of_nat (size (cacheMap (lruc s))) < cap (lruc s))%Z →
  evict (lruc s) = Some f →
  lru_slot s = Some t →
  valf (heap s) t = Some vt →
  f vt (world s) = (Some err, w') →
  ∃ R, ls = R ++ [t] ∧
       Set_ k v s = Done (Some err, evict_failed s t w' [Evicted vt]) ∧
       WF_at (evict_failed s t w' [Evicted vt]) (t :: R).
Proof.
  intros Hwf Hk Hfull Hf Ht Hvt Hcall.
  destruct (WF_lru_slot_inv _ _ _ Hwf Ht) as [R ->]. exists R.
  destruct (WF_slot_fields s _ t Hwf) as (kt & vt' & Hkt & Hvt' & _).
  { apply elem_of_app. right. by left. }
  assert (Hev : run_evict (lruc s) vt (world s) = (Some err, w', [Evicted vt])).
  { unfold run_evict. by rewrite Hf, Hcall. }
  split; [done|].
  apply (Set_full s R t k v kt vt Hwf Hk Hfull Hkt Hvt _ _ _ Hev).
Qed.

(** X3: in a store with two or more entries a failed eviction moves
    the head, so [Set_] does not return the state it was called in. *)
Lemma failed_eviction_changes_head s k v f t vt err w' :
  WF s →
  cacheMap (lruc s) !! k = None →
  ¬ (Z.of_nat (size (cacheMap (lruc s))) < cap (lruc s))%Z →
  evict (lruc s) = Some f →
  lru_slot s = Some t →
  valf (heap s) t = Some vt →
  f vt (world s) = (Some err, w') →
  2 ≤ size (cacheMap (lruc s)) →
  ∃ s', Set_ k v s = Done (Some err, s') ∧
        cache (lruc s') = Some t ∧
        cache (lruc s) ≠ Some t.
Proof.
  intros [ls Hwf] Hk Hfull Hf Ht Hvt Hcall Hsize.
  destruct (failed_eviction_run s ls k v f t vt err w' Hwf Hk Hfull Hf Ht Hvt Hcall)
    as (R & -> & Hrun & Hwf1).
  exists (evict_failed s t w' [Evicted vt]). split_and!; [done..|].
  rewrite (wf_head _ _ Hwf).
  pose proof (wf_len _ _ Hwf) as Hlen. rewrite length_app in Hlen. simpl in Hlen.
  destruct (wf_ring _ _ Hwf) as [Hnd _].
  destruct R as [|x0 R]; simpl in *; [lia|].
  intros [= ->]. apply NoDup_cons in Hnd as [Hin _].
  apply Hin, elem_of_app. right. by left.
Qed.

(** ** Every store reached by public operations is well formed *)

Lemma traverse_loop_frame fuel visit : ∀ cur s e s',
  traverse_loop fuel visit cur s = Done (e, s') →
  heap s' = heap s ∧ lruc s' = lruc s.
Proof.
  induction fuel as [|fuel IH]; intros cur s e s'; simpl.
  all: rewrite bind_get_lruc; case_decide; try done.
  - by intros [= _ <-].
  - by intros [= _ <-].
  - destruct cur as [l|]; [|done].
    destruct (heap s !! l) as [nd|] eqn:Hl; [|by unfold bind, deref; rewrite Hl].
    rewrite (bind_deref _ _ _ _ Hl), bind_call.
    destruct (visit (val nd) (world s)) as [[err|] w1]; simpl.
    + by intros [= _ <-].
    + rewrite (bind_deref _ _ nd) by done. by intros ?%IH.
Qed.

Lemma Traverse_frame fuel visit s e s' :
  Traverse fuel visit s = Done (e, s') →
  heap s' = heap s ∧ lruc s' = lruc s.
Proof.
  unfold Traverse. rewrite bind_get_lruc.
  destruct (cache (lruc s)) as [l|]; [|by intros [= _ <-]].
  destruct (heap s !! l) as [nd|] eqn:Hl; [|by unfold bind, deref; rewrite Hl].
  rewrite (bind_deref _ _ _ _ Hl), bind_call.
  destruct (visit (val nd) (world s)) as [[err|] w1]; simpl.
  - by intros [= _ <-].
  - rewrite (bind_deref _ _ nd) by done. by intros ?%traverse_loop_frame.
Qed.

Lemma run_op_WF s o s' :
  WF s → bounded s → no_nan o → run_op o s = Done ((), s') →
  WF s' ∧ bounded s'.
Proof.
  intros [ls Hwf] Hb Hnan. unfold bounded, cap_bound in *.
  destruct o as [k v|k|fuel visit]; simpl.
  - destruct (cacheMap (lruc s) !! k) as [item|] eqn:Hk.
    + destruct (WF_lookup _ _ _ _ Hwf Hk) as (l & -> & _).
      destruct (Set_present s ls k v l Hwf Hk) as (s1 & Hrun & Hwf' & _ & Hl & _).
      rewrite (bind_run _ _ _ _ _ Hrun). intros [= <-]. rewrite Hl. simpl.
      split; [by eexists|done].
    + destruct (decide (Z.of_nat (size (cacheMap (lruc s))) < cap (lruc s))%Z)
        as [Hlt|Hge].
      * destruct (Set_insert s ls k v Hwf Hnan Hk Hlt) as (s1 & Hrun & Hwf' & Hl & _).
        rewrite (bind_run _ _ _ _ _ Hrun). intros [= <-]. rewrite Hl. simpl.
        split; [by eexists|]. left. rewrite gomap_size_insert by done. lia.
      * destruct ls as [|x0 R0] eqn:Hls.
        { pose proof (wf_head _ _ Hwf) as Hc. simpl in Hc.
          assert (Hpanic : Set_ k v s = Panic).
          { unfold Set_. rewrite bind_get_lruc, Hk, decide_False by done.
            by rewrite Hc. }
          unfold bind. by rewrite Hpanic. }
        rewrite <-Hls in *.
        assert (Hlast : is_Some (last ls)) by (apply last_is_Some; by rewrite Hls).
        destruct Hlast as [t [R HR]%last_Some]. rewrite HR in Hwf.
        destruct (WF_slot_fields s _ t Hwf) as (kt & vt & Hkt & Hvt & Hmt).
        { apply elem_of_app. right. by left. }
        destruct (run_evict (lruc s) vt (world s)) as [[e w'] evs] eqn:Hev.
        pose proof (Set_full s R t k v kt vt Hwf Hk Hge Hkt Hvt e w' evs Hev) as Hfull.
        destruct e as [err|]; destruct Hfull as [Hrun Hwf'];
          rewrite (bind_run _ _ _ _ _ Hrun); intros [= <-].
        -- split; [by exists (t :: R)|done].
        -- specialize (Hwf' Hnan). split; [by exists (t :: R)|].
           rewrite <-(wf_len _ _ Hwf'). rewrite <-(wf_len _ _ Hwf) in Hb.
           rewrite length_app in Hb. simpl in *. lia.
  - destruct (cacheMap (lruc s) !! k) as [item|] eqn:Hk.
    + destruct (WF_lookup _ _ _ _ Hwf Hk) as (l & -> & _).
      destruct (Get_hit s ls k l Hwf Hk) as (v & s1 & Hrun & _ & Hwf' & _ & Hsame & _).
      rewrite (bind_run _ _ _ _ _ Hrun). intros [= <-].
      rewrite (same_cap _ _ Hsame), (same_cacheMap _ _ Hsame).
      split; [by eexists|done].
    + rewrite (bind_run _ _ _ _ _ (Get_miss _ _ Hk)). intros [= <-].
      split; [by exists ls|done].
  - unfold bind. destruct (Traverse fuel visit s) as [[e s1]| |] eqn:Hrun; try done.
    apply Traverse_frame in Hrun as [Hh Hl]. intros [= <-]. rewrite Hl.
    split; [|done]. exists ls. by apply (WF_at_ext s).
Qed.

Lemma run_op_Coherent s o s' :
  Coherent s → run_op o s = Done ((), s') → Coherent s'.
Proof.
  intros [ls Hco]. destruct o as [k v|k|fuel visit]; simpl.
  - unfold bind. destruct (Set_ k v s) as [[e s1]| |] eqn:Hrun; try done.
    intros [= <-].
    destruct (co_Set_cases s ls k v Hco)
      as [(l & s2 & _ & Hrun2 & Hco2 & _)
         |[(s2 & _ & _ & Hrun2 & Hco2 & _)
         |[(_ & _ & _ & Hpanic)
          |(R & t & kt & vt & e2 & w' & evs & _ & _ & -> & _ & _ & _ & _ & Hres)]]].
    + exists (promote l ls). congruence.
    + exists (fresh (dom (heap s)) :: ls). congruence.
    + congruence.
    + exists (t :: R). destruct e2; destruct Hres as [Hrun2 Hco2]; congruence.
  - destruct (cacheMap (lruc s) !! k) as [item|] eqn:Hk.
    + destruct (co_lookup _ _ _ _ Hco Hk) as (l & -> & _).
      destruct (co_Get_hit s ls k l Hco Hk) as (v & s1 & Hrun & _ & Hco' & _).
      rewrite (bind_run _ _ _ _ _ Hrun). intros [= <-]. by eexists.
    + rewrite (bind_run _ _ _ _ _ (Get_miss _ _ Hk)). intros [= <-]. by exists ls.
  - unfold bind. destruct (Traverse fuel visit s) as [[e s1]| |] eqn:Hrun; try done.
    apply Traverse_frame in Hrun as [Hh Hl]. intros [= <-].
    exists ls. by apply (co_ext s).
Qed.

(** X2: every state reached from a new store by public operations,
    whatever the capacity, the callbacks and the keys, satisfies the
    invariant with keys of any kind; when no [Set_] of the run was given
    a NaN key, the state is well formed. *)
Theorem reachable_store_is_coherent c ev w ops s :
  run ops (init c ev w) = Done ((), s) →
  Coherent s ∧ (Forall no_nan ops → WF s).
Proof.
  intros Hrun. split.
  - assert (Hgen : ∀ s0, Coherent s0 → run ops s0 = Done ((), s) → Coherent s).
    { clear Hrun. induction ops as [|o ops IH]; intros s0 Hco; simpl.
      - by intros [= <-].
      - unfold bind at 1. destruct (run_op o s0) as [[[] s1]| |] eqn:Hrun; try done.
        apply IH. by apply (run_op_Coherent s0 o). }
    apply (Hgen (init c ev w)); [|done].
    exists []. apply WF_Coherent, init_WF.
  - assert (Hgen : ∀ s0, WF s0 → bounded s0 → Forall no_nan ops →
                         run ops s0 = Done ((), s) → WF s).
    { clear Hrun. induction ops as [|o ops IH]; intros s0 Hwf Hb Hkeys; simpl.
      - by intros [= <-].
      - apply Forall_cons in Hkeys as [Hko Hkeys].
        unfold bind at 1. destruct (run_op o s0) as [[[] s1]| |] eqn:Hrun; try done.
        destruct (run_op_WF _ _ _ Hwf Hb Hko Hrun) as [Hwf1 Hb1]. by apply IH. }
    intros Hkeys. apply (Hgen (init c ev w)); [| |done..].
    + exists []. apply init_WF.
    + right. apply init_size.
Qed.

(** ** Without failing callbacks the keys are kept in order of last touch *)

Lemma NoDup_touch k r : NoDup r → NoDup (touch k r).
Proof.
  intros Hnd. unfold touch. apply NoDup_cons. split.
  - rewrite list_elem_of_filter. by intros [? _].
  - by apply NoDup_filter.
Qed.

Lemma keys_frame h h' ls ks :
  Forall2 (λ l k, keyf h l = Some k) ls ks →
  (∀ b, b ∈ ls → keyf h' b = keyf h b) →
  Forall2 (λ l k, keyf h' l = Some k) ls ks.
Proof.
  induction 1 as [|l k ls ks Hl Hls IH]; intros Hsame; constructor.
  - rewrite Hsame; [done|]. by left.
  - apply IH. intros b Hb. apply Hsame. by right.
Qed.

Lemma WF_key_order s ls ks :
  WF_at s ls →
  key_order s = Some ks ↔ Forall2 (λ l k, keyf (heap s) l = Some k) ls ks.
Proof. intros Hwf. unfold key_order. rewrite (WF_order _ _ Hwf). apply mapM_Some. Qed.

Lemma stored_touch_present (m : gomap) k r :
  is_Some (m !! k) → stored_keys m (touch k r) = touch k (stored_keys m r).
Proof.
  intros Hk. unfold stored_keys, touch. rewrite filter_cons_True by done.
  f_equal. rewrite !list_filter_filter. apply list_filter_iff. tauto.
Qed.

Lemma stored_touch_insert (m : gomap) k p r :
  nan k = false →
  m !! k = None → stored_keys (<[k := p]> m) (touch k r) = k :: stored_keys m r.
Proof.
  intros Hnan Hk. unfold stored_keys, touch.
  rewrite filter_cons_True by (by rewrite gomap_lookup_insert_eq).
  f_equal. rewrite list_filter_filter. apply list_filter_iff. intros x. split.
  - intros [Hx Hne]. by rewrite gomap_lookup_insert_ne in Hx.
  - intros Hx. assert (x ≠ k) by (intros ->; rewrite Hk in Hx; by destruct Hx).
    by rewrite gomap_lookup_insert_ne.
Qed.

Lemma stored_touch_replace (m : gomap) k kt p r Ks :
  nan k = false →
  m !! k = None →
  NoDup r →
  stored_keys m r = Ks ++ [kt] →
  stored_keys (<[k := p]> (delete kt m)) (touch k r) = k :: Ks.
Proof.
  intros Hnan Hk Hnd HKs. unfold touch, stored_keys in *.
  rewrite filter_cons_True by (by rewrite gomap_lookup_insert_eq).
  f_equal. rewrite list_filter_filter.
  transitivity (filter (λ x, x ≠ kt) (filter (λ x, is_Some (m !! x)) r)).
  - rewrite list_filter_filter. apply list_filter_iff. intros x. split.
    + intros [[q Hx] Hne]. rewrite gomap_lookup_insert_ne in Hx by done.
      apply gomap_lookup_delete_Some in Hx as [? Hx]. split; [done|by exists q].
    + intros [Hne [q Hx]].
      assert (x ≠ k) by (intros ->; by rewrite Hk in Hx).
      rewrite gomap_lookup_insert_ne by done. split; [|done].
      exists q. apply gomap_lookup_delete_Some. split; [done|exact Hx].
  - assert (Hnd' : NoDup (Ks ++ [kt])).
    { rewrite <-HKs. by apply NoDup_filter. }
    rewrite HKs, filter_app, filter_cons_False, filter_nil, app_nil_r
      by (by intros ?).
    apply filter_ne_fresh. apply NoDup_app in Hnd' as (_ & Hdisj & _).
    intros Hin. apply (Hdisj kt Hin). by left.
Qed.

(** A promotion of the slot [l] that holds [k]. *)
Lemma tracks_promote s s' ls l k r :
  WF_at s ls →
  tracks s r →
  cacheMap (lruc s) !! k = Some (Some l) →
  WF_at s' (promote l ls) →
  cacheMap (lruc s') = cacheMap (lruc s) →
  (∀ b, keyf (heap s') b = keyf (heap s) b) →
  tracks s' (touch k r).
Proof.
  intros Hwf [Hnd Hks] Hk Hwf' Hm Hkeys.
  destruct (WF_lookup _ _ _ _ Hwf Hk) as (l' & [= <-] & Hl & Hkl).
  split; [by apply NoDup_touch|].
  rewrite Hm, stored_touch_present by (by rewrite Hk).
  apply (WF_key_order _ _ _ Hwf) in Hks.
  pose proof (NoDup_filter (λ k, is_Some (cacheMap (lruc s) !! k)) _ Hnd) as Hndk.
  fold (stored_keys (cacheMap (lruc s)) r) in Hndk.
  destruct (wf_ring _ _ Hwf) as [Hndl _].
  apply list_elem_of_split in Hl as (L1 & L2 & ->).
  apply Forall2_app_inv_l in Hks as (K1 & K2' & HK1 & HK2 & HKs).
  apply Forall2_cons_inv_l in HK2 as (k' & K2 & Hk' & HK2 & ->).
  assert (k' = k) as -> by congruence.
  rewrite HKs in Hndk |- *.
  rewrite promote_split in Hwf' by done.
  apply (WF_key_order _ _ _ Hwf').
  change (touch k (K1 ++ k :: K2)) with (promote k (K1 ++ k :: K2)).
  rewrite promote_split by done.
  apply (keys_frame (heap s)); [|by intros].
  constructor; [done|]. by apply Forall2_app.
Qed.

Lemma run_evict_never_fails c vt w :
  evict_never_fails c → (run_evict c vt w).1.1 = None.
Proof.
  unfold evict_never_fails, run_evict. destruct (evict c) as [f|]; [|done].
  intros Hf. specialize (Hf vt w). by destruct (f vt w).
Qed.

Lemma run_op_tracks s o s' r :
  WF s →
  evict_never_fails (lruc s) →
  no_nan o →
  tracks s r →
  run_op o s = Done ((), s') →
  WF s' ∧ evict (lruc s') = evict (lruc s) ∧
  tracks s' (foldl (λ r k, touch k r) r (touched o s)).
Proof.
  intros [ls Hwf] Hev Hnan Htr. destruct o as [k v|k|fuel visit]; simpl.
  - destruct (cacheMap (lruc s) !! k) as [item|] eqn:Hk.
    + destruct (WF_lookup _ _ _ _ Hwf Hk) as (l & -> & _).
      destruct (Set_present s ls k v l Hwf Hk)
        as (s1 & Hrun & Hwf' & _ & Hl & _ & _ & Hkeys & _).
      rewrite (bind_run _ _ _ _ _ Hrun), Hrun. intros [= <-]. simpl.
      split_and!; [by eexists|by rewrite Hl|].
      apply (tracks_promote s s1 ls l k r); try done. by rewrite Hl.
    + destruct (decide (Z.of_nat (size (cacheMap (lruc s))) < cap (lruc s))%Z)
        as [Hlt|Hge].
      * destruct (Set_insert s ls k v Hwf Hnan Hk Hlt)
          as (s1 & Hrun & Hwf' & Hl & _ & _ & Hkx & _ & Hkeys & _).
        rewrite (bind_run _ _ _ _ _ Hrun), Hrun. intros [= <-]. simpl.
        destruct Htr as [Hnd Hks].
        split; [by eexists|]. split; [by rewrite Hl|]. split; [by apply NoDup_touch|].
        rewrite Hl. simpl. rewrite stored_touch_insert by done.
        apply (WF_key_order _ _ _ Hwf'). apply (WF_key_order _ _ _ Hwf) in Hks.
        constructor; [done|]. apply (keys_frame (heap s)); [done|].
        intros b Hb. apply Hkeys. intros ->. by apply (fresh_not_slot _ _ Hwf).
      * destruct ls as [|x0 R0] eqn:Hls.
        { pose proof (wf_head _ _ Hwf) as Hc. simpl in Hc.
          assert (Hpanic : Set_ k v s = Panic).
          { unfold Set_. rewrite bind_get_lruc, Hk, decide_False by done.
            by rewrite Hc. }
          unfold bind. by rewrite Hpanic. }
        rewrite <-Hls in *.
        assert (Hlast : is_Some (last ls)) by (apply last_is_Some; by rewrite Hls).
        destruct Hlast as [t [R HR]%last_Some]. rewrite HR in Hwf.
        destruct (WF_slot_fields s _ t Hwf) as (kt & vt & Hkt & Hvt & Hmt).
        { apply elem_of_app. right. by left. }
        pose proof (run_evict_never_fails _ vt (world s) Hev) as Hnone.
        destruct (run_evict (lruc s) vt (world s)) as [[e w'] evs] eqn:Hrev.
        simpl in Hnone. subst e.
        destruct (Set_full s R t k v kt vt Hwf Hk Hge Hkt Hvt _ _ _ Hrev)
          as [Hrun Hwf'].
        specialize (Hwf' Hnan).
        rewrite (bind_run _ _ _ _ _ Hrun), Hrun. intros [= <-]. simpl.
        destruct Htr as [Hnd Hks].
        split; [by eexists|]. split; [done|]. split; [by apply NoDup_touch|].
        apply (WF_key_order _ _ _ Hwf) in Hks.
        apply Forall2_app_inv_l in Hks as (Ks & K2 & HKs & HK2 & Heq).
        apply Forall2_cons_inv_l in HK2 as (kt' & K3 & Hkt' & HK3 & ->).
        apply Forall2_nil_inv_l in HK3 as ->.
        assert (kt' = kt) as -> by congruence.
        simpl. rewrite (stored_touch_replace _ _ kt _ _ Ks) by done.
        apply (WF_key_order _ _ _ Hwf').
        assert (Hat : is_Some (heap s !! t)).
        { apply (WF_alloc _ _ _ Hwf), elem_of_app. right. by left. }
        destruct (wf_ring _ _ Hwf') as [[HtR _]%NoDup_cons _].
        constructor.
        -- simpl. rewrite keyf_keep by done. by apply keyf_set_key_eq.
        -- apply (keys_frame (heap s)); [done|]. intros b Hb. simpl.
           rewrite !keyf_alter_ne; [done|by intros ->..].
  - destruct (cacheMap (lruc s) !! k) as [item|] eqn:Hk.
    + destruct (WF_lookup _ _ _ _ Hwf Hk) as (l & -> & _).
      destruct (Get_hit s ls k l Hwf Hk) as (v & s1 & Hrun & _ & Hwf' & _ & Hsame & _).
      rewrite (bind_run _ _ _ _ _ Hrun), Hrun. intros [= <-]. simpl.
      split_and!; [by eexists|apply Hsame|].
      apply (tracks_promote s s1 ls l k r); try done; apply Hsame.
    + rewrite (bind_run _ _ _ _ _ (Get_miss _ _ Hk)), (Get_miss _ _ Hk).
      intros [= <-]. simpl. split_and!; [by exists ls|done..].
  - unfold bind. destruct (Traverse fuel visit s) as [[e s1]| |] eqn:Hrun; try done.
    apply Traverse_frame in Hrun as [Hh Hl]. intros [= <-]. rewrite Hl.
    split_and!; [|done|].
    + exists ls. by apply (WF_at_ext s).
    + destruct Htr as [Hnd Hks]. split; [done|].
      unfold key_order, order in *. by rewrite Hh, Hl.
Qed.

Lemma run_tracks ops : ∀ s r s',
  WF s →
  evict_never_fails (lruc s) →
  Forall no_nan ops →
  tracks s r →
  run ops s = Done ((), s') →
  WF s' ∧ tracks s' (foldl (λ r k, touch k r) r (history ops s)).
Proof.
  induction ops as [|o ops IH]; intros s r s' Hwf Hev Hkeys Htr; simpl.
  - by intros [= <-].
  - apply Forall_cons in Hkeys as [Hko Hkeys].
    unfold bind at 1. destruct (run_op o s) as [[[] s1]| |] eqn:Hrun; try done.
    destruct (run_op_tracks _ _ _ _ Hwf Hev Hko Htr Hrun) as (Hwf1 & Hev1 & Htr1).
    intros Hrest. rewrite foldl_app. apply (IH s1); try done.
    unfold evict_never_fails. by rewrite Hev1.
Qed.

(** X1: in a run whose eviction callback never fails and in which no
    [Set_] is given a NaN key, the key held by the eviction candidate
    [lruc.cache.prev] is the least recently touched of the stored
    keys. *)
Lemma lru_candidate_is_least_recently_touched c ev w ops s t kt :
  evict_never_fails (NewLRUList c ev) →
  Forall no_nan ops →
  run ops (init c ev w) = Done ((), s) →
  lru_slot s = Some t →
  keyf (heap s) t = Some kt →
  least_recently_touched (history ops (init c ev w)) (cacheMap (lruc s)) = Some kt.
Proof.
  intros Hev Hkeys Hrun Ht Hkt.
  destruct (run_tracks ops (init c ev w) [] s) as ([ls Hwf] & Hnd & Hks); try done.
  - exists []. apply init_WF.
  - split; [constructor|done].
  - destruct (WF_lru_slot_inv _ _ _ Hwf Ht) as [R ->].
    apply (WF_key_order _ _ _ Hwf) in Hks.
    apply Forall2_app_inv_l in Hks as (Ks & K2 & HKs & HK2 & Heq).
    apply Forall2_cons_inv_l in HK2 as (kt' & K3 & Hkt' & HK3 & ->).
    apply Forall2_nil_inv_l in HK3 as ->.
    assert (kt' = kt) as -> by congruence.
    unfold least_recently_touched, recency. rewrite Heq. apply last_snoc.
Qed.

(** * The claims *)

(** C2 (amended): when [Set_] of an absent key, at capacity, runs an
    eviction callback that fails, a following [Get] of the key held by
    the eviction candidate succeeds with that key's original value
    provided the key equals itself; when it is a NaN key that [Get], like
    every [Get] of a NaN key, fails with the key-not-found error.  A
    following [Get] of the new key fails with the key-not-found
    error. *)
Theorem Get_after_failed_eviction s k v f t kt vt err w' :
  Coherent s →
  cacheMap (lruc s) !! k = None →
  ¬ (Z.of_nat (size (cacheMap (lruc s))) < cap (lruc s))%Z →
  evict (lruc s) = Some f →
  lru_slot s = Some t →
  keyf (heap s) t = Some kt →
  valf (heap s) t = Some vt →
  f vt (world s) = (Some err, w') →
  ∃ s1,
    Set_ k v s = Done (Some err, s1) ∧
    (nan kt = false → cacheMap (lruc s) !! kt = Some (Some t)) ∧
    Get kt s1 = Done (if nan kt then (None, Some (Errorf "key doesn't hit"))
                      else (Some vt, None), s1) ∧
    Get k s1 = Done ((None, Some (Errorf "key doesn't hit")), s1).
Proof.
  intros [ls Hco] Hk Hfull Hf Ht Hkt Hvt Hcall.
  destruct (co_lru_slot_inv _ _ _ Hco Ht) as [R ->].
  assert (Hev : run_evict (lruc s) vt (world s) = (Some err, w', [Evicted vt])).
  { unfold run_evict. by rewrite Hf, Hcall. }
  destruct (co_Set_full s R t k v kt vt Hco Hk Hfull Hkt Hvt _ _ _ Hev)
    as [Hrun Hco1].
  destruct (co_slot s _ t Hco) as (kt' & Hkt' & Hmt).
  { apply elem_of_app. right. by left. }
  assert (kt' = kt) as -> by congruence.
  exists (evict_failed s t w' [Evicted vt]). split_and!; [done|done| |].
  - destruct (nan kt) eqn:Hnan.
    + apply Get_miss. by apply gomap_lookup_nan.
    + destruct (co_Get_hit _ _ kt t Hco1 (Hmt eq_refl))
        as (v1 & s2 & Hget & Hv1 & _ & _ & _ & Hid).
      rewrite Hid in Hget by done. simpl in Hv1.
      assert (v1 = vt) as -> by congruence. done.
  - by apply Get_miss.
Qed.





(** C9: [NewLRUList] builds a store for any capacity, without a guard;
    when the capacity is not positive, [Set_] on the new, empty store
    reads [lruc.cache.prev] through the nil head and panics. *)
Theorem Set_on_nonpositive_cap_panics c ev w k v :
  (c ≤ 0)%Z →
  lruc (init c ev w) = mkLRUList c ∅ None ev ∧
  Set_ k v (init c ev w) = Panic.
Proof.
  intros Hc. split; [done|].
  unfold Set_. rewrite bind_get_lruc.
  change (cacheMap (lruc (init c ev w))) with (∅ : gomap).
  rewrite gomap_lookup_empty, gomap_size_empty.
  rewrite decide_False; [done|]. simpl. lia.
Qed.



(** * Further properties of the operations *)

(** ** [Set_] and well-formed stores *)

(** [Set_] keeps a store well formed, unless it stores a NaN key. *)
Lemma Set_keeps_WF s k v e s' :
  WF s →
  nan k = false ∨ is_Some e →
  Set_ k v s = Done (e, s') →
  WF s'.
Proof.
  intros [ls Hwf] Hcase Hrun.
  destruct (cacheMap (lruc s) !! k) as [item|] eqn:Hk.
  - destruct (WF_lookup _ _ _ _ Hwf Hk) as (l & -> & _).
    destruct (Set_present s ls k v l Hwf Hk) as (s1 & Hrun1 & Hwf1 & _).
    exists (promote l ls). congruence.
  - destruct (decide (Z.of_nat (size (cacheMap (lruc s))) < cap (lruc s))%Z)
      as [Hlt|Hge].
    + destruct (co_Set_insert s ls k v (WF_Coherent _ _ Hwf) Hk Hlt)
        as (s1 & Hrun1 & _).
      assert (e = None) as -> by congruence.
      destruct Hcase as [Hnan|[? ?]]; [|done].
      destruct (Set_insert s ls k v Hwf Hnan Hk Hlt) as (s2 & Hrun2 & Hwf2 & _).
      exists (fresh (dom (heap s)) :: ls). congruence.
    + destruct (last ls) as [t|] eqn:Hlast.
      * apply last_Some in Hlast as [R ->].
        destruct (WF_slot s _ t Hwf) as (kt & Hkt & _).
        { apply elem_of_app. right. by left. }
        destruct (WF_alloc s _ t Hwf) as [nt Hnt].
        { apply elem_of_app. right. by left. }
        assert (Hvt : valf (heap s) t = Some (val nt)).
        { unfold valf. by rewrite Hnt. }
        destruct (run_evict (lruc s) (val nt) (world s)) as [[e1 w'] evs] eqn:Hev.
        pose proof (Set_full s R t k v kt _ Hwf Hk Hge Hkt Hvt e1 w' evs Hev) as Hfull.
        exists (t :: R).
        destruct e1 as [err|]; destruct Hfull as [Hrun1 Hwf1]; [congruence|].
        assert (e = None) as -> by congruence.
        destruct Hcase as [Hnan|[? ?]]; [|done].
        specialize (Hwf1 Hnan). congruence.
      * apply last_None in Hlast as ->.
        pose proof (wf_head _ _ Hwf) as Hc. simpl in Hc.
        exfalso. revert Hrun.
        unfold Set_. rewrite bind_get_lruc, Hk, decide_False by done.
        by rewrite Hc.
Qed.

(** ** Reading back what was written *)

Lemma Get_head s k l v :
  cacheMap (lruc s) !! k = Some (Some l) →
  cache (lruc s) = Some l →
  valf (heap s) l = Some v →
  Get k s = Done ((Some v, None), s).
Proof.
  intros Hk Hc Hv. unfold valf in Hv.
  destruct (heap s !! l) as [nd|] eqn:Hl; [|done]. injection Hv as Hv.
  unfold Get. rewrite bind_get_lruc, Hk.
  destruct (decide (Some l = cache (lruc s))) as [_|Hne]; [|by rewrite Hc in Hne].
  rewrite bind_ret, bind_get_lruc, Hc, (bind_deref _ _ _ _ Hl). by rewrite Hv.
Qed.

Lemma Set_head s k l v :
  cacheMap (lruc s) !! k = Some (Some l) →
  cache (lruc s) = Some l →
  valf (heap s) l = Some v →
  Set_ k v s = Done (None, s).
Proof.
  intros Hk Hc Hv. unfold valf in Hv.
  destruct (heap s !! l) as [nd|] eqn:Hl; [|done]. injection Hv as Hv.
  unfold Set_. rewrite bind_get_lruc, Hk.
  destruct (decide (Some l = cache (lruc s))) as [_|Hne]; [|by rewrite Hc in Hne].
  rewrite bind_ret, bind_get_lruc, Hc.
  rewrite bind_assign by (by rewrite Hl). unfold ret. do 2 f_equal.
  assert (Hh : alter (set_val v) l (heap s) = heap s).
  { apply map_eq. intros b. rewrite lookup_alter_node. case_decide; [|done].
    subst b. rewrite Hl. simpl. f_equal. destruct nd; simpl in *. by subst. }
  unfold with_heap. rewrite Hh. by destruct s.
Qed.

(** What a [Set_] that returns no error leaves behind: the head slot
    holds the key and the value, and the key, when it equals itself, is
    indexed at that slot. *)
Lemma Set_result s ls k v s' :
  Coherent_at s ls →
  Set_ k v s = Done (None, s') →
  ∃ ls' l,
    Coherent_at s' ls' ∧
    cache (lruc s') = Some l ∧
    keyf (heap s') l = Some k ∧
    valf (heap s') l = Some v ∧
    (nan k = false → cacheMap (lruc s') !! k = Some (Some l)).
Proof.
  intros Hco Hrun.
  assert (Hgen : ∃ ls' l, Coherent_at s' ls' ∧ cache (lruc s') = Some l ∧
                          keyf (heap s') l = Some k ∧ valf (heap s') l = Some v).
  { destruct (co_Set_cases s ls k v Hco)
      as [(l & s1 & Hk & Hrun1 & Hco1 & Hl & _ & _ & Hkeys & Hv & _)
         |[(s1 & Hk & Hlt & Hrun1 & Hco1 & Hl & _ & _ & Hkx & Hv & _)
         |[(_ & _ & _ & Hpanic)
          |(R & t & kt & vt & e & w' & evs & Hk & Hge & -> & Hkt & Hvt & Hmt
              & Hev & Hres)]]].
    - assert (s1 = s') as -> by congruence.
      destruct (co_lookup _ _ _ _ Hco Hk) as (? & [= <-] & _ & Hkl).
      exists (promote l ls), l. rewrite Hl, Hkeys. done.
    - assert (s1 = s') as -> by congruence.
      exists (fresh (dom (heap s)) :: ls), (fresh (dom (heap s))).
      rewrite Hl. done.
    - congruence.
    - destruct e as [err|]; destruct Hres as [Hrun1 Hco1]; [congruence|].
      assert (replaced s t kt k v w' evs = s') as <- by congruence.
      destruct (co_alloc _ _ t Hco) as [nd Hnd].
      { apply elem_of_app. right. by left. }
      exists (t :: R), t. split_and!; [done|done| |]; simpl.
      + rewrite keyf_keep by done. apply keyf_set_key_eq. by rewrite Hnd.
      + unfold valf. by rewrite lookup_alter_eq, lookup_alter_eq, Hnd. }
  destruct Hgen as (ls' & l & Hco' & Hc & Hkl & Hvl).
  exists ls', l. split_and!; try done. intros Hnan.
  destruct (co_slot s' ls' l Hco') as (k' & Hk' & Hm).
  { pose proof (co_head _ _ Hco') as Hhd. rewrite Hc in Hhd.
    symmetry in Hhd. by apply head_Some_elem_of. }
  assert (k' = k) as -> by congruence. by apply Hm.
Qed.

(** X4: after a [Set_] of a key and a value that returns no error, a
    [Get] of that key returns that value with no error and changes
    nothing more, provided the key equals itself; for a NaN key the
    [Get] reports that the key is not found.  This holds whatever keys
    the store was given before. *)
Theorem Set_then_Get s k v s' :
  Coherent s →
  Set_ k v s = Done (None, s') →
  Get k s' = Done (if nan k then (None, Some (Errorf "key doesn't hit"))
                   else (Some v, None), s') ∧
  Coherent s' ∧
  (WF s → nan k = false → WF s').
Proof.
  intros [ls Hco] Hrun.
  destruct (Set_result s ls k v s' Hco Hrun) as (ls' & l & Hco' & Hc & _ & Hv & Hk).
  split_and!.
  - destruct (nan k) eqn:Hnan.
    + apply Get_miss. by apply gomap_lookup_nan.
    + by apply (Get_head s' k l v); [apply Hk|..].
  - by exists ls'.
  - intros Hwf Hnan. apply (Set_keeps_WF s k v None s'); [done|by left|done].
Qed.

(** X5: a [Set_] of a key that equals itself which returned no error,
    repeated with the same key and value, returns no error again and
    leaves the state exactly as it is: the eviction callback is not
    called again. *)
Theorem Set_twice_is_Set_once s k v s' :
  Coherent s →
  nan k = false →
  Set_ k v s = Done (None, s') →
  Set_ k v s' = Done (None, s') ∧
  (Set_ k v ;;; Set_ k v) s = Set_ k v s.
Proof.
  intros [ls Hco] Hnan Hrun.
  destruct (Set_result s ls k v s' Hco Hrun) as (ls' & l & Hco' & Hc & _ & Hv & Hk).
  pose proof (Set_head s' k l v (Hk Hnan) Hc Hv) as Hrun'.
  split; [done|]. by rewrite (bind_run _ _ _ _ _ Hrun), Hrun.
Qed.

(** ** The contents of the store *)

Lemma peek_hit s ls k l :
  Coherent_at s ls →
  cacheMap (lruc s) !! k = Some (Some l) →
  peek s k = valf (heap s) l ∧ is_Some (valf (heap s) l).
Proof.
  intros Hco Hk. unfold peek. rewrite Hk. simpl. split; [done|].
  destruct (co_lookup _ _ _ _ Hco Hk) as (l' & [= <-] & Hl & _).
  unfold valf. apply fmap_is_Some. eauto using co_alloc.
Qed.

Lemma peek_miss s k : cacheMap (lruc s) !! k = None → peek s k = None.
Proof. intros Hk. unfold peek. by rewrite Hk. Qed.

(** The value under a key only depends on the key's index entry and on
    the value in its slot. *)
Lemma peek_frame s s' k :
  cacheMap (lruc s') !! k = cacheMap (lruc s) !! k →
  (∀ l, cacheMap (lruc s) !! k = Some (Some l) →
        valf (heap s') l = valf (heap s) l) →
  peek s' k = peek s k.
Proof.
  intros Hm Hv. unfold peek. rewrite Hm.
  destruct (cacheMap (lruc s) !! k) as [[l|]|] eqn:Hk; simpl; [|done..].
  by apply Hv.
Qed.

(** X6: on a well-formed store [Get] returns the value the index and
    the heap hold for the key, with no error, or no value and the
    key-not-found error when there is none; either way it leaves the
    value held for every key, the log of callback calls and the world
    as they were. *)
Theorem Get_reads_and_keeps_contents s k :
  WF s →
  ∃ s',
    Get k s = Done ((peek s k,
                     match peek s k with
                     | Some _ => None
                     | None => Some (Errorf "key doesn't hit")
                     end), s') ∧
    (is_Some (peek s k) ↔ is_Some (cacheMap (lruc s) !! k)) ∧
    (∀ k', peek s' k' = peek s k') ∧
    log s' = log s ∧
    world s' = world s ∧
    WF s'.
Proof.
  intros [ls Hwf]. destruct (cacheMap (lruc s) !! k) as [item|] eqn:Hk.
  - destruct (WF_lookup _ _ _ _ Hwf Hk) as (l & -> & _).
    destruct (Get_hit s ls k l Hwf Hk) as (v & s' & Hrun & Hv & Hwf' & _ & Hsame & _).
    destruct (peek_hit _ _ _ _ (WF_Coherent _ _ Hwf) Hk) as [Hpeek _].
    rewrite Hpeek, Hv.
    exists s'. split_and!; [done|by split; eauto| |apply Hsame..|by eexists].
    intros k'. apply (peek_frame s s'); [by rewrite (same_cacheMap _ _ Hsame)|].
    intros l' _. apply Hsame.
  - rewrite (peek_miss _ _ Hk). exists s.
    split_and!; [by apply Get_miss| |done..|by exists ls].
    split; by intros [? ?].
Qed.

(** X7: a [Set_] of [k] that returns no error leaves [k], when [k]
    equals itself, holding the new value (a NaN key holds nothing), and
    every other key holding what it held, except the one key that was
    evicted: the key of the eviction candidate, when [k] was absent and
    the store at capacity.  A [Set_] that returns an error leaves what
    every key holds as it was.  This holds whatever keys the store was
    given before. *)
Theorem Set_keeps_other_keys s k v e s' :
  Coherent s →
  Set_ k v s = Done (e, s') →
  match e with
  | None =>
      peek s' k = (if nan k then None else Some v) ∧
      ∀ k', k' ≠ k →
        peek s' k' = peek s k' ∨
        (peek s' k' = None ∧
         cacheMap (lruc s) !! k = None ∧
         ¬ (Z.of_nat (size (cacheMap (lruc s))) < cap (lruc s))%Z ∧
         ∃ t, lru_slot s = Some t ∧ keyf (heap s) t = Some k')
  | Some _ => ∀ k', peek s' k' = peek s k'
  end.
Proof.
  intros [ls Hco] Hrun.
  assert (Hpeek : e = None → peek s' k = if nan k then None else Some v).
  { intros ->.
    destruct (Set_result s ls k v s' Hco Hrun) as (ls' & l & _ & _ & _ & Hv & Hk).
    destruct (nan k) eqn:Hnan.
    - apply peek_miss. by apply gomap_lookup_nan.
    - unfold peek. by rewrite Hk. }
  destruct (co_Set_cases s ls k v Hco)
    as [(l & s1 & Hk & Hrun1 & Hco1 & Hl & _ & _ & Hkeys & Hv & Hvs)
       |[(s1 & Hk & Hlt & Hrun1 & Hco1 & Hl & _ & _ & Hkx & Hvx & Hkeys & Hvs)
       |[(_ & _ & _ & Hpanic)
        |(R & t & kt & vt & e1 & w' & evs & Hk & Hge & -> & Hkt & Hvt & Hmt
            & Hev & Hres)]]].
  - assert (e = None ∧ s1 = s') as [-> ->] by (split; congruence).
    destruct (co_lookup _ _ _ _ Hco Hk) as (? & [= <-] & _ & Hkl).
    split; [by apply Hpeek|].
    intros k' Hne. left. apply (peek_frame s s'); [by rewrite Hl|].
    intros l' Hk'. apply Hvs. intros ->.
    destruct (co_lookup _ _ _ _ Hco Hk') as (? & [= <-] & _ & Hkl').
    congruence.
  - assert (e = None ∧ s1 = s') as [-> ->] by (split; congruence).
    split; [by apply Hpeek|].
    intros k' Hne. left. apply (peek_frame s s').
    + rewrite Hl. simpl. by rewrite gomap_lookup_insert_ne.
    + intros l' Hk'. apply Hvs. intros ->.
      destruct (co_lookup _ _ _ _ Hco Hk') as (? & [= <-] & Hin & _).
      by apply (co_fresh_not_slot _ _ Hco).
  - congruence.
  - destruct e1 as [err|]; destruct Hres as [Hrun1 Hco1].
    + assert (e = Some err ∧ evict_failed s t w' evs = s') as [-> <-]
        by (split; congruence).
      intros k'. by apply (peek_frame s _).
    + assert (e = None ∧ replaced s t kt k v w' evs = s') as [-> <-]
        by (split; congruence).
      split; [by apply Hpeek|].
      intros k' Hne. destruct (decide (k' = kt)) as [->|Hnekt].
      * right. split_and!; [|done..|].
        -- unfold peek. simpl.
           by rewrite gomap_lookup_insert_ne, gomap_lookup_delete_eq.
        -- exists t. split; [by apply (co_lru_slot _ R)|done].
      * left. apply (peek_frame s _).
        -- simpl. by rewrite gomap_lookup_insert_ne, gomap_lookup_delete_ne.
        -- intros l' Hk'. simpl.
           destruct (co_lookup _ _ _ _ Hco Hk') as (? & [= <-] & _ & Hkl').
           assert (t ≠ l') by (intros ->; congruence).
           unfold valf. by rewrite !lookup_alter_ne.
Qed.

(** ** Eviction *)

(** X8: at capacity, a [Set_] of an absent key that returns no error
    reuses the slot of the eviction candidate: no node is allocated, the
    index becomes the old one with the candidate's key deleted and the
    new key stored at that slot, the slot becomes the head and holds the
    new key and value, and a [Get] of the candidate's key then fails.
    [len(cacheMap)] is unchanged when the candidate's key equals itself;
    when it is a NaN key the deletion removes nothing and
    [len(cacheMap)] grows by one. *)
Theorem Set_replaces_candidate_in_place s k v t kt s' :
  Coherent s →
  cacheMap (lruc s) !! k = None →
  ¬ (Z.of_nat (size (cacheMap (lruc s))) < cap (lruc s))%Z →
  lru_slot s = Some t →
  keyf (heap s) t = Some kt →
  Set_ k v s = Done (None, s') →
  dom (heap s') = dom (heap s) ∧
  cacheMap (lruc s') = <[k := Some t]> (delete kt (cacheMap (lruc s))) ∧
  size (cacheMap (lruc s'))
    = (if nan kt then S (size (cacheMap (lruc s))) else size (cacheMap (lruc s))) ∧
  cache (lruc s') = Some t ∧
  keyf (heap s') t = Some k ∧
  valf (heap s') t = Some v ∧
  Get kt s' = Done ((None, Some (Errorf "key doesn't hit")), s').
Proof.
  intros [ls Hco] Hk Hfull Ht Hkt Hrun.
  destruct (co_Set_cases s ls k v Hco)
    as [(l & s1 & Hk1 & _)
       |[(s1 & _ & Hlt & _)
       |[(_ & _ & _ & Hpanic)
        |(R & t' & kt' & vt & e & w' & evs & _ & _ & -> & Hkt' & Hvt & Hmt
            & Hev & Hres)]]];
    [congruence|done|congruence|].
  rewrite (co_lru_slot _ _ _ Hco) in Ht. injection Ht as ->.
  assert (kt' = kt) as -> by congruence.
  destruct e as [err|]; destruct Hres as [Hrun1 Hco1]; [congruence|].
  assert (replaced s t kt k v w' evs = s') as <- by congruence.
  destruct (co_alloc _ _ t Hco) as [nd Hnd].
  { apply elem_of_app. right. by left. }
  assert (Hdk : delete kt (cacheMap (lruc s)) !! k = None).
  { destruct (decide (kt = k)) as [->|Hne].
    - apply gomap_lookup_delete_eq.
    - by rewrite gomap_lookup_delete_ne. }
  split_and!; try done.
  - simpl. by rewrite !dom_alter_L.
  - simpl. rewrite gomap_size_insert by done. destruct (nan kt) eqn:Hnan.
    + by rewrite gomap_delete_nan.
    + by rewrite (gomap_size_delete_Some _ _ _ (Hmt eq_refl)).
  - simpl. rewrite keyf_keep by done. apply keyf_set_key_eq. by rewrite Hnd.
  - simpl. unfold valf. by rewrite lookup_alter_eq, lookup_alter_eq, Hnd.
  - apply Get_miss. simpl. destruct (nan kt) eqn:Hnan.
    + by apply gomap_lookup_nan.
    + assert (k ≠ kt) by (intros ->; rewrite Hmt in Hk; done).
      by rewrite gomap_lookup_insert_ne, gomap_lookup_delete_eq.
Qed.

(** X9: [Set_] calls the eviction callback exactly when the key is
    absent, the store is at capacity and not empty, and there is a
    callback: then it calls it once, on the value of the eviction
    candidate, and returns what the callback returns.  In every other
    case in which it returns, it returns no error and leaves the log of
    calls and the world as they were.  It does not return only when the
    key is absent and the store is at capacity and empty: then it
    panics on [lruc.cache.prev], before the callback is looked at. *)
Theorem Set_calls_evict_exactly_when_full s k v :
  Coherent s →
  match Set_ k v s with
  | Done (e, s') =>
      match cacheMap (lruc s) !! k, evict (lruc s) with
      | None, Some f =>
          if decide (Z.of_nat (size (cacheMap (lruc s))) < cap (lruc s))%Z
          then e = None ∧ log s' = log s ∧ world s' = world s
          else ∃ t vt, lru_slot s = Some t ∧ valf (heap s) t = Some vt ∧
                       log s' = log s ++ [Evicted vt] ∧
                       (e, world s') = f vt (world s)
      | _, _ => e = None ∧ log s' = log s ∧ world s' = world s
      end
  | Panic =>
      cacheMap (lruc s) !! k = None ∧
      ¬ (Z.of_nat (size (cacheMap (lruc s))) < cap (lruc s))%Z ∧
      cache (lruc s) = None
  | OutOfFuel => False
  end.
Proof.
  intros [ls Hco].
  destruct (co_Set_cases s ls k v Hco)
    as [(l & s1 & Hk & Hrun1 & _ & _ & Hw & Hlog & _)
       |[(s1 & Hk & Hlt & Hrun1 & _ & _ & Hw & Hlog & _)
       |[(Hk & Hge & -> & Hpanic)
        |(R & t & kt & vt & e1 & w' & evs & Hk & Hge & -> & Hkt & Hvt & Hmt
            & Hev & Hres)]]].
  - by rewrite Hrun1, Hk.
  - rewrite Hrun1, Hk.
    destruct (evict (lruc s)); [rewrite decide_True by done|]; done.
  - rewrite Hpanic. split_and!; [done..|]. by rewrite (co_head _ _ Hco).
  - assert (Hrun : Set_ k v s
                   = Done (e1, mkState (heap (match e1 with
                                              | Some _ => evict_failed s t w' evs
                                              | None => replaced s t kt k v w' evs
                                              end))
                                 (lruc (match e1 with
                                        | Some _ => evict_failed s t w' evs
                                        | None => replaced s t kt k v w' evs
                                        end))
                                 w' (log s ++ evs))).
    { by destruct e1 as [err|]; destruct Hres as [Hrun1 _]. }
    rewrite Hrun, Hk. simpl. unfold run_evict in Hev.
    destruct (evict (lruc s)) as [f|].
    + rewrite decide_False by done. exists t, vt.
      destruct (f vt (world s)) as [e2 w2]. injection Hev as <- <- <-.
      split_and!; [by apply (co_lru_slot _ R)|done..].
    + injection Hev as <- <- <-. by rewrite app_nil_r.
Qed.

(** X10: [Set_] always returns, unless the store is empty and its
    capacity is not positive: exactly then it panics, reading
    [lruc.cache.prev] through the nil head.  When it returns, the
    invariant with keys of any kind holds again, and a well-formed
    store stays well formed unless a NaN key was stored. *)
Theorem Set_panics_iff_empty_without_room s k v :
  Coherent s →
  (Set_ k v s = Panic ↔ cache (lruc s) = None ∧ (cap (lruc s) ≤ 0)%Z) ∧
  (Set_ k v s ≠ Panic →
   ∃ e s', Set_ k v s = Done (e, s') ∧ Coherent s' ∧
           (WF s → nan k = false ∨ is_Some e → WF s')).
Proof.
  intros [ls Hco].
  pose proof (co_head _ _ Hco) as Hc. pose proof (co_len _ _ Hco) as Hlen.
  assert (Hdone : ∀ e s', Set_ k v s = Done (e, s') → Coherent s' →
            (Set_ k v s = Panic ↔ False) ∧
            (Set_ k v s ≠ Panic →
             ∃ e s', Set_ k v s = Done (e, s') ∧ Coherent s' ∧
                     (WF s → nan k = false ∨ is_Some e → WF s'))).
  { intros e s' Hrun Hco'. rewrite Hrun. split; [done|]. intros _.
    exists e, s'. split_and!; [done..|]. intros Hwf Hcase.
    by apply (Set_keeps_WF s k v e s'). }
  assert (Hne : ls ≠ [] → ¬ (cache (lruc s) = None ∧ (cap (lruc s) ≤ 0)%Z)).
  { intros Hls [Hnil _]. rewrite Hnil in Hc. symmetry in Hc.
    by apply head_None in Hc. }
  destruct (co_Set_cases s ls k v Hco)
    as [(l & s1 & Hk & Hrun1 & Hco1 & _)
       |[(s1 & Hk & Hlt & Hrun1 & Hco1 & _)
       |[(Hk & Hge & -> & Hpanic)
        |(R & t & kt & vt & e1 & w' & evs & Hk & Hge & -> & Hkt & Hvt & Hmt
            & Hev & Hres)]]].
  - destruct (Hdone None s1 Hrun1) as [Hiff Hret]; [by eexists|].
    split; [|done]. rewrite Hiff. split; [done|]. apply Hne.
    destruct (co_lookup _ _ _ _ Hco Hk) as (? & _ & Hin & _).
    intros ->. by apply elem_of_nil in Hin.
  - destruct (Hdone None s1 Hrun1) as [Hiff Hret]; [by eexists|].
    split; [|done]. rewrite Hiff. split; [done|]. intros [_ Hcap]. lia.
  - rewrite Hpanic. split; [|done]. split; [|done]. intros _.
    split; [done|]. rewrite (co_nil _ _ Hco) in Hge by done. simpl in Hge. lia.
  - assert (Hrun : ∃ e s', Set_ k v s = Done (e, s') ∧ Coherent s').
    { destruct e1 as [err|]; destruct Hres as [Hrun1 Hco1];
        eexists _, _; (split; [exact Hrun1|by eexists]). }
    destruct Hrun as (e & s' & Hrun & Hco').
    destruct (Hdone e s' Hrun Hco') as [Hiff Hret].
    split; [|done]. rewrite Hiff. split; [done|]. apply Hne. by destruct R.
Qed.

(** ** Insertions below capacity and the order of traversal *)

Lemma keys_of_order s ls ks :
  order s = Some ls →
  key_order s = Some ks ↔ Forall2 (λ l k, keyf (heap s) l = Some k) ls ks.
Proof. intros Ho. unfold key_order. rewrite Ho. apply mapM_Some. Qed.

Lemma values_of_order s ls vs :
  order s = Some ls →
  values s = Some vs ↔ Forall2 (λ l v, valf (heap s) l = Some v) ls vs.
Proof. intros Ho. unfold values. rewrite Ho. apply mapM_Some. Qed.

(** With keys of any kind, the slots from the head are the recency order
    as long as the index has exactly as many entries as there are
    slots. *)
Lemma co_order s ls :
  Coherent_at s ls → length ls = size (cacheMap (lruc s)) → order s = Some ls.
Proof.
  intros [_ _ Hhd [_ Hseg] _ _] Hlen. unfold order. rewrite <-Hlen, Hhd.
  destruct ls as [|a ls]; [done|]. by apply (seg_walk _ _ a) in Hseg.
Qed.

Lemma vals_frame h h' ls vs :
  Forall2 (λ l v, valf h l = Some v) ls vs →
  (∀ b, b ∈ ls → valf h' b = valf h b) →
  Forall2 (λ l v, valf h' l = Some v) ls vs.
Proof.
  induction 1 as [|l v ls vs Hl Hls IH]; intros Hsame; constructor.
  - rewrite Hsame; [done|]. by left.
  - apply IH. intros b Hb. apply Hsame. by right.
Qed.

Lemma WF_values_iff s ls vs :
  WF_at s ls →
  values s = Some vs ↔ Forall2 (λ l v, valf (heap s) l = Some v) ls vs.
Proof. intros Hwf. apply values_of_order. by apply WF_order. Qed.

Lemma sets_run kvs : ∀ s ls ks vs,
  Coherent_at s ls →
  length ls = size (cacheMap (lruc s)) →
  Forall2 (λ l k, keyf (heap s) l = Some k) ls ks →
  Forall2 (λ l v, valf (heap s) l = Some v) ls vs →
  NoDup kvs.*1 →
  (∀ k, k ∈ kvs.*1 → k ∉ ks) →
  (Z.of_nat (size (cacheMap (lruc s)) + length kvs) ≤ cap (lruc s))%Z →
  ∃ s' ls',
    run (sets kvs) s = Done ((), s') ∧
    Coherent_at s' ls' ∧
    length ls' = size (cacheMap (lruc s')) ∧
    Forall2 (λ l k, keyf (heap s') l = Some k) ls' (reverse kvs.*1 ++ ks) ∧
    Forall2 (λ l v, valf (heap s') l = Some v) ls' (reverse kvs.*2 ++ vs) ∧
    log s' = log s ∧
    world s' = world s.
Proof.
  induction kvs as [|[k v] kvs IH]; intros s ls ks vs Hco Hlen Hks Hvs Hnd Hnew Hcap.
  - exists s, ls. by split_and!.
  - simpl in *. apply NoDup_cons in Hnd as [Hk Hnd].
    assert (Hmiss : cacheMap (lruc s) !! k = None).
    { apply eq_None_not_Some. intros [item Hitem].
      destruct (co_lookup _ _ _ _ Hco Hitem) as (l & _ & Hl & Hkl).
      apply list_elem_of_lookup in Hl as [i Hi].
      destruct (Forall2_lookup_l _ _ _ _ _ Hks Hi) as (k' & Hk' & Hkl').
      assert (k' = k) as -> by congruence.
      apply (Hnew k); [by left|]. apply list_elem_of_lookup. by exists i. }
    assert (Hlt : (Z.of_nat (size (cacheMap (lruc s))) < cap (lruc s))%Z) by lia.
    destruct (co_Set_insert s ls k v Hco Hmiss Hlt)
      as (s1 & Hrun & Hco1 & Hl & Hw & Hlog & Hkx & Hvx & Hkeys & Hvals).
    assert (Hfresh : ∀ b, b ∈ ls → b ≠ fresh (dom (heap s))).
    { intros b Hb ->. by apply (co_fresh_not_slot _ _ Hco). }
    assert (Hsize1 : size (cacheMap (lruc s1)) = S (size (cacheMap (lruc s)))).
    { rewrite Hl. simpl. by rewrite gomap_size_insert. }
    assert (Hlen1 : length (fresh (dom (heap s)) :: ls) = size (cacheMap (lruc s1))).
    { simpl. by rewrite Hsize1, Hlen. }
    assert (Hks1 : Forall2 (λ l k, keyf (heap s1) l = Some k)
                     (fresh (dom (heap s)) :: ls) (k :: ks)).
    { constructor; [done|]. apply (keys_frame (heap s)); [done|].
      intros b Hb. by apply Hkeys, Hfresh. }
    assert (Hvs1 : Forall2 (λ l v, valf (heap s1) l = Some v)
                     (fresh (dom (heap s)) :: ls) (v :: vs)).
    { constructor; [done|]. apply (vals_frame (heap s)); [done|].
      intros b Hb. by apply Hvals, Hfresh. }
    assert (Hnew1 : ∀ k', k' ∈ kvs.*1 → k' ∉ k :: ks).
    { intros k' Hk' [->|Hin]%elem_of_cons; [done|].
      apply (Hnew k'); [by right|done]. }
    assert (Hcap1 : (Z.of_nat (size (cacheMap (lruc s1)) + length kvs)
                     ≤ cap (lruc s1))%Z).
    { rewrite Hsize1, Hl. simpl. lia. }
    destruct (IH s1 _ (k :: ks) (v :: vs) Hco1 Hlen1 Hks1 Hvs1 Hnd Hnew1 Hcap1)
      as (s' & ls' & Hrun' & Hco' & Hlen' & Hks' & Hvs' & Hlog' & Hw').
    exists s', ls'. unfold sets in *. simpl.
    rewrite bind_bind, (bind_run _ _ _ _ _ Hrun), bind_ret.
    rewrite !reverse_cons, <-!app_assoc. simpl.
    split_and!; [done..|congruence|congruence].
Qed.

(** X11: on a new store, [Set_] of pairwise distinct keys, no more than
    the capacity, returns without calling the eviction callback and
    leaves the keys and values in the reverse of the order they were
    set; a [Traverse] then visits the values last set first, up to the
    first failure of [visit]. *)
Theorem sets_then_Traverse_visits_latest_first c ev w kvs fuel visit :
  NoDup kvs.*1 →
  (Z.of_nat (length kvs) ≤ c)%Z →
  length kvs ≤ S fuel →
  ∃ s e w' evs,
    run (sets kvs) (init c ev w) = Done ((), s) ∧
    key_order s = Some (reverse kvs.*1) ∧
    values s = Some (reverse kvs.*2) ∧
    log s = [] ∧
    world s = w ∧
    visit_all visit (reverse kvs.*2) w = (e, w', evs) ∧
    Traverse fuel visit s = Done (e, mkState (heap s) (lruc s) w' evs).
Proof.
  intros Hnd Hcap Hfuel.
  destruct (sets_run kvs (init c ev w) [] [] [])
    as (s & ls & Hrun & Hco & Hlen & Hks & Hvs & Hlog & Hw); try done.
  - apply WF_Coherent, init_WF.
  - intros k _ Hin. by apply elem_of_nil in Hin.
  - rewrite app_nil_r in Hks, Hvs. simpl in Hlog, Hw.
    pose proof (co_order _ _ Hco Hlen) as Ho.
    pose proof (co_Traverse_run s ls _ fuel visit Hco Hvs) as Htr.
    assert (Hlen' : length ls = length kvs).
    { apply Forall2_length in Hvs. by rewrite Hvs, length_reverse, length_fmap. }
    rewrite Hlen' in Htr. specialize (Htr Hfuel). rewrite Hw in Htr.
    destruct (visit_all visit (reverse kvs.*2) w) as [[e w'] evs] eqn:Hvisit.
    exists s, e, w', evs. split_and!; try done.
    + by apply (keys_of_order s ls).
    + by apply (values_of_order s ls).
    + rewrite Htr. unfold with_world. simpl. by rewrite Hlog.
Qed.

(** ** Allocation: no node is leaked *)

Lemma keeps_dom_ret {A} (a : A) : keeps_dom (ret a).
Proof. by intros s a' s' [= _ <-]. Qed.

Lemma keeps_dom_bind {A B} (m : M A) (k : A → M B) :
  keeps_dom m → (∀ a, keeps_dom (k a)) → keeps_dom (bind m k).
Proof.
  intros Hm Hk s b s'. unfold bind.
  destruct (m s) as [[a s1]| |] eqn:Hrun; [|done..].
  intros Hrun'. rewrite (Hk a _ _ _ Hrun'). by apply (Hm _ a).
Qed.

Lemma keeps_dom_deref p : keeps_dom (deref p).
Proof.
  intros s a s'. unfold deref. destruct p as [l|]; [|done].
  destruct (heap s !! l); [|done]. by intros [= _ <-].
Qed.

Lemma keeps_dom_assign p f : keeps_dom (assign p f).
Proof.
  intros s a s'. unfold assign. destruct p as [l|]; [|done].
  destruct (heap s !! l); [|done]. intros [= _ <-]. simpl. apply dom_alter_L.
Qed.

Lemma keeps_dom_get_lruc : keeps_dom get_lruc.
Proof. by intros s a s' [= _ <-]. Qed.

Lemma keeps_dom_set_cache p : keeps_dom (set_cache p).
Proof. by intros s a s' [= _ <-]. Qed.

Lemma keeps_dom_set_cacheMap m : keeps_dom (set_cacheMap m).
Proof. by intros s a s' [= _ <-]. Qed.

Lemma keeps_dom_call tag f v : keeps_dom (call tag f v).
Proof.
  intros s a s'. unfold call. destruct (f v (world s)). by intros [= _ <-].
Qed.

Ltac keeps_dom_step :=
  first
    [ apply keeps_dom_ret | apply keeps_dom_deref | apply keeps_dom_assign
    | apply keeps_dom_get_lruc | apply keeps_dom_set_cache
    | apply keeps_dom_set_cacheMap | apply keeps_dom_call
    | apply keeps_dom_bind; [|intros ?]
    | match goal with
      | |- keeps_dom (match ?x with _ => _ end) => destruct x
      end ].

Lemma keeps_dom_move_to_head item : keeps_dom (move_to_head item).
Proof. unfold move_to_head, unlink, link_before_head. repeat keeps_dom_step. Qed.

Lemma keeps_dom_Get k : keeps_dom (Get k).
Proof.
  unfold Get. repeat first [apply keeps_dom_move_to_head | keeps_dom_step].
Qed.

(** [Set_] allocates one node when the key is absent and the store is
    below capacity, and none otherwise. *)
Lemma Set_dom_alloc s k v e s' :
  cacheMap (lruc s) !! k = None →
  (Z.of_nat (size (cacheMap (lruc s))) < cap (lruc s))%Z →
  Set_ k v s = Done (e, s') →
  dom (heap s') = {[fresh (dom (heap s))]} ∪ dom (heap s).
Proof.
  intros Hk Hlt. unfold Set_. rewrite bind_get_lruc, Hk.
  destruct (decide (Z.of_nat (size (cacheMap (lruc s))) < cap (lruc s))%Z); [|done].
  unfold bind at 1, alloc. intros Hrun.
  assert (Hkeep : ∀ (m : M (option E)) s0, keeps_dom m →
            m s0 = Done (e, s') → dom (heap s') = dom (heap s0)).
  { intros m s0 Hm. apply Hm. }
  apply Hkeep in Hrun; [rewrite Hrun; simpl; apply dom_insert_L|].
  unfold link_before_head. repeat keeps_dom_step.
Qed.

Lemma Set_dom_keep s k v e s' :
  is_Some (cacheMap (lruc s) !! k) ∨
    ¬ (Z.of_nat (size (cacheMap (lruc s))) < cap (lruc s))%Z →
  Set_ k v s = Done (e, s') →
  dom (heap s') = dom (heap s).
Proof.
  intros Hcase. unfold Set_. rewrite bind_get_lruc.
  assert (Hkeep : ∀ (m : M (option E)), keeps_dom m →
            m s = Done (e, s') → dom (heap s') = dom (heap s)).
  { intros m Hm. apply Hm. }
  destruct (cacheMap (lruc s) !! k) as [item|] eqn:Hk.
  - apply Hkeep. repeat first [apply keeps_dom_move_to_head | keeps_dom_step].
  - destruct Hcase as [[? ?]|Hge]; [done|].
    destruct (decide (Z.of_nat (size (cacheMap (lruc s))) < cap (lruc s))%Z); [done|].
    apply Hkeep. repeat keeps_dom_step.
Qed.

(** Every allocated node is a slot of the cycle [ls], and there are no
    more slots than the capacity allows. *)
Lemma run_op_tight s ls o s' :
  Coherent_at s ls →
  (∀ l, is_Some (heap s !! l) → l ∈ ls) →
  (Z.of_nat (length ls) ≤ Z.max 0 (cap (lruc s)))%Z →
  run_op o s = Done ((), s') →
  ∃ ls',
    Coherent_at s' ls' ∧
    (∀ l, is_Some (heap s' !! l) → l ∈ ls') ∧
    (Z.of_nat (length ls') ≤ Z.max 0 (cap (lruc s')))%Z ∧
    cap (lruc s') = cap (lruc s) ∧
    (WF_at s ls → no_nan o → WF_at s' ls').
Proof.
  intros Hco Htight Hmax.
  destruct (co_ring _ _ Hco) as [Hnd _].
  destruct o as [k v|k|fuel visit]; simpl.
  - unfold bind at 1. destruct (Set_ k v s) as [[e s1]| |] eqn:Hrun; [|done..].
    intros [= <-].
    destruct (co_Set_cases s ls k v Hco)
      as [(l & s2 & Hk & Hrun1 & Hco1 & Hl & _)
         |[(s2 & Hk & Hlt & Hrun1 & Hco1 & Hl & _)
         |[(_ & _ & _ & Hpanic)
          |(R & t & kt & vt & e1 & w' & evs & Hk & Hge & -> & Hkt & Hvt & _ & Hev
              & Hres)]]].
    + assert (s2 = s1) as -> by congruence.
      assert (Hdom : dom (heap s1) = dom (heap s)).
      { apply (Set_dom_keep _ _ _ _ _ (or_introl (mk_is_Some _ _ Hk)) Hrun). }
      destruct (co_lookup _ _ _ _ Hco Hk) as (? & [= <-] & Hin & _).
      exists (promote l ls). rewrite Hl, promote_length by done.
      split_and!; [done| |done|done|].
      * intros b Hb. apply promote_elem; [done|]. apply Htight.
        apply elem_of_dom. rewrite <-Hdom. by apply elem_of_dom.
      * intros Hwf _.
        destruct (Set_present s ls k v l Hwf Hk) as (s3 & Hrun3 & Hwf3 & _).
        congruence.
    + assert (s2 = s1) as -> by congruence.
      pose proof (Set_dom_alloc _ _ _ _ _ Hk Hlt Hrun) as Hdom.
      exists (fresh (dom (heap s)) :: ls). rewrite Hl. simpl.
      split_and!; [done| | |done|].
      * intros b Hb. apply elem_of_dom in Hb. rewrite Hdom in Hb.
        apply elem_of_union in Hb as [Hb%elem_of_singleton|Hb]; [subst b; by left|].
        right. by apply Htight, elem_of_dom.
      * pose proof (co_len _ _ Hco). lia.
      * intros Hwf Hnan.
        destruct (Set_insert s ls k v Hwf Hnan Hk Hlt) as (s3 & Hrun3 & Hwf3 & _).
        congruence.
    + congruence.
    + pose proof (Set_dom_keep _ _ _ _ _ (or_intror Hge) Hrun) as Hdom.
      assert (Hco1 : Coherent_at s1 (t :: R) ∧ cap (lruc s1) = cap (lruc s)).
      { destruct e1; destruct Hres as [Hrun1 Hco1];
          rewrite Hrun1 in Hrun; injection Hrun as _ <-; done. }
      destruct Hco1 as [Hco1 Hcap].
      exists (t :: R). rewrite Hcap. split_and!; [done| | |done|].
      * intros b Hb.
        assert (Hin : b ∈ R ++ [t]).
        { apply Htight, elem_of_dom. rewrite <-Hdom. by apply elem_of_dom. }
        apply elem_of_app in Hin as [?|Hin%list_elem_of_singleton];
          [by right|subst b; by left].
      * rewrite length_app in Hmax. simpl in *. lia.
      * intros Hwf Hnan.
        pose proof (Set_full s R t k v kt vt Hwf Hk Hge Hkt Hvt _ _ _ Hev) as Hfull.
        destruct e1; destruct Hfull as [Hrun3 Hwf3]; [congruence|].
        specialize (Hwf3 Hnan). congruence.
  - unfold bind at 1. destruct (Get k s) as [[r s1]| |] eqn:Hrun; [|done..].
    intros [= <-]. pose proof (keeps_dom_Get k _ _ _ Hrun) as Hdom.
    destruct (cacheMap (lruc s) !! k) as [item|] eqn:Hk.
    + destruct (co_lookup _ _ _ _ Hco Hk) as (l & -> & Hl & _).
      destruct (co_Get_hit s ls k l Hco Hk) as (v & s2 & Hrun1 & _ & Hco1 & _ & Hsame & _).
      assert (s2 = s1) as -> by congruence.
      exists (promote l ls). rewrite (same_cap _ _ Hsame), promote_length by done.
      split_and!; [done| |done|done|].
      * intros b Hb. apply promote_elem; [done|]. apply Htight.
        apply elem_of_dom. rewrite <-Hdom. by apply elem_of_dom.
      * intros Hwf _.
        destruct (Get_hit s ls k l Hwf Hk) as (v3 & s3 & Hrun3 & _ & Hwf3 & _).
        congruence.
    + rewrite (Get_miss _ _ Hk) in Hrun. injection Hrun as _ <-. by exists ls.
  - unfold bind. destruct (Traverse fuel visit s) as [[e s1]| |] eqn:Hrun; try done.
    apply Traverse_frame in Hrun as [Hh Hl]. intros [= <-].
    exists ls. rewrite Hl, Hh. split_and!; [by apply (co_ext s)|done..|].
    intros Hwf _. by apply (WF_at_ext s).
Qed.

(** X12: in every state reached from a new store by public operations,
    whatever the keys, the nodes allocated are exactly the slots of the
    cycle: no node is leaked, and at capacity [Set_] reuses a slot
    instead of allocating.  There are never more nodes than the
    capacity, nor more than [len(cacheMap)]; when no [Set_] of the run
    was given a NaN key there are exactly [len(cacheMap)] nodes. *)
Theorem no_node_is_leaked c ev w ops s :
  run ops (init c ev w) = Done ((), s) →
  ∃ ls,
    Coherent_at s ls ∧
    (∀ l, is_Some (heap s !! l) ↔ l ∈ ls) ∧
    size (heap s) = length ls ∧
    (Z.of_nat (size (heap s)) ≤ Z.max 0 c)%Z ∧
    size (heap s) ≤ size (cacheMap (lruc s)) ∧
    (Forall no_nan ops → size (heap s) = size (cacheMap (lruc s))).
Proof.
  assert (Hgen : ∀ s0 ls0, Coherent_at s0 ls0 →
            (∀ l, is_Some (heap s0 !! l) → l ∈ ls0) →
            (Z.of_nat (length ls0) ≤ Z.max 0 (cap (lruc s0)))%Z →
            run ops s0 = Done ((), s) →
            ∃ ls, Coherent_at s ls ∧ (∀ l, is_Some (heap s !! l) → l ∈ ls) ∧
                  (Z.of_nat (length ls) ≤ Z.max 0 (cap (lruc s0)))%Z ∧
                  (WF_at s0 ls0 → Forall no_nan ops → WF_at s ls)).
  { induction ops as [|o ops IH]; intros s0 ls0 Hco Ht Hmax; simpl.
    - intros [= <-]. by exists ls0.
    - unfold bind at 1. destruct (run_op o s0) as [[[] s1]| |] eqn:Hrun; try done.
      destruct (run_op_tight _ _ _ _ Hco Ht Hmax Hrun)
        as (ls1 & Hco1 & Ht1 & Hmax1 & Hcap1 & Hwf1).
      intros Hrest.
      destruct (IH s1 ls1 Hco1 Ht1 Hmax1 Hrest) as (ls & Hco' & Ht' & Hmax' & Hwf').
      exists ls. rewrite <-Hcap1. split_and!; [done..|].
      intros Hwf0 [Ho Hkeys]%Forall_cons. apply Hwf'; [by apply Hwf1|done]. }
  intros Hrun.
  destruct (Hgen (init c ev w) []) as (ls & Hco & Ht & Hmax & Hwf); try done.
  - apply WF_Coherent, init_WF.
  - simpl. intros l [? Hl]. by rewrite lookup_empty in Hl.
  - simpl. lia.
  - assert (Hsize : size (heap s) = length ls).
    { destruct (co_ring _ _ Hco) as [Hnd _].
      rewrite <-size_dom, <-(size_list_to_set (C := gset nat) ls) by done.
      f_equal. apply set_eq. intros l.
      rewrite elem_of_dom, elem_of_list_to_set. split; [apply Ht|].
      by apply (co_alloc s ls). }
    exists ls. split_and!; [done| |done| | |].
    + intros l. split; [apply Ht|]. by apply (co_alloc s ls).
    + by rewrite Hsize.
    + rewrite Hsize. apply (co_len _ _ Hco).
    + intros Hkeys. rewrite Hsize. apply wf_len, Hwf; [apply init_WF|done].
Qed.

(** ** A visitor that never fails *)

Lemma visit_all_never_fails visit vs w :
  (∀ v w, (visit v w).1 = None) →
  visit_all visit vs w
  = (None, foldl (λ w v, (visit v w).2) w vs, Visited <$> vs).
Proof.
  intros Hok. revert w. induction vs as [|v vs IH]; intros w; simpl; [done|].
  specialize (Hok v w). destruct (visit v w) as [e w1]. simpl in *. subst e.
  by rewrite IH.
Qed.

(** X13: on a well-formed store, a [Traverse] whose [visit] never fails
    returns no error after calling [visit] once on every stored value,
    in recency order from the head, each call in the world the previous
    one left. *)
Theorem Traverse_visits_all s fuel visit :
  WF s →
  size (cacheMap (lruc s)) ≤ S fuel →
  (∀ v w, (visit v w).1 = None) →
  ∃ vs,
    values s = Some vs ∧
    length vs = size (cacheMap (lruc s)) ∧
    Traverse fuel visit s
    = Done (None, mkState (heap s) (lruc s)
                    (foldl (λ w v, (visit v w).2) (world s) vs)
                    (log s ++ (Visited <$> vs))).
Proof.
  intros [ls Hwf] Hfuel Hok.
  destruct (WF_values _ _ Hwf) as (vs & Hvals & Hvs).
  exists vs. split_and!; [done| |].
  - rewrite <-(wf_len _ _ Hwf). symmetry. by eapply Forall2_length.
  - rewrite (Traverse_run s ls vs fuel visit Hwf Hvals)
      by (by rewrite (wf_len _ _ Hwf)).
    by rewrite visit_all_never_fails.
Qed.

(** ** The store implements a list of entries *)

Lemma entryf_Some h l k v :
  entryf h l = Some (k, v) ↔ keyf h l = Some k ∧ valf h l = Some v.
Proof.
  unfold entryf, keyf, valf. destruct (h !! l) as [nd|]; simpl.
  - split; [by intros [= <- <-]|by intros [[= <-] [= <-]]].
  - split; [done|by intros [? _]].
Qed.

Lemma entries_frame h h' ls es :
  Forall2 (λ l e, entryf h l = Some e) ls es →
  (∀ b, b ∈ ls → keyf h' b = keyf h b ∧ valf h' b = valf h b) →
  Forall2 (λ l e, entryf h' l = Some e) ls es.
Proof.
  induction 1 as [|l [k v] ls es Hl Hls IH]; intros Hsame; constructor.
  - destruct (Hsame l) as [Hk Hv]; [by left|].
    apply entryf_Some in Hl as [? ?]. apply entryf_Some. by rewrite Hk, Hv.
  - apply IH. intros b Hb. apply Hsame. by right.
Qed.

Lemma entries_of_order s ls es :
  order s = Some ls →
  entries s = Some es ↔ Forall2 (λ l e, entryf (heap s) l = Some e) ls es.
Proof. intros Ho. unfold entries. rewrite Ho. apply mapM_Some. Qed.

Lemma WF_entries_iff s ls es :
  WF_at s ls →
  entries s = Some es ↔ Forall2 (λ l e, entryf (heap s) l = Some e) ls es.
Proof. intros Hwf. apply entries_of_order. by apply WF_order. Qed.

(** The entries of slots other than the slot of [k] have other keys. *)
Lemma entries_other_keys s ls L es k :
  Coherent_at s ls →
  nan k = false →
  Forall2 (λ l e, entryf (heap s) l = Some e) L es →
  (∀ b, b ∈ L → b ∈ ls ∧ cacheMap (lruc s) !! k ≠ Some (Some b)) →
  ∀ e, e ∈ es → e.1 ≠ k.
Proof.
  intros Hco Hnan HF HL [k' v'] He Heq. simpl in Heq. subst k'.
  apply list_elem_of_lookup in He as [i Hi].
  destruct (Forall2_lookup_r _ _ _ _ _ HF Hi) as (l & Hl & [Hkl _]%entryf_Some).
  destruct (HL l) as [Hin Hne]; [apply list_elem_of_lookup; by exists i|].
  destruct (co_slot _ _ _ Hco Hin) as (k' & Hk' & Hm).
  assert (k' = k) as -> by congruence. by apply Hne, Hm.
Qed.

Lemma lookup_key_None k es : (∀ e, e ∈ es → e.1 ≠ k) → lookup_key k es = None.
Proof.
  intros Hne. unfold lookup_key. destruct (nan k); [done|].
  assert (Hnil : filter (λ e : K * V, e.1 = k) es = []); [|by rewrite Hnil].
  induction es as [|e es IH]; [done|].
  rewrite filter_cons_False by (apply Hne; by left).
  apply IH. intros e' He'. apply Hne. by right.
Qed.

Lemma remove_key_id k es : (∀ e, e ∈ es → e.1 ≠ k) → remove_key k es = es.
Proof.
  intros Hne. unfold remove_key. induction es as [|e es IH]; [done|].
  rewrite filter_cons_True by (apply Hne; by left). f_equal.
  apply IH. intros e' He'. apply Hne. by right.
Qed.

Lemma lookup_key_nan k es : nan k = true → lookup_key k es = None.
Proof. intros Hk. unfold lookup_key. by rewrite Hk. Qed.

Lemma lookup_key_split k v E1 E2 :
  nan k = false →
  (∀ e, e ∈ E1 → e.1 ≠ k) → lookup_key k (E1 ++ (k, v) :: E2) = Some v.
Proof.
  intros Hnan Hne. unfold lookup_key. rewrite Hnan, filter_app.
  assert (Hnil : filter (λ e : K * V, e.1 = k) E1 = []).
  { clear -Hne. induction E1 as [|e E1 IH]; [done|].
    rewrite filter_cons_False by (apply Hne; by left).
    apply IH. intros e' He'. apply Hne. by right. }
  rewrite Hnil. simpl. by rewrite filter_cons_True.
Qed.

Lemma remove_key_split k v E1 E2 :
  (∀ e, e ∈ E1 ++ E2 → e.1 ≠ k) →
  remove_key k (E1 ++ (k, v) :: E2) = E1 ++ E2.
Proof.
  intros Hne. unfold remove_key.
  rewrite filter_app, filter_cons_False by (simpl; by intros ?).
  fold (remove_key k E1) (remove_key k E2).
  rewrite !remove_key_id; [done|intros e He; apply Hne, elem_of_app; eauto..].
Qed.

(** The entries after the slot [l] of the key [k] is promoted and its
    value set to [v]. *)
Lemma co_entries_promote s s' ls es k l v :
  Coherent_at s ls →
  Forall2 (λ l e, entryf (heap s) l = Some e) ls es →
  cacheMap (lruc s) !! k = Some (Some l) →
  (∀ b, keyf (heap s') b = keyf (heap s) b) →
  (∀ b, b ≠ l → valf (heap s') b = valf (heap s) b) →
  valf (heap s') l = Some v →
  ∃ v0,
    lookup_key k es = Some v0 ∧
    valf (heap s) l = Some v0 ∧
    Forall2 (λ l e, entryf (heap s') l = Some e)
            (promote l ls) ((k, v) :: remove_key k es).
Proof.
  intros Hco Hes Hk Hkeys Hvals Hv.
  pose proof (gomap_lookup_Some _ _ _ Hk) as Hnan.
  destruct (co_lookup _ _ _ _ Hco Hk) as (? & [= <-] & Hl & Hkl).
  destruct (co_ring _ _ Hco) as [Hnd _].
  apply list_elem_of_split in Hl as (L1 & L2 & ->).
  rewrite promote_split by done.
  apply Forall2_app_inv_l in Hes as (E1 & E2' & HE1 & HE2 & ->).
  apply Forall2_cons_inv_l in HE2 as ([k0 v0] & E2 & He & HE2 & ->).
  apply entryf_Some in He as [Hk0 Hv0].
  assert (k0 = k) as -> by congruence.
  apply NoDup_app in Hnd as (Hnd1 & Hdisj & [HlL2 Hnd2]%NoDup_cons).
  assert (HlL1 : l ∉ L1).
  { intros Hin. apply (Hdisj l Hin). by left. }
  assert (Hother : ∀ e, e ∈ E1 ++ E2 → e.1 ≠ k).
  { apply (entries_other_keys s (L1 ++ l :: L2) (L1 ++ L2));
      [done|done|by apply Forall2_app|].
    intros b Hb. split.
    - apply elem_of_app in Hb as [?|?]; apply elem_of_app; [by left|right; by right].
    - rewrite Hk. intros [= ->].
      apply elem_of_app in Hb as [?|?]; done. }
  exists v0. split_and!; [|done|].
  - apply lookup_key_split; [done|].
    intros e He. apply Hother, elem_of_app. by left.
  - rewrite remove_key_split by done. constructor.
    + apply entryf_Some. by rewrite Hkeys.
    + apply (entries_frame (heap s)); [by apply Forall2_app|].
      intros b Hb. split; [done|]. apply Hvals. intros ->.
      apply elem_of_app in Hb as [?|?]; done.
Qed.

Lemma co_entries_absent s ls es k :
  Coherent_at s ls →
  Forall2 (λ l e, entryf (heap s) l = Some e) ls es →
  cacheMap (lruc s) !! k = None →
  lookup_key k es = None.
Proof.
  intros Hco Hes Hk. destruct (nan k) eqn:Hnan; [by apply lookup_key_nan|].
  apply lookup_key_None.
  apply (entries_other_keys s ls ls); [done..|].
  intros b Hb. split; [done|]. by rewrite Hk.
Qed.

Lemma co_entries s ls :
  Coherent_at s ls → ∃ es, Forall2 (λ l e, entryf (heap s) l = Some e) ls es.
Proof.
  intros Hco. destruct (mapM (entryf (heap s)) ls) as [es|] eqn:Hm.
  - exists es. by apply mapM_Some.
  - exfalso. apply mapM_None, Exists_exists in Hm as (l & Hl & Hnone).
    destruct (co_alloc _ _ _ Hco Hl) as [nd Hnd].
    unfold entryf in Hnone. by rewrite Hnd in Hnone.
Qed.

Lemma entries_promote s s' ls es k l v :
  WF_at s ls →
  entries s = Some es →
  cacheMap (lruc s) !! k = Some (Some l) →
  WF_at s' (promote l ls) →
  (∀ b, keyf (heap s') b = keyf (heap s) b) →
  (∀ b, b ≠ l → valf (heap s') b = valf (heap s) b) →
  valf (heap s') l = Some v →
  ∃ v0,
    lookup_key k es = Some v0 ∧
    valf (heap s) l = Some v0 ∧
    entries s' = Some ((k, v) :: remove_key k es).
Proof.
  intros Hwf Hes Hk Hwf' Hkeys Hvals Hv.
  apply (WF_entries_iff _ _ _ Hwf) in Hes.
  destruct (co_entries_promote s s' ls es k l v (WF_Coherent _ _ Hwf)
              Hes Hk Hkeys Hvals Hv) as (v0 & Hlook & Hv0 & Hes').
  exists v0. split_and!; [done..|]. by apply (WF_entries_iff _ _ _ Hwf').
Qed.

Lemma entries_absent s ls es k :
  WF_at s ls →
  entries s = Some es →
  cacheMap (lruc s) !! k = None →
  lookup_key k es = None ∧ length es = size (cacheMap (lruc s)).
Proof.
  intros Hwf Hes Hk. apply (WF_entries_iff _ _ _ Hwf) in Hes. split.
  - apply (co_entries_absent s ls); [by apply WF_Coherent|done..].
  - rewrite <-(wf_len _ _ Hwf). symmetry. by eapply Forall2_length.
Qed.

Lemma WF_entries s ls : WF_at s ls → ∃ es, entries s = Some es.
Proof.
  intros Hwf. destruct (mapM (entryf (heap s)) ls) as [es|] eqn:Hm.
  - exists es. unfold entries. by rewrite (WF_order _ _ Hwf).
  - exfalso. apply mapM_None, Exists_exists in Hm as (l & Hl & Hnone).
    destruct (WF_alloc _ _ _ Hwf Hl) as [nd Hnd].
    unfold entryf in Hnone. by rewrite Hnd in Hnone.
Qed.

Lemma Get_entries s ls es k :
  WF_at s ls →
  entries s = Some es →
  ∃ s',
    Get k s = Done (((list_Get k es).1,
                     match (list_Get k es).1 with
                     | Some _ => None
                     | None => Some (Errorf "key doesn't hit")
                     end), s') ∧
    entries s' = Some (list_Get k es).2 ∧
    WF s' ∧
    world s' = world s ∧
    cap (lruc s') = cap (lruc s) ∧
    evict (lruc s') = evict (lruc s).
Proof.
  intros Hwf Hes.
  destruct (cacheMap (lruc s) !! k) as [item|] eqn:Hk.
  - destruct (WF_lookup _ _ _ _ Hwf Hk) as (l & -> & _).
    destruct (Get_hit s ls k l Hwf Hk) as (v & s' & Hrun & Hv & Hwf' & _ & Hsame & _).
    destruct (entries_promote s s' ls es k l v Hwf Hes Hk Hwf')
      as (v0 & Hlook & Hv0 & Hes').
    { apply Hsame. }
    { intros b _. apply Hsame. }
    { by rewrite (same_valf _ _ Hsame). }
    assert (v0 = v) as -> by congruence.
    exists s'. unfold list_Get. rewrite Hlook. simpl.
    split_and!; [done|done|by eexists|apply Hsame..].
  - destruct (entries_absent _ _ _ _ Hwf Hes Hk) as [Hlook _].
    exists s. unfold list_Get. rewrite Hlook. simpl.
    split_and!; [by apply Get_miss|done|by exists ls|done..].
Qed.

(** X14: on a well-formed store [Get] does what looking a key up in the
    list of entries and moving the entry found to the front does: it
    returns the value of the first entry with that key, and the entries
    afterwards are that entry followed by the others in their order;
    when there is no such entry it returns the key-not-found error and
    the entries are unchanged. *)
Theorem Get_implements_list_Get s k :
  WF s →
  ∃ es s',
    entries s = Some es ∧
    Get k s = Done (((list_Get k es).1,
                     match (list_Get k es).1 with
                     | Some _ => None
                     | None => Some (Errorf "key doesn't hit")
                     end), s') ∧
    entries s' = Some (list_Get k es).2 ∧
    WF s'.
Proof.
  intros [ls Hwf]. destruct (WF_entries _ _ Hwf) as [es Hes].
  destruct (Get_entries s ls es k Hwf Hes) as (s' & Hrun & Hes' & Hwf' & _).
  exists es, s'. split_and!; done.
Qed.

Lemma list_evict_run_evict c vt w e w' evs :
  run_evict c vt w = (e, w', evs) → list_evict (evict c) vt w = (e, w').
Proof.
  unfold run_evict, list_evict. destruct (evict c) as [f|].
  - destruct (f vt w). by intros [= <- <- _].
  - by intros [= <- <- _].
Qed.

Lemma entries_vals h ls es :
  Forall2 (λ l e, entryf h l = Some e) ls es →
  Forall2 (λ l v, valf h l = Some v) ls es.*2.
Proof.
  intros Hes. apply Forall2_fmap_r. eapply Forall2_impl; [exact Hes|].
  intros l [k v] He. by apply entryf_Some in He as [_ Hv].
Qed.

Lemma entries_values s es : entries s = Some es → values s = Some es.*2.
Proof.
  unfold entries, values. destruct (order s) as [ls|]; [|done].
  rewrite !mapM_Some. apply entries_vals.
Qed.

(** [Get] on the entries along the cycle, with keys of any kind. *)
Lemma co_Get_entries s ls es k :
  Coherent_at s ls →
  Forall2 (λ l e, entryf (heap s) l = Some e) ls es →
  ∃ s' ls',
    Get k s = Done (((list_Get k es).1,
                     match (list_Get k es).1 with
                     | Some _ => None
                     | None => Some (Errorf "key doesn't hit")
                     end), s') ∧
    Coherent_at s' ls' ∧
    Forall2 (λ l e, entryf (heap s') l = Some e) ls' (list_Get k es).2 ∧
    length ls' = length ls ∧
    cacheMap (lruc s') = cacheMap (lruc s) ∧
    world s' = world s ∧
    cap (lruc s') = cap (lruc s) ∧
    evict (lruc s') = evict (lruc s) ∧
    (WF_at s ls → WF_at s' ls').
Proof.
  intros Hco Hes.
  destruct (cacheMap (lruc s) !! k) as [item|] eqn:Hk.
  - destruct (co_lookup _ _ _ _ Hco Hk) as (l & -> & Hl & _).
    destruct (co_Get_hit s ls k l Hco Hk) as (v & s' & Hrun & Hv & Hco' & _ & Hsame & _).
    assert (Hwf' : WF_at s ls → WF_at s' (promote l ls)).
    { intros Hwf.
      destruct (Get_hit s ls k l Hwf Hk) as (v3 & s3 & Hrun3 & _ & Hwf3 & _).
      congruence. }
    destruct (co_entries_promote s s' ls es k l v Hco Hes Hk)
      as (v0 & Hlook & Hv0 & Hes').
    { apply Hsame. }
    { intros b _. apply Hsame. }
    { by rewrite (same_valf _ _ Hsame). }
    assert (v0 = v) as -> by congruence.
    destruct (co_ring _ _ Hco) as [Hnd _].
    exists s', (promote l ls). unfold list_Get. rewrite Hlook. simpl.
    split_and!; [done|done|done|by apply promote_length|try apply Hsame..].
    done.
  - pose proof (co_entries_absent _ _ _ _ Hco Hes Hk) as Hlook.
    exists s, ls. unfold list_Get. rewrite Hlook. simpl.
    split_and!; [by apply Get_miss|done..].
Qed.

(** [Set_] on the entries along the cycle, with keys of any kind.  The
    code tests [len(cacheMap) < cap], not the number of entries. *)
Lemma co_Set_entries s ls es k v e s' :
  Coherent_at s ls →
  Forall2 (λ l e, entryf (heap s) l = Some e) ls es →
  Set_ k v s = Done (e, s') →
  let below := bool_decide (Z.of_nat (size (cacheMap (lruc s))) < cap (lruc s))%Z in
  ∃ ls',
    Coherent_at s' ls' ∧
    Forall2 (λ l e, entryf (heap s') l = Some e) ls'
      (match e, lookup_key k es with
       | Some _, _ => list_rotate es
       | None, Some _ => (k, v) :: remove_key k es
       | None, None => if below then (k, v) :: es else (k, v) :: removelast es
       end) ∧
    (e, world s')
      = (match lookup_key k es with
         | Some _ => (None, world s)
         | None =>
             if below then (None, world s)
             else match last es with
                  | Some (_, vt) => list_evict (evict (lruc s)) vt (world s)
                  | None => (None, world s)
                  end
         end) ∧
    length ls'
      = (match lookup_key k es with
         | None => if below then S (length ls) else length ls
         | Some _ => length ls
         end) ∧
    (match lookup_key k es with
     | None =>
         if below then size (cacheMap (lruc s')) = S (size (cacheMap (lruc s)))
         else size (cacheMap (lruc s)) ≤ size (cacheMap (lruc s')) ∧
              (WF_at s (ls) → size (cacheMap (lruc s')) = size (cacheMap (lruc s)))
     | Some _ => size (cacheMap (lruc s')) = size (cacheMap (lruc s))
     end) ∧
    cap (lruc s') = cap (lruc s) ∧
    evict (lruc s') = evict (lruc s) ∧
    (WF_at s ls → nan k = false ∨ is_Some e → WF_at s' ls').
Proof.
  intros Hco Hes Hrun below.
  destruct (co_Set_cases s ls k v Hco)
    as [(l & s1 & Hk & Hrun1 & Hco1 & Hl & Hw & _ & Hkeys & Hv & Hvs)
       |[(s1 & Hk & Hlt & Hrun1 & Hco1 & Hl & Hw & _ & Hkx & Hvx & Hkeys & Hvs)
       |[(_ & _ & _ & Hpanic)
        |(R & t & kt & vt & e1 & w' & evs & Hk & Hge & -> & Hkt & Hvt & Hmt
            & Hev & Hres)]]].
  - assert (e = None ∧ s1 = s') as [-> ->] by (split; congruence).
    destruct (co_entries_promote s s' ls es k l v Hco Hes Hk Hkeys Hvs Hv)
      as (v0 & Hlook & _ & Hes').
    destruct (co_lookup _ _ _ _ Hco Hk) as (? & [= <-] & Hin & _).
    destruct (co_ring _ _ Hco) as [Hnd _].
    exists (promote l ls). rewrite Hlook, Hl, Hw. simpl.
    split_and!; [done|done|done|by apply promote_length|done..|].
    intros Hwf _.
    destruct (Set_present s ls k v l Hwf Hk) as (s3 & Hrun3 & Hwf3 & _).
    congruence.
  - assert (e = None ∧ s1 = s') as [-> ->] by (split; congruence).
    pose proof (co_entries_absent _ _ _ _ Hco Hes Hk) as Hlook.
    exists (fresh (dom (heap s)) :: ls). rewrite Hlook, Hl, Hw.
    unfold below. rewrite bool_decide_eq_true_2 by done. simpl.
    split_and!; [done| |done|done|by apply gomap_size_insert|done..|].
    + constructor; [by apply entryf_Some|].
      apply (entries_frame (heap s)); [done|].
      intros b Hb.
      assert (b ≠ fresh (dom (heap s))).
      { intros ->. by apply (co_fresh_not_slot _ _ Hco). }
      split; [by apply Hkeys|by apply Hvs].
    + intros Hwf [Hnan|[? ?]]; [|done].
      destruct (Set_insert s ls k v Hwf Hnan Hk Hlt) as (s3 & Hrun3 & Hwf3 & _).
      congruence.
  - congruence.
  - pose proof (co_entries_absent _ _ _ _ Hco Hes Hk) as Hlook.
    apply Forall2_app_inv_l in Hes as (Es & E2 & HEs & HE2 & ->).
    apply Forall2_cons_inv_l in HE2 as ([kt' vt'] & E3 & He & HE3 & ->).
    apply Forall2_nil_inv_l in HE3 as ->.
    apply entryf_Some in He as [Hkt' Hvt'].
    assert (kt' = kt ∧ vt' = vt) as [-> ->] by (split; congruence).
    destruct (co_ring _ _ Hco) as [Hnd _].
    apply NoDup_app in Hnd as (_ & Hdisj & _).
    assert (HtR : ∀ b, b ∈ R → t ≠ b).
    { intros b Hb <-. apply (Hdisj t Hb). by left. }
    assert (Hwf' : WF_at s (R ++ [t]) → nan k = false ∨ is_Some e →
                   WF_at s' (t :: R)).
    { intros Hwf Hcase.
      pose proof (Set_full s R t k v kt vt Hwf Hk Hge Hkt Hvt _ _ _ Hev) as Hfull.
      destruct e1 as [err|]; destruct Hfull as [Hrun3 Hwf3]; [congruence|].
      assert (e = None) as -> by congruence.
      destruct Hcase as [Hnan|[? ?]]; [|done]. specialize (Hwf3 Hnan). congruence. }
    apply list_evict_run_evict in Hev.
    assert (Hlen : length (t :: R) = length (R ++ [t])).
    { rewrite length_app. simpl. lia. }
    exists (t :: R). rewrite Hlook, Hlen. unfold below.
    rewrite bool_decide_eq_false_2, last_snoc, Hev by done.
    destruct e1 as [err|]; destruct Hres as [Hrun1 Hco1].
    + assert (e = Some err ∧ evict_failed s t w' evs = s') as [-> <-]
        by (split; congruence).
      split_and!; [done| |done..]. unfold list_rotate.
      rewrite last_snoc, removelast_last.
      constructor; [by apply entryf_Some|done].
    + assert (e = None ∧ replaced s t kt k v w' evs = s') as [-> <-]
        by (split; congruence).
      assert (Hdk : delete kt (cacheMap (lruc s)) !! k = None).
      { destruct (decide (kt = k)) as [->|Hne].
        - apply gomap_lookup_delete_eq.
        - by rewrite gomap_lookup_delete_ne. }
      split_and!; [done| |done|done| | |done..].
      * rewrite removelast_last.
        destruct (co_alloc _ _ t Hco) as [nd Hnd'].
        { apply elem_of_app. right. by left. }
        constructor.
        -- apply entryf_Some. simpl. split.
           ++ rewrite keyf_keep by done. apply keyf_set_key_eq. by rewrite Hnd'.
           ++ unfold valf. by rewrite lookup_alter_eq, lookup_alter_eq, Hnd'.
        -- apply (entries_frame (heap s)); [done|].
           intros b Hb. simpl. split.
           ++ rewrite !keyf_alter_ne; [done|by apply HtR..].
           ++ unfold valf. rewrite !lookup_alter_ne; [done|by apply HtR..].
      * simpl. rewrite gomap_size_insert by done.
        pose proof (gomap_size_delete (cacheMap (lruc s)) kt). lia.
      * intros Hwf. simpl. rewrite gomap_size_insert by done.
        destruct (WF_slot s _ t Hwf) as (kt' & Hkt'' & Hmt').
        { apply elem_of_app. right. by left. }
        assert (kt' = kt) as -> by congruence.
        by rewrite (gomap_size_delete_Some _ _ _ Hmt').
Qed.

Lemma Set_entries s ls k v e s' es :
  WF_at s ls →
  entries s = Some es →
  Set_ k v s = Done (e, s') →
  entries s' = Some (match e with
                     | None => list_Set (cap (lruc s)) k v es
                     | Some _ => list_rotate es
                     end) ∧
  list_step (cap (lruc s)) (evict (lruc s)) (OpSet k v) es (world s)
    = Some (match e with
            | None => list_Set (cap (lruc s)) k v es
            | Some _ => list_rotate es
            end, world s') ∧
  cap (lruc s') = cap (lruc s) ∧
  evict (lruc s') = evict (lruc s).
Proof.
  intros Hwf Hes Hrun. apply (WF_entries_iff _ _ _ Hwf) in Hes.
  pose proof (wf_len _ _ Hwf) as Hlen.
  pose proof (Forall2_length _ _ _ Hes) as Hlen'.
  destruct (co_Set_entries s ls es k v e s' (WF_Coherent _ _ Hwf) Hes Hrun)
    as (ls' & Hco' & Hes' & Hew & Hlen1 & Hsize1 & Hcap & Hev & _).
  assert (Hlast : ¬ (Z.of_nat (size (cacheMap (lruc s))) < cap (lruc s))%Z →
                  lookup_key k es = None → is_Some (last es)).
  { intros Hge Hlook. apply last_is_Some. intros ->.
    apply Forall2_nil_inv_r in Hes as ->. revert Hrun.
    unfold Set_. rewrite bind_get_lruc.
    destruct (cacheMap (lruc s) !! k) as [item|] eqn:Hk.
    { by destruct (WF_lookup _ _ _ _ Hwf Hk) as (? & _ & ?%elem_of_nil & _). }
    rewrite decide_False by done. by rewrite (wf_head _ _ Hwf). }
  assert (Ho : order s' = Some ls').
  { apply co_order; [done|]. rewrite Hlen1.
    destruct (lookup_key k es); [lia|].
    destruct (bool_decide _); [lia|]. destruct Hsize1 as [_ Hsize1].
    rewrite Hsize1 by done. lia. }
  rewrite (entries_of_order _ _ _ Ho). simpl. unfold list_Set.
  rewrite <-Hlen', Hlen.
  destruct (lookup_key k es) as [v0|] eqn:Hlook.
  - injection Hew as -> Hw. by rewrite Hw.
  - destruct (decide (Z.of_nat (size (cacheMap (lruc s))) < cap (lruc s))%Z)
      as [Hlt|Hge].
    + rewrite bool_decide_eq_true_2 in Hes', Hew by done.
      injection Hew as -> Hw. by rewrite Hw.
    + rewrite bool_decide_eq_false_2 in Hes', Hew by done.
      destruct (Hlast Hge eq_refl) as [[kt vt] Hl]. rewrite Hl in Hew |- *.
      rewrite <-Hew. by destruct e.
Qed.

(** X15: on a well-formed store [Set_] does what the list of entries
    asks for.  When it returns no error: an entry with the key is
    replaced by the new entry at the front; otherwise the new entry is
    put in front, after the last entry is dropped if the list already
    has [cap] entries or more.  When it returns an error (the eviction
    callback failed) the last entry has moved to the front and nothing
    else changed.  The store stays well formed, unless a NaN key was
    stored. *)
Theorem Set_implements_list_Set s k v e s' es :
  WF s →
  entries s = Some es →
  Set_ k v s = Done (e, s') →
  entries s' = Some (match e with
                     | None => list_Set (cap (lruc s)) k v es
                     | Some _ => list_rotate es
                     end) ∧
  (nan k = false ∨ is_Some e → WF s').
Proof.
  intros Hwf Hes Hrun. split.
  - destruct Hwf as [ls Hwf].
    by destruct (Set_entries s ls k v e s' es Hwf Hes Hrun) as (Hes' & _).
  - intros Hcase. by apply (Set_keeps_WF s k v e s').
Qed.

(** ** Sequences of operations on the list of entries *)

(** One operation on a store reached with keys of any kind: the entries
    along the cycle follow the list machine.  The index has as many
    entries as there are slots until the store is full; after that it
    may have more. *)
Lemma run_op_list s ls es o :
  Coherent_at s ls →
  Forall2 (λ l e, entryf (heap s) l = Some e) ls es →
  length ls = size (cacheMap (lruc s)) ∨ (cap (lruc s) ≤ Z.of_nat (length ls))%Z →
  (Z.of_nat (length ls) ≤ Z.max 0 (cap (lruc s)))%Z →
  fuel_ok (cap (lruc s)) o →
  match list_step (cap (lruc s)) (evict (lruc s)) o es (world s) with
  | Some (es', w') =>
      ∃ s' ls',
        run_op o s = Done ((), s') ∧
        Coherent_at s' ls' ∧
        Forall2 (λ l e, entryf (heap s') l = Some e) ls' es' ∧
        (length ls' = size (cacheMap (lruc s')) ∨
         (cap (lruc s') ≤ Z.of_nat (length ls'))%Z) ∧
        (Z.of_nat (length ls') ≤ Z.max 0 (cap (lruc s')))%Z ∧
        world s' = w' ∧
        cap (lruc s') = cap (lruc s) ∧
        evict (lruc s') = evict (lruc s) ∧
        (WF_at s ls → no_nan o → WF_at s' ls')
  | None => run_op o s = Panic
  end.
Proof.
  intros Hco Hes Hfill Hmax Hfuel.
  pose proof (Forall2_length _ _ _ Hes) as Hlen.
  pose proof (co_len _ _ Hco) as Hle.
  assert (Hbelow : (Z.of_nat (length es) < cap (lruc s))%Z ↔
                   (Z.of_nat (size (cacheMap (lruc s))) < cap (lruc s))%Z).
  { rewrite <-Hlen. destruct Hfill as [->|Hfull]; [done|]. lia. }
  destruct o as [k v|k|fuel visit].
  - destruct (Set_ k v s) as [[e s']| |] eqn:Hrun.
    + destruct (co_Set_entries s ls es k v e s' Hco Hes Hrun)
        as (ls' & Hco' & Hes' & Hew & Hlen1 & Hsize1 & Hcap & Hev & Hwf').
      assert (Hkeep : WF_at s ls → no_nan (OpSet k v) → WF_at s' ls').
      { intros Hwf Hnan. apply Hwf'; [done|by left]. }
      assert (Hlast : ¬ (Z.of_nat (size (cacheMap (lruc s))) < cap (lruc s))%Z →
                      is_Some (last es)).
      { intros Hge. apply last_is_Some. intros ->.
        apply Forall2_nil_inv_r in Hes as ->. revert Hrun.
        unfold Set_. rewrite bind_get_lruc.
        destruct (cacheMap (lruc s) !! k) as [item|] eqn:Hk.
        { by destruct (co_lookup _ _ _ _ Hco Hk) as (? & _ & ?%elem_of_nil & _). }
        rewrite decide_False by done. by rewrite (co_head _ _ Hco). }
      simpl. unfold list_Set.
      destruct (lookup_key k es) as [v0|] eqn:Hlook.
      * injection Hew as -> Hw. exists s', ls'. rewrite Hcap, Hlen1, Hsize1.
        rewrite (bind_run _ _ _ _ _ Hrun). by split_and!.
      * destruct (decide (Z.of_nat (length es) < cap (lruc s))%Z) as [Hlt|Hge].
        -- apply Hbelow in Hlt.
           rewrite bool_decide_eq_true_2 in Hes', Hew, Hlen1, Hsize1 by done.
           injection Hew as -> Hw. exists s', ls'. rewrite Hcap, Hlen1, Hsize1.
           rewrite (bind_run _ _ _ _ _ Hrun).
           split_and!; try done; [left|]; lia.
        -- rewrite Hbelow in Hge.
           rewrite bool_decide_eq_false_2 in Hes', Hew, Hlen1, Hsize1 by done.
           destruct (Hlast Hge) as [[kt vt] Hl]. rewrite Hl in Hew |- *.
           rewrite <-Hew.
           assert (Hstep : ∃ s1 ls1,
                     run_op (OpSet k v) s = Done ((), s1) ∧
                     Coherent_at s1 ls1 ∧
                     Forall2 (λ l e, entryf (heap s1) l = Some e) ls1
                       (match e with
                        | Some _ => list_rotate es
                        | None => (k, v) :: removelast es
                        end) ∧
                     (length ls1 = size (cacheMap (lruc s1)) ∨
                      (cap (lruc s1) ≤ Z.of_nat (length ls1))%Z) ∧
                     (Z.of_nat (length ls1) ≤ Z.max 0 (cap (lruc s1)))%Z ∧
                     world s1 = world s' ∧
                     cap (lruc s1) = cap (lruc s) ∧
                     evict (lruc s1) = evict (lruc s) ∧
                     (WF_at s ls → no_nan (OpSet k v) → WF_at s1 ls1)).
           { exists s', ls'. rewrite Hcap, Hlen1. simpl.
             rewrite (bind_run _ _ _ _ _ Hrun).
             split_and!; [done|done|by destruct e| |done..]. right. lia. }
           by destruct e.
    + destruct (co_Set_cases s ls k v Hco)
        as [(? & ? & _ & ? & _)|[(? & _ & _ & ? & _)|[(Hk & Hge & -> & _)
           |(? & ? & ? & ? & [?|] & ? & ? & _ & _ & _ & _ & _ & _ & _ & ? & _)]]];
        try congruence.
      apply Forall2_nil_inv_l in Hes as ->. simpl.
      rewrite (co_entries_absent s [] [] k Hco) by done.
      rewrite decide_False by (by rewrite Hbelow).
      unfold bind. by rewrite Hrun.
    + destruct (co_Set_cases s ls k v Hco)
        as [(? & ? & _ & ? & _)|[(? & _ & _ & ? & _)|[(_ & _ & _ & ?)
           |(? & ? & ? & ? & [?|] & ? & ? & _ & _ & _ & _ & _ & _ & _ & ? & _)]]];
        congruence.
  - destruct (co_Get_entries s ls es k Hco Hes)
      as (s' & ls' & Hrun & Hco' & Hes' & Hlen1 & Hm & Hw & Hcap & Hev & Hwf').
    exists s', ls'. simpl. rewrite (bind_run _ _ _ _ _ Hrun), Hcap, Hlen1, Hm.
    split_and!; try done. intros Hwf _. by apply Hwf'.
  - simpl in *. exists (with_world s (visit_all visit es.*2 (world s)).1.2
                                    (visit_all visit es.*2 (world s)).2), ls.
    assert (Hlen2 : length ls ≤ S fuel) by lia.
    rewrite (bind_run _ _ _ _ _
               (co_Traverse_run s ls es.*2 fuel visit Hco (entries_vals _ _ _ Hes) Hlen2)).
    split_and!; try done; [by apply (co_ext s)|].
    intros Hwf _. by apply (WF_at_ext s).
Qed.

(** X16: a store made by [NewLRUList] implements the plain list of
    entries, whatever keys it is given.  For every sequence of [Set_],
    [Get] and [Traverse] (each traversal with at least [c] iterations of
    fuel), the store panics exactly when the list machine has no last
    entry to evict, and otherwise it ends with the entries along its
    cycle and the caller's world being those the list machine computes.
    When no [Set_] of the sequence is given a NaN key the store ends well
    formed. *)
Theorem store_implements_list c ev w ops :
  Forall (fuel_ok c) ops →
  match list_run c ev ops [] w with
  | Some (es, w') =>
      ∃ s ls,
        run ops (init c ev w) = Done ((), s) ∧
        Coherent_at s ls ∧
        mapM (entryf (heap s)) ls = Some es ∧
        world s = w' ∧
        (Forall no_nan ops → WF s ∧ entries s = Some es)
  | None => run ops (init c ev w) = Panic
  end.
Proof.
  assert (Hgen : ∀ s0 ls0 es0,
            Coherent_at s0 ls0 →
            Forall2 (λ l e, entryf (heap s0) l = Some e) ls0 es0 →
            length ls0 = size (cacheMap (lruc s0)) ∨
              (cap (lruc s0) ≤ Z.of_nat (length ls0))%Z →
            (Z.of_nat (length ls0) ≤ Z.max 0 (cap (lruc s0)))%Z →
            Forall (fuel_ok (cap (lruc s0))) ops →
            match list_run (cap (lruc s0)) (evict (lruc s0)) ops es0 (world s0) with
            | Some (es, w') =>
                ∃ s ls, run ops s0 = Done ((), s) ∧
                        Coherent_at s ls ∧
                        Forall2 (λ l e, entryf (heap s) l = Some e) ls es ∧
                        world s = w' ∧
                        (WF_at s0 ls0 → Forall no_nan ops → WF_at s ls)
            | None => run ops s0 = Panic
            end).
  { induction ops as [|o ops IH]; intros s0 ls0 es0 Hco Hes Hfill Hmax Hfuel; simpl.
    - by exists s0, ls0.
    - apply Forall_cons in Hfuel as [Ho Hfuel].
      pose proof (run_op_list s0 ls0 es0 o Hco Hes Hfill Hmax Ho) as Hstep.
      destruct (list_step _ _ o es0 (world s0)) as [[es1 w1]|].
      + destruct Hstep
          as (s1 & ls1 & Hrun & Hco1 & Hes1 & Hfill1 & Hmax1 & <- & Hcap & Hev & Hwf1).
        rewrite (bind_run _ _ _ _ _ Hrun).
        rewrite <-Hcap in Hfuel. specialize (IH s1 ls1 es1 Hco1 Hes1 Hfill1 Hmax1 Hfuel).
        rewrite Hcap, Hev in IH.
        destruct (list_run _ _ ops es1 (world s1)) as [[es w']|]; [|done].
        destruct IH as (s & ls & Hrun' & Hco' & Hes' & Hw' & Hwf').
        exists s, ls. split_and!; [done..|].
        intros Hwf0 [Hko Hkeys]%Forall_cons. apply Hwf'; [by apply Hwf1|done].
      + unfold bind. by rewrite Hstep. }
  intros Hfuel.
  specialize (Hgen (init c ev w) [] [] (WF_Coherent _ _ (init_WF c ev w))).
  simpl in Hgen.
  destruct (list_run c ev ops [] w) as [[es w']|] eqn:Hlist.
  - destruct Hgen as (s & ls & Hrun & Hco & Hes & Hw & Hwf);
      [constructor|by left|lia|done|].
    exists s, ls. split_and!; [done|done|by apply mapM_Some|done|].
    intros Hkeys. specialize (Hwf (init_WF c ev w) Hkeys).
    split; [by exists ls|]. by apply (WF_entries_iff _ _ _ Hwf).
  - apply Hgen; [constructor|by left|lia|done].
Qed.


(** * The invariants after every operation *)

(** With a positive capacity, and enough iterations for the loop of a
    traversal, every operation returns. *)
Lemma run_op_returns s ls o :
  Coherent_at s ls →
  (0 < cap (lruc s))%Z →
  (Z.of_nat (length ls) ≤ cap (lruc s))%Z →
  fuel_ok (cap (lruc s)) o →
  ∃ s', run_op o s = Done ((), s').
Proof.
  intros Hco Hc Hlen Hfuel. destruct o as [k v|k|fuel visit]; simpl.
  - destruct (co_Set_cases s ls k v Hco)
      as [(l & s' & _ & Hrun & _)|[(s' & _ & _ & Hrun & _)|[(_ & Hge & -> & _)
         |(R & t & kt & vt & e & w' & evs & _ & _ & _ & _ & _ & _ & _ & Hres)]]].
    + exists s'. by rewrite (bind_run _ _ _ _ _ Hrun).
    + exists s'. by rewrite (bind_run _ _ _ _ _ Hrun).
    + rewrite (co_nil _ _ Hco) in Hge by done. simpl in Hge. lia.
    + destruct e as [err|]; destruct Hres as [Hrun _];
        eexists; by rewrite (bind_run _ _ _ _ _ Hrun).
  - destruct (cacheMap (lruc s) !! k) as [item|] eqn:Hk.
    + destruct (co_lookup _ _ _ _ Hco Hk) as (l & -> & _).
      destruct (co_Get_hit s ls k l Hco Hk) as (v & s1 & Hrun & _).
      exists s1. by rewrite (bind_run _ _ _ _ _ Hrun).
    + exists s. by rewrite (bind_run _ _ _ _ _ (Get_miss _ _ Hk)).
  - destruct (co_values s ls Hco) as [vs Hvs]. simpl in Hfuel.
    assert (Hlen' : length ls ≤ S fuel) by lia.
    eexists.
    by rewrite (bind_run _ _ _ _ _ (co_Traverse_run s ls vs fuel visit Hco Hvs Hlen')).
Qed.

Lemma run_returns ops : ∀ s ls,
  Coherent_at s ls →
  (∀ l, is_Some (heap s !! l) → l ∈ ls) →
  (0 < cap (lruc s))%Z →
  (Z.of_nat (length ls) ≤ cap (lruc s))%Z →
  Forall (fuel_ok (cap (lruc s))) ops →
  ∃ s' ls',
    run ops s = Done ((), s') ∧
    Coherent_at s' ls' ∧
    (Z.of_nat (length ls') ≤ cap (lruc s'))%Z ∧
    cap (lruc s') = cap (lruc s) ∧
    (WF_at s ls → Forall no_nan ops → WF_at s' ls').
Proof.
  induction ops as [|o ops IH]; intros s ls Hco Htight Hc Hlen Hfuel.
  - by exists s, ls.
  - apply Forall_cons in Hfuel as [Ho Hfuel].
    destruct (run_op_returns s ls o Hco Hc Hlen Ho) as [s1 Hrun].
    assert (Hmax : (Z.of_nat (length ls) ≤ Z.max 0 (cap (lruc s)))%Z) by lia.
    destruct (run_op_tight s ls o s1 Hco Htight Hmax Hrun)
      as (ls1 & Hco1 & Htight1 & Hlen1 & Hcap1 & Hwf1).
    destruct (IH s1 ls1) as (s' & ls' & Hrun' & Hco' & Hlen' & Hcap' & Hwf');
      [done|done|lia|lia|by rewrite Hcap1|].
    exists s', ls'. simpl. rewrite (bind_run _ _ _ _ _ Hrun).
    split_and!; [done|done|done|congruence|].
    intros Hwf [Hko Hkeys]%Forall_cons. apply Hwf'; [by apply Hwf1|done].
Qed.

(** C3 (amended): starting from a store built with a positive capacity,
    after every operation of every sequence of [Set_], [Get] and
    [Traverse] (each traversal loop given at least [cap] iterations)
    the store is reached without a panic, the slots form one cycle of at
    most [cap] slots, and the head is nil exactly when the index is
    empty.  When no [Set_] so far was given a NaN key,
    [len(cacheMap) <= cap] and the slots form a single cycle through
    exactly [len(cacheMap)] slots. *)
Theorem invariants_after_every_operation c ev w ops n :
  (0 < c)%Z →
  Forall (fuel_ok c) ops →
  ∃ s,
    run (take n ops) (init c ev w) = Done ((), s) ∧
    cap (lruc s) = c ∧
    (cache (lruc s) = None ↔ size (cacheMap (lruc s)) = 0) ∧
    (∃ ls, Coherent_at s ls ∧ (Z.of_nat (length ls) ≤ c)%Z) ∧
    (Forall no_nan (take n ops) →
     (Z.of_nat (size (cacheMap (lruc s))) ≤ c)%Z ∧ single_cycle s).
Proof.
  intros Hc Hfuel.
  destruct (run_returns (take n ops) (init c ev w) [])
    as (s & ls & Hrun & Hco & Hlen & Hcap & Hwf).
  - apply WF_Coherent, init_WF.
  - simpl. intros l [? Hl]. by rewrite lookup_empty in Hl.
  - done.
  - simpl. lia.
  - by apply Forall_take.
  - simpl in Hcap. rewrite Hcap in Hlen.
    exists s. split_and!; [done|done| |by exists ls|].
    + rewrite (co_head _ _ Hco). split.
      * intros Hhd. apply (co_nil _ _ Hco). by destruct ls.
      * intros Hsize. pose proof (co_len _ _ Hco) as Hle.
        destruct ls; [done|simpl in Hle; lia].
    + intros Hkeys. specialize (Hwf (init_WF c ev w) Hkeys).
      split; [by rewrite <-(wf_len _ _ Hwf)|].
      apply WF_single_cycle. by exists ls.
Qed.

End LRU.

Notation "'let*' x ':=' m 'in' k" := (bind m (λ x, k))
  (at level 10, x name, m at level 100, k at level 200,
   format "'[v' 'let*'  x  ':='  m  'in' '/' k ']'").
Notation "m ';;;' k" := (bind m (λ _, k))
  (at level 100, k at level 200, right associativity,
   format "'[v' m  ';;;' '/' k ']'").


(** * Concrete stores *)

(** Keys that are numbers; each equals itself. *)
#[global] Instance nat_GoKey : GoKey nat := λ _, false.

(** Keys as Go compares them behind [interface{}]: an int, or the float
    NaN, which differs from itself. *)
Inductive fkey : Type :=
  | Int (n : nat)
  | NaN.

#[global] Instance fkey_eq_dec : EqDecision fkey.
Proof. solve_decision. Defined.

#[global] Instance fkey_countable : Countable fkey.
Proof.
  refine (inj_countable' (λ k, match k with Int n => Some n | NaN => None end)
            (λ o, match o with Some n => Int n | None => NaN end) _).
  by intros [].
Defined.

#[global] Instance fkey_GoKey : GoKey fkey := λ k,
  match k with
  | NaN => true
  | Int _ => false
  end.

(** Values are numbers, errors are strings. *)
Definition Errorf_str (msg : string) : string := msg.

Definition evict_ok : @callback nat string unit := λ _ w, (None, w).
Definition evict_busy : @callback nat string unit := λ _ w, (Some "busy", w).

(** A callback with state: it fails on its first call only. *)
Definition evict_flaky : @callback nat string nat :=
  λ _ n, (if decide (n = 0) then Some "busy" else None, S n).

(** A visitor that fails on the value [1]. *)
Definition visit_stop_at_1 : @callback nat string unit :=
  λ v w, (if decide (v = 1) then Some "stop" else None, w).

(** New(2, evict); Set(10, 1); Set(20, 2): a full store. *)
Definition full2 (ev : @callback nat string unit) : @state nat _ _ nat string unit :=
  after Errorf_str [OpSet 10 1; OpSet 20 2] (init 2 (Some ev) tt).

Definition flaky_ops : list (@op nat nat string nat) :=
  [OpSet 10 1; OpSet 20 2; OpSet 30 3].

Definition flaky3 : @state nat _ _ nat string nat :=
  after Errorf_str flaky_ops (init 2 (Some evict_flaky) 0).

(** New(2, evict); Set(NaN, 1); Set(20, 2): a full store whose eviction
    candidate holds the key NaN. *)
Definition nan_ops : list (@op fkey nat string unit) :=
  [OpSet NaN 1; OpSet (Int 20) 2].

Definition nan_full2 (ev : @callback nat string unit) : @state fkey _ _ nat string unit :=
  after Errorf_str nan_ops (init 2 (Some ev) tt).

(** New(2, nil); Set(NaN, 1); Set(NaN, 2); Set(NaN, 3) *)
Definition nan3_ops : list (@op fkey nat string unit) :=
  [OpSet NaN 1; OpSet NaN 2; OpSet NaN 3].

Definition nan3 : @state fkey _ _ nat string unit :=
  after Errorf_str nan3_ops (init 2 None tt).

Ltac by_compute := vm_compute; first [reflexivity | exact I | discriminate | done].
Ltac wf_compute := apply (bool_decide_unpack _); vm_compute; exact I.

(** C1: a failed eviction does not leave the store as it was.  In the
    full store [full2 evict_busy], whose recency order is slot 1 (key 20)
    then slot 0 (key 10), [Set_ 30 3] returns the callback's error with
    heap and index untouched, but the head has moved from slot 1 to
    slot 0 and the recency order is reversed. *)
Theorem Set_failed_eviction_moves_head :
  let s := full2 evict_busy in
  ∃ s',
    Set_ 30 3 s = Done (Some "busy", s') ∧
    heap s' = heap s ∧
    cacheMap (lruc s') = cacheMap (lruc s) ∧
    cache (lruc s) = Some 1 ∧
    cache (lruc s') = Some 0 ∧
    order s = Some [1; 0] ∧
    order s' = Some [0; 1] ∧
    s' ≠ s.
Proof.
  exists (evict_failed (full2 evict_busy) 0 tt [Evicted 1]).
  split_and!; by_compute.
Qed.

(** C4: after a failed eviction the next eviction does not take the
    least recently touched key.  With capacity 2 and a callback that
    fails once, Set(10,1); Set(20,2); Set(30,3) touch 10, then 20, and
    the third call fails in the callback and touches nothing, so 10 is
    the least recently touched stored key; yet Set(40,4) then passes the
    value of key 20 to the callback and removes key 20 from the index,
    keeping key 10. *)
Theorem eviction_after_failure_skips_least_recent :
  let s0 := init 2 (Some evict_flaky) 0 in
  let s := flaky3 in
  ∃ s',
    run Errorf_str flaky_ops s0 = Done ((), s) ∧
    history Errorf_str flaky_ops s0 = [10; 20] ∧
    least_recently_touched (history Errorf_str flaky_ops s0) (cacheMap (lruc s))
      = Some 10 ∧
    cacheMap (lruc s) !! 40 = None ∧
    size (cacheMap (lruc s)) = 2 ∧
    Set_ 40 4 s = Done (None, s') ∧
    log s' = log s ++ [Evicted 2] ∧
    valf (heap s) 1 = Some 2 ∧
    keyf (heap s) 1 = Some 20 ∧
    cacheMap (lruc s') !! 20 = None ∧
    cacheMap (lruc s') !! 10 = Some (Some 0) ∧
    cacheMap (lruc s') !! 40 = Some (Some 1).
Proof.
  exists (replaced flaky3 1 20 40 4 2 [Evicted 2]).
  split_and!; by_compute.
Qed.

(** C2, as the specification states it, fails for a key that does not
    equal itself.  New(2, evict); Set(NaN, 1); Set(20, 2) is a store at
    capacity whose eviction candidate, slot 0, holds the key NaN with
    the value 1.  Set(30, 3) runs the callback on that value and returns
    its error; the [Get] of the key that would have been evicted then
    fails with the key-not-found error instead of returning 1. *)
Lemma Get_after_failed_eviction_misses_NaN :
  let s := nan_full2 evict_busy in
  ∃ s1,
    run Errorf_str nan_ops (init 2 (Some evict_busy) tt) = Done ((), s) ∧
    cap (lruc s) = 2%Z ∧
    size (cacheMap (lruc s)) = 2 ∧
    cacheMap (lruc s) !! Int 30 = None ∧
    lru_slot s = Some 0 ∧
    keyf (heap s) 0 = Some NaN ∧
    valf (heap s) 0 = Some 1 ∧
    Set_ (Int 30) 3 s = Done (Some "busy", s1) ∧
    log s1 = log s ++ [Evicted 1] ∧
    Get Errorf_str NaN s1
      = Done ((None, Some (Errorf_str "key doesn't hit")), s1) ∧
    ¬ ∃ s2, Get Errorf_str NaN s1 = Done ((Some 1, None), s2).
Proof.
  exists (evict_failed (nan_full2 evict_busy) 0 tt [Evicted 1]).
  split_and!; try by_compute.
  intros [s2 Hget]. revert Hget. by_compute.
Qed.

(** C3, as the specification states it, fails for keys that do not equal
    themselves.  After New(2, nil); Set(NaN, 1); Set(NaN, 2); Set(NaN, 3)
    the index has three entries under a capacity of two, and the cycle
    has two slots: walking [next] from the head for [len(cacheMap)]
    steps comes back to the head, so the slots are not a single cycle
    through [len(cacheMap)] slots. *)
Lemma invariants_broken_by_NaN_keys :
  let s := nan3 in
  (0 < 2)%Z ∧
  run Errorf_str nan3_ops (init 2 None tt) = Done ((), s) ∧
  cap (lruc s) = 2%Z ∧
  size (cacheMap (lruc s)) = 3 ∧
  ¬ (Z.of_nat (size (cacheMap (lruc s))) ≤ 2)%Z ∧
  order s = Some [0; 1; 0] ∧
  ¬ single_cycle s.
Proof.
  split_and!; try by_compute.
  intros (ls & Ho & _ & Hnd & _).
  assert (Ho' : order nan3 = Some [0; 1; 0]) by by_compute.
  rewrite Ho' in Ho. injection Ho as <-.
  apply NoDup_cons in Hnd as [Hin _]. apply Hin. wf_compute.
Qed.

(** ** The theorems at concrete stores *)

Lemma Get_after_failed_eviction_witness :
  (∃ s1,
     Set_ 30 3 (full2 evict_busy) = Done (Some "busy", s1) ∧
     (nan 10 = false → cacheMap (lruc (full2 evict_busy)) !! 10 = Some (Some 0)) ∧
     Get Errorf_str 10 s1 = Done ((Some 1, None), s1) ∧
     Get Errorf_str 30 s1
       = Done ((None, Some (Errorf_str "key doesn't hit")), s1)) ∧
  (∃ s1,
     Set_ (Int 30) 3 (nan_full2 evict_busy) = Done (Some "busy", s1) ∧
     (nan NaN = false →
      cacheMap (lruc (nan_full2 evict_busy)) !! NaN = Some (Some 0)) ∧
     Get Errorf_str NaN s1
       = Done ((None, Some (Errorf_str "key doesn't hit")), s1) ∧
     Get Errorf_str (Int 30) s1
       = Done ((None, Some (Errorf_str "key doesn't hit")), s1)).
Proof.
  split.
  - refine (Get_after_failed_eviction Errorf_str (full2 evict_busy)
              30 3 evict_busy 0 10 1 "busy" tt _ _ _ _ _ _ _ _);
      [exists [1; 0]; wf_compute|by_compute..].
  - refine (Get_after_failed_eviction Errorf_str (nan_full2 evict_busy)
              (Int 30) 3 evict_busy 0 NaN 1 "busy" tt _ _ _ _ _ _ _ _);
      [exists [1; 0]; wf_compute|by_compute..].
Defined.

Definition ops_ex : list (@op nat nat string unit) :=
  [OpSet 10 1; OpSet 20 2; OpGet 10; OpSet 30 3;
   OpTraverse 2 visit_stop_at_1; OpGet 99].

Lemma invariants_after_every_operation_witness :
  (∃ s,
     run Errorf_str (take 5 ops_ex) (init 2 (Some evict_busy) tt) = Done ((), s) ∧
     cap (lruc s) = 2%Z ∧
     (cache (lruc s) = None ↔ size (cacheMap (lruc s)) = 0) ∧
     (∃ ls, Coherent_at s ls ∧ (Z.of_nat (length ls) ≤ 2)%Z) ∧
     (Forall no_nan (take 5 ops_ex) →
      (Z.of_nat (size (cacheMap (lruc s))) ≤ 2)%Z ∧ single_cycle s)) ∧
  (∃ s,
     run Errorf_str (take 3 nan3_ops) (init 2 None tt) = Done ((), s) ∧
     cap (lruc s) = 2%Z ∧
     (cache (lruc s) = None ↔ size (cacheMap (lruc s)) = 0) ∧
     (∃ ls, Coherent_at s ls ∧ (Z.of_nat (length ls) ≤ 2)%Z) ∧
     (Forall no_nan (take 3 nan3_ops) →
      (Z.of_nat (size (cacheMap (lruc s))) ≤ 2)%Z ∧ single_cycle s)).
Proof.
  split.
  - apply (invariants_after_every_operation Errorf_str
             2 (Some evict_busy) tt ops_ex 5); [by_compute|].
    repeat first [apply Forall_nil_2 | apply Forall_cons_2; [by_compute|]].
  - apply (invariants_after_every_operation Errorf_str 2 None tt nan3_ops 3);
      [by_compute|].
    repeat first [apply Forall_nil_2 | apply Forall_cons_2; [by_compute|]].
Defined.





Lemma Set_on_nonpositive_cap_panics_witness :
  lruc (@init nat _ _ nat string unit 0 None tt) = mkLRUList 0 ∅ None None ∧
  Set_ 10 1 (@init nat _ _ nat string unit 0 None tt) = Panic.
Proof.
  apply (Set_on_nonpositive_cap_panics 0 None tt 10 1). by_compute.
Defined.


Definition lru_ops : list (@op nat nat string unit) :=
  [OpSet 10 1; OpSet 20 2; OpSet 30 3; OpGet 10; OpGet 20].

Lemma lru_candidate_is_least_recently_touched_witness :
  least_recently_touched
    (history Errorf_str lru_ops (init 2 (Some evict_ok) tt))
    (cacheMap (lruc (after Errorf_str lru_ops (init 2 (Some evict_ok) tt))))
  = Some 30.
Proof.
  apply (lru_candidate_is_least_recently_touched Errorf_str 2 (Some evict_ok) tt
           lru_ops (after Errorf_str lru_ops (init 2 (Some evict_ok) tt)) 0 30);
    [intros v w; reflexivity
    |repeat first [apply Forall_nil_2 | apply Forall_cons_2; [by_compute|]]
    |by_compute..].
Defined.

(** The eviction candidate of New(2, evict); Set(NaN, 1); Set(20, 2)
    holds the key NaN, which no lookup finds: the least recently touched
    of the keys the index finds is 20. *)
Lemma lru_candidate_may_hold_NaN :
  let s := nan_full2 evict_ok in
  run Errorf_str nan_ops (init 2 (Some evict_ok) tt) = Done ((), s) ∧
  lru_slot s = Some 0 ∧
  keyf (heap s) 0 = Some NaN ∧
  least_recently_touched
    (history Errorf_str nan_ops (init 2 (Some evict_ok) tt)) (cacheMap (lruc s))
  = Some (Int 20).
Proof. split_and!; by_compute. Qed.

Lemma reachable_store_is_coherent_witness :
  Coherent nan3 ∧ (Forall no_nan nan3_ops → WF nan3).
Proof.
  apply (reachable_store_is_coherent Errorf_str 2 None tt nan3_ops). by_compute.
Defined.

Lemma failed_eviction_changes_head_witness :
  ∃ s', Set_ 30 3 (full2 evict_busy) = Done (Some "busy", s') ∧
        cache (lruc s') = Some 0 ∧
        cache (lruc (full2 evict_busy)) ≠ Some 0.
Proof.
  apply (failed_eviction_changes_head (full2 evict_busy)
           30 3 evict_busy 0 1 "busy" tt);
    [wf_compute|by_compute..|vm_compute; lia].
Defined.

(** ** The further properties at concrete stores *)

(** [full2 evict_ok] after Set(30, 3): key 10 was evicted. *)
Definition full2_set30 : @state nat _ _ nat string unit :=
  after Errorf_str [OpSet 30 3] (full2 evict_ok).

(** [full2 evict_busy] after Set(30, 3): the eviction failed. *)
Definition full2_busy30 : @state nat _ _ nat string unit :=
  after Errorf_str [OpSet 30 3] (full2 evict_busy).

(** [nan_full2 evict_ok] after Set(30, 3): the slot that held the key
    NaN holds the key 30, and the index still has the entry of NaN. *)
Definition nan_set30 : @state fkey _ _ nat string unit :=
  after Errorf_str [OpSet (Int 30) 3] (nan_full2 evict_ok).

(** [nan_full2 evict_ok] after Set(NaN, 7): a second entry and a new
    head slot for NaN. *)
Definition nan_set_nan : @state fkey _ _ nat string unit :=
  after Errorf_str [OpSet NaN 7] (nan_full2 evict_ok).

Lemma Set_then_Get_witness :
  (Get Errorf_str 30 full2_set30 = Done ((Some 3, None), full2_set30) ∧
   Coherent full2_set30 ∧
   (WF (full2 evict_ok) → nan 30 = false → WF full2_set30)) ∧
  (Get Errorf_str NaN nan_set_nan
     = Done ((None, Some (Errorf_str "key doesn't hit")), nan_set_nan) ∧
   Coherent nan_set_nan ∧
   (WF (nan_full2 evict_ok) → nan NaN = false → WF nan_set_nan)).
Proof.
  split.
  - refine (Set_then_Get Errorf_str (full2 evict_ok) 30 3 full2_set30 _ _);
      [exists [1; 0]; wf_compute|by_compute].
  - refine (Set_then_Get Errorf_str (nan_full2 evict_ok) NaN 7 nan_set_nan _ _);
      [exists [1; 0]; wf_compute|by_compute].
Defined.

Lemma Set_twice_is_Set_once_witness :
  Set_ 30 3 full2_set30 = Done (None, full2_set30) ∧
  (Set_ 30 3 ;;; Set_ 30 3) (full2 evict_ok) = Set_ 30 3 (full2 evict_ok).
Proof.
  apply (Set_twice_is_Set_once (full2 evict_ok) 30 3 full2_set30);
    [exists [1; 0]; wf_compute|by_compute..].
Defined.

Lemma Get_reads_and_keeps_contents_witness :
  ∃ s',
    Get Errorf_str 10 (full2 evict_ok)
      = Done ((peek (full2 evict_ok) 10,
               match peek (full2 evict_ok) 10 with
               | Some _ => None
               | None => Some (Errorf_str "key doesn't hit")
               end), s') ∧
    (is_Some (peek (full2 evict_ok) 10)
     ↔ is_Some (cacheMap (lruc (full2 evict_ok)) !! 10)) ∧
    (∀ k', peek s' k' = peek (full2 evict_ok) k') ∧
    log s' = log (full2 evict_ok) ∧
    world s' = world (full2 evict_ok) ∧
    WF s'.
Proof.
  apply (Get_reads_and_keeps_contents Errorf_str (full2 evict_ok) 10). wf_compute.
Defined.

Lemma Set_keeps_other_keys_witness :
  peek nan_set30 (Int 30) = Some 3 ∧
  ∀ k', k' ≠ Int 30 →
    peek nan_set30 k' = peek (nan_full2 evict_ok) k' ∨
    (peek nan_set30 k' = None ∧
     cacheMap (lruc (nan_full2 evict_ok)) !! Int 30 = None ∧
     ¬ (Z.of_nat (size (cacheMap (lruc (nan_full2 evict_ok))))
        < cap (lruc (nan_full2 evict_ok)))%Z ∧
     ∃ t, lru_slot (nan_full2 evict_ok) = Some t ∧
          keyf (heap (nan_full2 evict_ok)) t = Some k').
Proof.
  refine (Set_keeps_other_keys (nan_full2 evict_ok) (Int 30) 3 None nan_set30 _ _);
    [exists [1; 0]; wf_compute|by_compute].
Defined.

Lemma Set_replaces_candidate_in_place_witness :
  dom (heap nan_set30) = dom (heap (nan_full2 evict_ok)) ∧
  cacheMap (lruc nan_set30)
    = <[Int 30 := Some 0]> (delete NaN (cacheMap (lruc (nan_full2 evict_ok)))) ∧
  size (cacheMap (lruc nan_set30))
    = S (size (cacheMap (lruc (nan_full2 evict_ok)))) ∧
  cache (lruc nan_set30) = Some 0 ∧
  keyf (heap nan_set30) 0 = Some (Int 30) ∧
  valf (heap nan_set30) 0 = Some 3 ∧
  Get Errorf_str NaN nan_set30
    = Done ((None, Some (Errorf_str "key doesn't hit")), nan_set30).
Proof.
  refine (Set_replaces_candidate_in_place Errorf_str (nan_full2 evict_ok)
            (Int 30) 3 0 NaN nan_set30 _ _ _ _ _ _);
    [exists [1; 0]; wf_compute|by_compute..].
Defined.

Lemma Set_calls_evict_exactly_when_full_witness :
  (∃ t vt, lru_slot (full2 evict_busy) = Some t ∧
           valf (heap (full2 evict_busy)) t = Some vt ∧
           log full2_busy30 = log (full2 evict_busy) ++ [Evicted vt] ∧
           (Some "busy", world full2_busy30)
             = evict_busy vt (world (full2 evict_busy))) ∧
  (cacheMap (lruc (@init nat _ _ nat string unit 0 (Some evict_busy) tt)) !! 10
     = None ∧
   ¬ (Z.of_nat (size (cacheMap
                        (lruc (@init nat _ _ nat string unit 0 (Some evict_busy) tt))))
      < cap (lruc (@init nat _ _ nat string unit 0 (Some evict_busy) tt)))%Z ∧
   cache (lruc (@init nat _ _ nat string unit 0 (Some evict_busy) tt)) = None).
Proof.
  split.
  - refine (Set_calls_evict_exactly_when_full (full2 evict_busy) 30 3 _).
    exists [1; 0]. wf_compute.
  - refine (Set_calls_evict_exactly_when_full
              (init 0 (Some evict_busy) tt) 10 1 _).
    exists []. wf_compute.
Defined.

Lemma Set_panics_iff_empty_without_room_witness :
  (Set_ 10 1 (@init nat _ _ nat string unit 0 None tt) = Panic
   ↔ cache (lruc (@init nat _ _ nat string unit 0 None tt)) = None ∧
     (cap (lruc (@init nat _ _ nat string unit 0 None tt)) ≤ 0)%Z) ∧
  (Set_ 10 1 (@init nat _ _ nat string unit 0 None tt) ≠ Panic →
   ∃ e s', Set_ 10 1 (@init nat _ _ nat string unit 0 None tt) = Done (e, s') ∧
           Coherent s' ∧
           (WF (@init nat _ _ nat string unit 0 None tt) →
            nan 10 = false ∨ is_Some e → WF s')).
Proof.
  apply (Set_panics_iff_empty_without_room (init 0 None tt) 10 1).
  exists []. wf_compute.
Defined.

Definition abc : list (nat * nat) := [(10, 1); (20, 2); (30, 3)].

Lemma sets_then_Traverse_visits_latest_first_witness :
  ∃ s e w' evs,
    run Errorf_str (sets abc) (init 3 (Some evict_ok) tt) = Done ((), s) ∧
    key_order s = Some (reverse abc.*1) ∧
    values s = Some (reverse abc.*2) ∧
    log s = [] ∧
    world s = tt ∧
    visit_all visit_stop_at_1 (reverse abc.*2) tt = (e, w', evs) ∧
    Traverse 2 visit_stop_at_1 s = Done (e, mkState (heap s) (lruc s) w' evs).
Proof.
  apply (sets_then_Traverse_visits_latest_first Errorf_str
           3 (Some evict_ok) tt abc 2 visit_stop_at_1);
    [wf_compute|by_compute|vm_compute; lia].
Defined.

Lemma no_node_is_leaked_witness :
  ∃ ls,
    Coherent_at nan3 ls ∧
    (∀ l, is_Some (heap nan3 !! l) ↔ l ∈ ls) ∧
    size (heap nan3) = length ls ∧
    (Z.of_nat (size (heap nan3)) ≤ Z.max 0 2)%Z ∧
    size (heap nan3) ≤ size (cacheMap (lruc nan3)) ∧
    (Forall no_nan nan3_ops → size (heap nan3) = size (cacheMap (lruc nan3))).
Proof.
  apply (no_node_is_leaked Errorf_str 2 None tt nan3_ops). by_compute.
Defined.

Lemma Traverse_visits_all_witness :
  ∃ vs,
    values (full2 evict_ok) = Some vs ∧
    length vs = size (cacheMap (lruc (full2 evict_ok))) ∧
    Traverse 1 evict_ok (full2 evict_ok)
    = Done (None, mkState (heap (full2 evict_ok)) (lruc (full2 evict_ok))
                    (foldl (λ w v, (evict_ok v w).2) (world (full2 evict_ok)) vs)
                    (log (full2 evict_ok) ++ (Visited <$> vs))).
Proof.
  apply (Traverse_visits_all (full2 evict_ok) 1 evict_ok);
    [wf_compute|vm_compute; lia|intros v w; reflexivity].
Defined.

Lemma Get_implements_list_Get_witness :
  ∃ es s',
    entries (full2 evict_ok) = Some es ∧
    Get Errorf_str 10 (full2 evict_ok)
      = Done (((list_Get 10 es).1,
               match (list_Get 10 es).1 with
               | Some _ => None
               | None => Some (Errorf_str "key doesn't hit")
               end), s') ∧
    entries s' = Some (list_Get 10 es).2 ∧
    WF s'.
Proof.
  apply (Get_implements_list_Get Errorf_str (full2 evict_ok) 10). wf_compute.
Defined.

Lemma Set_implements_list_Set_witness :
  entries full2_busy30 = Some (list_rotate [(20, 2); (10, 1)]) ∧
  (nan 30 = false ∨ is_Some (Some "busy") → WF full2_busy30).
Proof.
  refine (Set_implements_list_Set (full2 evict_busy) 30 3 (Some "busy")
            full2_busy30 [(20, 2); (10, 1)] _ _ _);
    [wf_compute|by_compute..].
Defined.

(** A [Set_] of the key NaN on the new store, which is well formed,
    leads to a store that is not well formed: its one slot is not found
    under the key it holds. *)
Lemma Set_NaN_leaves_well_formed_stores :
  let s := @init fkey _ _ nat string unit 2 None tt in
  ∃ s',
    WF s ∧
    Set_ NaN 1 s = Done (None, s') ∧
    entries s' = Some [(NaN, 1)] ∧
    Coherent s' ∧
    ¬ WF s'.
Proof.
  exists (after Errorf_str [OpSet NaN 1] (init 2 None tt)).
  split_and!; [wf_compute|by_compute|by_compute| |wf_compute].
  exists [0]. wf_compute.
Qed.

(** A run with a callback that fails once and with the key NaN: the
    first two calls fill the store, the failed eviction rotates the two
    entries, the next call drops the entry with key 20, the [Get] of NaN
    misses, and the visitor adds the values it sees to the world. *)
Definition list_ops : list (@op fkey nat string nat) :=
  [OpSet NaN 1; OpSet (Int 20) 2; OpSet (Int 30) 3; OpSet (Int 30) 3; OpGet NaN;
   OpTraverse 2 (λ v n, (None, n + v))].

Lemma store_implements_list_witness :
  Forall (fuel_ok 2) list_ops ∧
  ∃ s ls,
    run Errorf_str list_ops (init 2 (Some evict_flaky) 0) = Done ((), s) ∧
    Coherent_at s ls ∧
    mapM (entryf (heap s)) ls = Some [(Int 30, 3); (NaN, 1)] ∧
    world s = 6 ∧
    (Forall no_nan list_ops →
     WF s ∧ entries s = Some [(Int 30, 3); (NaN, 1)]).
Proof.
  assert (Hfuel : Forall (fuel_ok 2) list_ops).
  { unfold list_ops. repeat (constructor; [by_compute|]). constructor. }
  split; [exact Hfuel|].
  exact (store_implements_list Errorf_str 2 (Some evict_flaky) 0 list_ops Hfuel).
Defined.
